(** * A shallow embedding of the buzzdb page buffer manager

    Source: [src/include/buffer/buffer_manager.h] (class declarations followed
    by the member definitions).

    Modelling decisions.

    - [uint64_t] and [size_t] values are [N]; [int64_t] and [int] values are
      [Z].  Where the source computes with them the wrap-around is written
      out ([wrap_int64], [wrap_int], [wrap_uint64]); overflow of the signed
      [counter], undefined in C++, is given its two's-complement result.
    - Frames are heap objects created with [new] and handed out by reference.
      The manager never frees a frame before its destructor runs, so a
      reference stays usable after its page was evicted.  The model keeps a
      [heap] of frames addressed by allocation order and the page table maps
      a page id to an address, as [std::map<uint64_t, BufferFrame*>] does.
      Which frames the destructor has deleted is recorded next to the frame
      locks.
    - [managerMutex] and [queueMutex] serialise the bodies of [fix_page] and
      [unfix_page]; an operation of the model is one such critical section
      together with the frame calls that follow it in the same function.
    - The frame's [pageMutex] is treated in two steps.  The methods are first
      defined without it: [lockPage] and [unlockPage] are then the
      assignments to [mIsExclusive] and [mIsDirty] alone, and a method says
      what the call does to the frames, the page table, the queues and the
      files when every lock it asks for is granted and every lock it
      releases is held.  Every call of [lockPage], [unlockPage], [readDisk]
      and [writeDisk] is logged in program order in [trace].  The methods
      are then defined a second time with the mutex of every frame
      ([lockPage_mx], [unlockPage_mx], [fix_page_mx], [unfix_page_mx],
      [destroy_mx]): there a call can wait for a lock, the release of a lock
      that is not held is undefined, and the destructor deletes the frames.
      A call that returns with the locks leaves the manager as the call
      without them does ([step_mx_step]).
    - There is one thread of control: calls do not interleave.  In the
      source a miss enters the new frame in the page table and releases
      [queueMutex] and [managerMutex] before it locks and loads the frame,
      so another thread can fix the frame in between.  No statement below
      speaks about such interleavings.
    - [storage/file.h] is not part of the sources; the two block operations
      the frames call are modelled on a byte-addressed file store. *)

From Stdlib.Strings Require Import Byte.
From stdpp Require Import gmap strings list fin_maps pretty sorting.

#[local] Set Warnings "-clear-no-such-hyp".
Local Open Scope Z_scope.

(** ** Machine integers *)

Definition wrap_uint64 (n : N) : N := (n mod 2 ^ 64)%N.
Definition wrap_int64 (z : Z) : Z := (z + 2 ^ 63) mod 2 ^ 64 - 2 ^ 63.
Definition wrap_int (z : Z) : Z := (z + 2 ^ 31) mod 2 ^ 32 - 2 ^ 31.

(** ** Page identifiers *)

(** [static constexpr uint16_t get_segment_id(uint64_t page_id)] *)
Definition get_segment_id (page_id : N) : N :=
  (N.shiftr page_id 48 mod 2 ^ 16)%N.

(** [static constexpr uint64_t get_segment_page_id(uint64_t page_id)] *)
Definition get_segment_page_id (page_id : N) : N :=
  N.land page_id (2 ^ 48 - 1)%N.

(** ** Frames *)

Record BufferFrame := mkBufferFrame {
  pageId : N;
  pageSize : N;
  counter : Z;
  mIsExclusive : bool;
  mIsDirty : bool;
  data : list byte
}.

(** [BufferFrame::BufferFrame(page_id, page_size, counter = 0,
    is_exclusive = false, is_dirty = false)]; [data.resize(page_size, 0)]. *)
Definition new_BufferFrame (page_id page_size : N) : BufferFrame :=
  {| pageId := page_id; pageSize := page_size; counter := 0;
     mIsExclusive := false; mIsDirty := false;
     data := replicate (N.to_nat page_size) x00 |}.

Definition set_counter (c : Z) (f : BufferFrame) : BufferFrame :=
  {| pageId := pageId f; pageSize := pageSize f; counter := c;
     mIsExclusive := mIsExclusive f; mIsDirty := mIsDirty f; data := data f |}.
Definition set_mIsExclusive (b : bool) (f : BufferFrame) : BufferFrame :=
  {| pageId := pageId f; pageSize := pageSize f; counter := counter f;
     mIsExclusive := b; mIsDirty := mIsDirty f; data := data f |}.
Definition set_mIsDirty (b : bool) (f : BufferFrame) : BufferFrame :=
  {| pageId := pageId f; pageSize := pageSize f; counter := counter f;
     mIsExclusive := mIsExclusive f; mIsDirty := b; data := data f |}.
Definition set_data (d : list byte) (f : BufferFrame) : BufferFrame :=
  {| pageId := pageId f; pageSize := pageSize f; counter := counter f;
     mIsExclusive := mIsExclusive f; mIsDirty := mIsDirty f; data := d |}.

(** ** Segment files *)

(** Modelled from the spec: [File::open_file], [File::read_block] and
    [File::write_block] of [storage/file.h], which is not among the sources.
    A file is a sparse array of bytes; opening creates the file when it does
    not exist; reading past the written range yields zero bytes; writing
    extends the file.  An absent file and an empty one read alike, so opening
    leaves the store as it is. *)
Definition open_file (name : string) (d : gmap string (gmap N byte)) : gmap N byte :=
  default ∅ (d !! name).

Definition read_block (file : gmap N byte) (offset size : N) : list byte :=
  (λ i : nat, default x00 (file !! (offset + N.of_nat i)%N)) <$> seq 0 (N.to_nat size).

Fixpoint write_bytes (src : list byte) (offset : N) (file : gmap N byte) : gmap N byte :=
  match src with
  | [] => file
  | b :: src' => write_bytes src' (offset + 1)%N (<[offset := b]> file)
  end.

Definition write_block (src : list byte) (offset size : N) (file : gmap N byte) : gmap N byte :=
  write_bytes (take (N.to_nat size) src) offset file.

(** ** The manager *)

Abbreviation addr := nat.

(** One entry per frame call, in program order.  The I/O entries keep the
    receiver's fields as they were when the call was made. *)
Inductive Event :=
| CallLockPage (a : addr) (exclusive : bool)
| CallUnlockPage (a : addr) (exclusive : bool)
| CallReadDisk (a : addr) (f : BufferFrame)
| CallWriteDisk (a : addr) (f : BufferFrame).

Record BufferManager := mkBufferManager {
  bm_pageSize : N;
  pageCount : N;
  fifoQueue : list N;
  lruQueue : list N;
  bufferMapping : gmap N addr;
  heap : list BufferFrame;
  disk : gmap string (gmap N byte);
  trace : list Event
}.

Definition set_fifoQueue (q : list N) (st : BufferManager) : BufferManager :=
  {| bm_pageSize := bm_pageSize st; pageCount := pageCount st;
     fifoQueue := q; lruQueue := lruQueue st;
     bufferMapping := bufferMapping st; heap := heap st;
     disk := disk st; trace := trace st |}.
Definition set_lruQueue (q : list N) (st : BufferManager) : BufferManager :=
  {| bm_pageSize := bm_pageSize st; pageCount := pageCount st;
     fifoQueue := fifoQueue st; lruQueue := q;
     bufferMapping := bufferMapping st; heap := heap st;
     disk := disk st; trace := trace st |}.
Definition set_bufferMapping (m : gmap N addr) (st : BufferManager) : BufferManager :=
  {| bm_pageSize := bm_pageSize st; pageCount := pageCount st;
     fifoQueue := fifoQueue st; lruQueue := lruQueue st;
     bufferMapping := m; heap := heap st;
     disk := disk st; trace := trace st |}.
Definition set_heap (h : list BufferFrame) (st : BufferManager) : BufferManager :=
  {| bm_pageSize := bm_pageSize st; pageCount := pageCount st;
     fifoQueue := fifoQueue st; lruQueue := lruQueue st;
     bufferMapping := bufferMapping st; heap := h;
     disk := disk st; trace := trace st |}.
Definition set_disk (d : gmap string (gmap N byte)) (st : BufferManager) : BufferManager :=
  {| bm_pageSize := bm_pageSize st; pageCount := pageCount st;
     fifoQueue := fifoQueue st; lruQueue := lruQueue st;
     bufferMapping := bufferMapping st; heap := heap st;
     disk := d; trace := trace st |}.
Definition set_trace (t : list Event) (st : BufferManager) : BufferManager :=
  {| bm_pageSize := bm_pageSize st; pageCount := pageCount st;
     fifoQueue := fifoQueue st; lruQueue := lruQueue st;
     bufferMapping := bufferMapping st; heap := heap st;
     disk := disk st; trace := t |}.

(** ** A state monad with exceptions *)

Inductive Exn := buffer_full_error | out_of_range.

(** [Undef] stands for undefined behaviour of the C++ program: a null or
    dangling dereference, [erase] of an end iterator, an index past the end. *)
Inductive Res (A : Type) :=
| Val (a : A)
| Throw (e : Exn)
| Undef.
Arguments Val {A} a.
Arguments Throw {A} e.
Arguments Undef {A}.

Definition M (A : Type) : Type := BufferManager → Res A * BufferManager.

Definition ret {A} (a : A) : M A := λ st, (Val a, st).
Definition bind {A B} (m : M A) (k : A → M B) : M B :=
  λ st, match m st with
        | (Val a, st') => k a st'
        | (Throw e, st') => (Throw e, st')
        | (Undef, st') => (Undef, st')
        end.
Definition throw {A} (e : Exn) : M A := λ st, (Throw e, st).
Definition undef {A} : M A := λ st, (Undef, st).
Definition get : M BufferManager := λ st, (Val st, st).
Definition modify (g : BufferManager → BufferManager) : M unit := λ st, (Val tt, g st).

Notation "'let*' x ':=' m 'in' k" := (bind m (λ x, k))
  (at level 10, x name, m at level 100, k at level 200).

(** Dereferencing a frame pointer, and writing a frame back. *)
Definition load (a : addr) : M BufferFrame :=
  λ st, match heap st !! a with
        | Some f => (Val f, st)
        | None => (Undef, st)
        end.
Definition store (a : addr) (f : BufferFrame) : M unit :=
  modify (λ st, set_heap (<[a := f]> (heap st)) st).
(** [new BufferFrame(...)]: the next free address. *)
Definition new (f : BufferFrame) : M addr :=
  λ st, (Val (length (heap st)), set_heap (heap st ++ [f]) st).
Definition emit (e : Event) : M unit :=
  modify (λ st, set_trace (trace st ++ [e]) st).

(** ** BufferFrame methods *)

Definition incCounter (a : addr) : M unit :=
  let* f := load a in store a (set_counter (wrap_int64 (counter f + 1)) f).

Definition decCounter (a : addr) : M unit :=
  let* f := load a in store a (set_counter (wrap_int64 (counter f - 1)) f).

Definition fileName (f : BufferFrame) : string := pretty (get_segment_id (pageId f)).
Definition fileOffset (f : BufferFrame) : N :=
  wrap_uint64 (get_segment_page_id (pageId f) * pageSize f).

Definition readDisk (a : addr) : M unit :=
  let* f := load a in
  let* _ := emit (CallReadDisk a f) in
  let* st := get in
  let file := open_file (fileName f) (disk st) in
  store a (set_data (read_block file (fileOffset f) (pageSize f)) f).

Definition writeDisk (a : addr) : M unit :=
  let* f := load a in
  let* _ := emit (CallWriteDisk a f) in
  let* st := get in
  let file := open_file (fileName f) (disk st) in
  modify (set_disk (<[fileName f := write_block (data f) (fileOffset f) (pageSize f) file]> (disk st))).

(** [lockPage] once the mutex is granted: the assignment to [mIsExclusive].
    The wait for the mutex is in [lockPage_mx]. *)
Definition lockPage (a : addr) (exclusive : bool) : M unit :=
  let* _ := emit (CallLockPage a exclusive) in
  let* f := load a in
  store a (set_mIsExclusive exclusive f).

(** [unlockPage] when the mutex is held: the assignment to [mIsDirty].  The
    release, undefined on a mutex that is not held, is in [unlockPage_mx]. *)
Definition unlockPage (a : addr) (is_dirty : bool) : M unit :=
  let* f := load a in
  let* _ := store a (set_mIsDirty is_dirty f) in
  emit (CallUnlockPage a (mIsExclusive f)).

(** ** Containers of the standard library *)

(** [std::find(begin, end, x) - begin]: the position of the first [x], the
    length of the list when there is none (the end iterator). *)
Fixpoint std_find (x : N) (l : list N) : nat :=
  match l with
  | [] => 0%nat
  | y :: l' => if decide (y = x) then 0%nat else S (std_find x l')
  end.

(** [v.erase(v.begin() + i)]; undefined at the end iterator and beyond. *)
Definition vector_erase (i : nat) (l : list N) : M (list N) :=
  if decide (i < length l)%nat then ret (delete i l) else undef.

(** [v[i]] *)
Definition vector_index (l : list N) (i : nat) : M N :=
  match l !! i with
  | Some x => ret x
  | None => undef
  end.

(** [std::map::insert]: keeps the old binding when the key is present. *)
Definition std_map_insert (k : N) (v : addr) (m : gmap N addr) : gmap N addr :=
  match m !! k with
  | Some _ => m
  | None => <[k := v]> m
  end.

(** [std::map::at]: throws [std::out_of_range] on a missing key. *)
Definition map_at (k : N) : M addr :=
  λ st, match bufferMapping st !! k with
        | Some a => (Val a, st)
        | None => (Throw out_of_range, st)
        end.

(** ** BufferManager methods *)

(** [BufferManager::BufferManager(page_size, page_count)] *)
Definition new_BufferManager (page_size page_count : N) : BufferManager :=
  {| bm_pageSize := page_size; pageCount := page_count;
     fifoQueue := []; lruQueue := [];
     bufferMapping := ∅; heap := []; disk := ∅; trace := [] |}.
Arguments new_BufferManager (page_size page_count)%_N.

(** The loop of [getPageIndexToRemove] over the entries [queue[i..]]. *)
Fixpoint scan_queue (q : list N) (i : Z) : M Z :=
  match q with
  | [] => ret (-1)
  | p :: q' =>
      let* tempPage := map_at p in
      let* f := load tempPage in
      if decide (counter f ≠ 0) then scan_queue q' (i + 1)
      else let* _ := writeDisk tempPage in ret i
  end.

(** [int BufferManager::getPageIndexToRemove(bool isFifo)].  The bound of
    the loop is [static_cast<int>(queue.size())]. *)
Definition getPageIndexToRemove (isFifo : bool) : M Z :=
  let* st := get in
  let q := if isFifo then fifoQueue st else lruQueue st in
  scan_queue (take (Z.to_nat (wrap_int (Z.of_nat (length q)))) q) 0.

(** [BufferFrame& BufferManager::removePage(page_id, indexToRemove,
    exclusive, isFifo)] *)
Definition removePage (page_id : N) (indexToRemove : Z) (exclusive isFifo : bool) : M addr :=
  let* st := get in
  let* pFrame := new (new_BufferFrame page_id (bm_pageSize st)) in
  let* _ := incCounter pFrame in
  let* _ :=
    if isFifo then
      let* victim := vector_index (fifoQueue st) (Z.to_nat indexToRemove) in
      let* _ := modify (λ s, set_bufferMapping (delete victim (bufferMapping s)) s) in
      let* _ := modify (λ s, set_bufferMapping (std_map_insert page_id pFrame (bufferMapping s)) s) in
      let* q := vector_erase (Z.to_nat indexToRemove) (fifoQueue st) in
      modify (set_fifoQueue (q ++ [page_id]))
    else
      let* victim := vector_index (lruQueue st) (Z.to_nat indexToRemove) in
      let* _ := modify (λ s, set_bufferMapping (delete victim (bufferMapping s)) s) in
      let* _ := modify (λ s, set_bufferMapping (std_map_insert page_id pFrame (bufferMapping s)) s) in
      let* q := vector_erase (Z.to_nat indexToRemove) (lruQueue st) in
      let* _ := modify (set_lruQueue q) in
      modify (λ s, set_fifoQueue (fifoQueue s ++ [page_id]) s)
  in
  let* _ := lockPage pFrame exclusive in
  let* _ := readDisk pFrame in
  ret pFrame.

(** [BufferFrame& BufferManager::updateExistingPage(page_id, exclusive)] *)
Definition updateExistingPage (page_id : N) (exclusive : bool) : M addr :=
  let* st := get in
  match bufferMapping st !! page_id with
  | None => undef
  | Some pFrame =>
      let* _ := incCounter pFrame in
      let lruPage := std_find page_id (lruQueue st) in
      let fifoPage := std_find page_id (fifoQueue st) in
      let* _ :=
        if decide (lruPage ≠ length (lruQueue st)) then
          let* q := vector_erase lruPage (lruQueue st) in
          modify (set_lruQueue q)
        else
          let* q := vector_erase fifoPage (fifoQueue st) in
          modify (set_fifoQueue q)
      in
      let* _ := modify (λ s, set_lruQueue (lruQueue s ++ [page_id]) s) in
      let* _ := lockPage pFrame exclusive in
      ret pFrame
  end.

(** [BufferFrame& BufferManager::addNewPage(page_id, exclusive)] *)
Definition addNewPage (page_id : N) (exclusive : bool) : M addr :=
  let* st := get in
  let* pFrame := new (new_BufferFrame page_id (bm_pageSize st)) in
  let* _ := incCounter pFrame in
  let* _ := modify (λ s, set_bufferMapping (std_map_insert page_id pFrame (bufferMapping s)) s) in
  let* _ := modify (λ s, set_fifoQueue (fifoQueue s ++ [page_id]) s) in
  let* _ := lockPage pFrame exclusive in
  let* _ := readDisk pFrame in
  ret pFrame.

(** [BufferFrame& BufferManager::fix_page(page_id, exclusive)] *)
Definition fix_page (page_id : N) (exclusive : bool) : M addr :=
  let* st := get in
  let bufferContainsPage := bool_decide (is_Some (bufferMapping st !! page_id)) in
  if bufferContainsPage then updateExistingPage page_id exclusive
  else
    let bufferIsFull := bool_decide (N.of_nat (size (bufferMapping st)) = pageCount st) in
    if negb bufferIsFull then addNewPage page_id exclusive
    else
      let* fifoToRemove := getPageIndexToRemove true in
      if decide (fifoToRemove ≠ -1) then removePage page_id fifoToRemove exclusive true
      else
        let* lruToRemove := getPageIndexToRemove false in
        if decide (lruToRemove ≠ -1) then removePage page_id lruToRemove exclusive false
        else throw buffer_full_error.

(** [void BufferManager::unfix_page(BufferFrame& page, bool is_dirty)] *)
Definition unfix_page (page : addr) (is_dirty : bool) : M unit :=
  let* _ := decCounter page in
  let* _ := unlockPage page is_dirty in
  let* f := load page in
  let* st := get in
  let lruPage := std_find (pageId f) (lruQueue st) in
  if decide (lruPage = length (lruQueue st)) then ret tt
  else
    let* q := vector_erase lruPage (lruQueue st) in
    let* _ := modify (set_lruQueue q) in
    modify (λ s, set_lruQueue (lruQueue s ++ [pageId f]) s).

(** [BufferManager::~BufferManager()], the write-back of the dirty pages;
    [std::map] iterates in key order.  The deletion of the frames is in
    [destroy_mx]. *)
Definition key_le (x y : N * addr) : Prop := (x.1 ≤ y.1)%N.
Global Instance key_le_dec : RelDecision key_le.
Proof. intros x y. unfold key_le. apply _. Defined.

Fixpoint flush_entries (l : list (N * addr)) : M unit :=
  match l with
  | [] => ret tt
  | entry :: l' =>
      let* page := load entry.2 in
      let* _ := if mIsDirty page then writeDisk entry.2 else ret tt in
      flush_entries l'
  end.

Definition destroy : M unit :=
  let* st := get in
  flush_entries (merge_sort key_le (map_to_list (bufferMapping st))).

(** ** Sequences of operations *)

Inductive Op :=
| Fix (page_id : N) (exclusive : bool)
| Unfix (page : addr) (is_dirty : bool).
Arguments Fix page_id%_N exclusive.
Arguments Unfix page%_nat is_dirty.

(** One call by a client, without the frame locks ([step_mx] has them).
    [buffer_full_error] is an outcome the client can handle and go on; after
    undefined behaviour, or [out_of_range] leaving [fix_page] with both
    mutexes held, there is no next call. *)
Definition step (o : Op) (st : BufferManager) : option BufferManager :=
  match o with
  | Fix page_id exclusive =>
      match fix_page page_id exclusive st with
      | (Val _, st') => Some st'
      | (Throw buffer_full_error, st') => Some st'
      | _ => None
      end
  | Unfix page is_dirty =>
      match unfix_page page is_dirty st with
      | (Val _, st') => Some st'
      | _ => None
      end
  end.

Fixpoint run (ops : list Op) (st : BufferManager) : option BufferManager :=
  match ops with
  | [] => Some st
  | o :: ops' =>
      match step o st with
      | Some st' => run ops' st'
      | None => None
      end
  end.

(** ** Derived notions used in the statements *)

(** The frame a resident page id is mapped to, and its pin count. *)
Definition frame_of (st : BufferManager) (p : N) : option (addr * BufferFrame) :=
  match bufferMapping st !! p with
  | Some a =>
      match heap st !! a with
      | Some f => Some (a, f)
      | None => None
      end
  | None => None
  end.

Definition pin_count (st : BufferManager) (p : N) : option Z :=
  (λ af : addr * BufferFrame, counter af.2) <$> frame_of st p.

Definition unpinned (st : BufferManager) (p : N) : Prop := pin_count st p = Some 0.

Global Instance unpinned_dec st p : Decision (unpinned st p).
Proof. unfold unpinned. apply _. Defined.

Definition queue (isFifo : bool) (st : BufferManager) : list N :=
  if isFifo then fifoQueue st else lruQueue st.

(** The entries the loop of [getPageIndexToRemove] ranges over. *)
Definition scanned (isFifo : bool) (st : BufferManager) : list N :=
  take (Z.to_nat (wrap_int (Z.of_nat (length (queue isFifo st))))) (queue isFifo st).

(** The state [writeDisk] leaves behind, called on the frame [f] at [a]. *)
Definition write_back (a : addr) (f : BufferFrame) (st : BufferManager) : BufferManager :=
  set_disk (<[fileName f := write_block (data f) (fileOffset f) (pageSize f)
                              (open_file (fileName f) (disk st))]> (disk st))
    (set_trace (trace st ++ [CallWriteDisk a f]) st).

Definition write_back_page (v : N) (st : BufferManager) : BufferManager :=
  match frame_of st v with
  | Some (a, f) => write_back a f st
  | None => st
  end.

(** The frame of a miss once [fix_page] returns: pinned once, locked in the
    requested mode, filled from its segment file. *)
Definition fresh_frame (page_id : N) (exclusive : bool) (st : BufferManager) : BufferFrame :=
  set_mIsExclusive exclusive (set_counter 1 (new_BufferFrame page_id (bm_pageSize st))).

Definition loaded_frame (page_id : N) (exclusive : bool) (st : BufferManager) : BufferFrame :=
  let f := fresh_frame page_id exclusive st in
  set_data (read_block (open_file (fileName f) (disk st)) (fileOffset f) (pageSize f)) f.

(** The state after [removePage] took the entry [i] of a queue, holding the
    page id [v], for the page [p]. *)
Definition replaced (p : N) (e isFifo : bool) (i : nat) (v : N) (st : BufferManager)
  : BufferManager :=
  {| bm_pageSize := bm_pageSize st; pageCount := pageCount st;
     fifoQueue := (if isFifo then delete i (fifoQueue st) else fifoQueue st) ++ [p];
     lruQueue := if isFifo then lruQueue st else delete i (lruQueue st);
     bufferMapping := std_map_insert p (length (heap st)) (delete v (bufferMapping st));
     heap := heap st ++ [loaded_frame p e st];
     disk := disk st;
     trace := trace st ++ [CallLockPage (length (heap st)) e;
                           CallReadDisk (length (heap st)) (fresh_frame p e st)] |}.

(** The state after [addNewPage]. *)
Definition added (p : N) (e : bool) (st : BufferManager) : BufferManager :=
  {| bm_pageSize := bm_pageSize st; pageCount := pageCount st;
     fifoQueue := fifoQueue st ++ [p]; lruQueue := lruQueue st;
     bufferMapping := std_map_insert p (length (heap st)) (bufferMapping st);
     heap := heap st ++ [loaded_frame p e st];
     disk := disk st;
     trace := trace st ++ [CallLockPage (length (heap st)) e;
                           CallReadDisk (length (heap st)) (fresh_frame p e st)] |}.

(** The state after [updateExistingPage] on the frame [f] at [a]. *)
Definition touched (p : N) (e : bool) (a : addr) (f : BufferFrame) (st : BufferManager)
  : BufferManager :=
  {| bm_pageSize := bm_pageSize st; pageCount := pageCount st;
     fifoQueue := if decide (p ∈ lruQueue st) then fifoQueue st
                  else delete (std_find p (fifoQueue st)) (fifoQueue st);
     lruQueue := (if decide (p ∈ lruQueue st)
                  then delete (std_find p (lruQueue st)) (lruQueue st)
                  else lruQueue st) ++ [p];
     bufferMapping := bufferMapping st;
     heap := <[a := set_mIsExclusive e (set_counter (wrap_int64 (counter f + 1)) f)]> (heap st);
     disk := disk st;
     trace := trace st ++ [CallLockPage a e] |}.

(** The state after [unfix_page] on the frame [f] at [a]. *)
Definition released (d : bool) (a : addr) (f : BufferFrame) (st : BufferManager)
  : BufferManager :=
  {| bm_pageSize := bm_pageSize st; pageCount := pageCount st;
     fifoQueue := fifoQueue st;
     lruQueue := if decide (pageId f ∈ lruQueue st)
                 then delete (std_find (pageId f) (lruQueue st)) (lruQueue st) ++ [pageId f]
                 else lruQueue st;
     bufferMapping := bufferMapping st;
     heap := <[a := set_mIsDirty d (set_counter (wrap_int64 (counter f - 1)) f)]> (heap st);
     disk := disk st;
     trace := trace st ++ [CallUnlockPage a (mIsExclusive f)] |}.

(** ** The invariant of the page table and the two queues *)

Record Inv (st : BufferManager) : Prop := mkInv {
  inv_size : (N.of_nat (size (bufferMapping st)) ≤ pageCount st)%N;
  inv_fifo_nodup : NoDup (fifoQueue st);
  inv_lru_nodup : NoDup (lruQueue st);
  inv_disjoint : ∀ p, p ∈ fifoQueue st → p ∉ lruQueue st;
  inv_queues : ∀ p, p ∈ fifoQueue st ∨ p ∈ lruQueue st ↔ is_Some (bufferMapping st !! p);
  inv_heap : ∀ p a, bufferMapping st !! p = Some a → (a < length (heap st))%nat
}.

(** A resident page is pinned when the counter of its frame is positive. *)
Definition pinned (st : BufferManager) (p : N) : Prop :=
  match pin_count st p with
  | Some c => 0 < c
  | None => False
  end.

Global Instance pinned_dec st p : Decision (pinned st p).
Proof. unfold pinned. destruct (pin_count st p); apply _. Defined.

(** The manager a client holds after the calls [ops] on a new manager (the
    new manager itself when one of the calls has no next call). *)
Definition after (ops : list Op) (page_size page_count : N) : BufferManager :=
  default (new_BufferManager page_size page_count)
          (run ops (new_BufferManager page_size page_count)).
Arguments after ops (page_size page_count)%_N.

(** [p] is resident after every call of [ops] made from [st]. *)
Fixpoint stays_resident (p : N) (ops : list Op) (st : BufferManager) : Prop :=
  match ops with
  | [] => True
  | o :: ops' =>
      match step o st with
      | Some st' => is_Some (bufferMapping st' !! p) ∧ stays_resident p ops' st'
      | None => True
      end
  end.

(** ** Reading the log of frame calls *)

(** The pages written out, each with the dirty flag its frame had when
    [writeDisk] was called. *)
Definition writes (tr : list Event) : list (N * bool) :=
  omap (λ ev, match ev with
              | CallWriteDisk _ f => Some (pageId f, mIsDirty f)
              | _ => None
              end) tr.

(** Reduce the projections of an explicit manager state, and nothing else. *)
Ltac fields :=
  cbn [bm_pageSize pageCount fifoQueue lruQueue bufferMapping heap disk trace].

(** ** Further notions: bytes on disk, client writes, frames of the table *)

(** The bytes the segment file of page [p] holds in the range of that page,
    for pages of [ps] bytes: what [readDisk] on a frame of [p] would load. *)
Definition on_disk (d : gmap string (gmap N byte)) (p ps : N) : list byte :=
  read_block (open_file (pretty (get_segment_id p)) d)
             (wrap_uint64 (get_segment_page_id p * ps)) ps.

(** [char* BufferFrame::get_data()] hands out the buffer of the frame; the
    holder of the frame overwrites the bytes in place.  The buffer has the
    size it was given at construction: a write of another length is not
    one the buffer can take. *)
Definition get_data (a : addr) : M (list byte) :=
  let* f := load a in ret (data f).

Definition write_data (a : addr) (bytes : list byte) : M unit :=
  let* f := load a in
  if decide (length bytes = length (data f)) then store a (set_data bytes f)
  else undef.

(** What a client does: a call of the manager, or a write through the
    pointer [get_data] returned. *)
Inductive Action :=
| Call (o : Op)
| WriteData (page : addr) (bytes : list byte).
Arguments WriteData page%_nat bytes.

Definition act (x : Action) (st : BufferManager) : option BufferManager :=
  match x with
  | Call o => step o st
  | WriteData page bytes =>
      match write_data page bytes st with
      | (Val _, st') => Some st'
      | _ => None
      end
  end.

Fixpoint play (xs : list Action) (st : BufferManager) : option BufferManager :=
  match xs with
  | [] => Some st
  | x :: xs' =>
      match act x st with
      | Some st' => play xs' st'
      | None => None
      end
  end.

(** Every frame has the page size of the manager and a buffer of that many
    bytes; the frame a page id is mapped to carries that page id. *)
Record FrameInv (st : BufferManager) : Prop := mkFrameInv {
  finv_heap : Forall (λ f, pageSize f = bm_pageSize st
                           ∧ length (data f) = N.to_nat (bm_pageSize st)) (heap st);
  finv_table : ∀ p a f, bufferMapping st !! p = Some a → heap st !! a = Some f → pageId f = p
}.

(** The page ids of the table are [uint64_t] values. *)
Definition IdsInv (st : BufferManager) : Prop :=
  ∀ p, is_Some (bufferMapping st !! p) → (p < 2 ^ 64)%N.

Definition action_id_ok (x : Action) : Prop :=
  match x with
  | Call (Fix page_id _) => (page_id < 2 ^ 64)%N
  | _ => True
  end.

(** The action does not fix page [v]. *)
Definition not_fix (v : N) (x : Action) : Prop :=
  match x with
  | Call (Fix page_id _) => page_id ≠ v
  | _ => True
  end.

(** A resident page is dirty when the flag of its frame is set. *)
Definition resident_dirty (st : BufferManager) (p : N) : Prop :=
  match frame_of st p with
  | Some (_, f) => mIsDirty f = true
  | None => False
  end.

(** The three invariants together. *)
Definition Sound (st : BufferManager) : Prop := Inv st ∧ FrameInv st ∧ IdsInv st.

(** The manager after the actions [xs] of a client on a new manager. *)
Definition after_actions (xs : list Action) (page_size page_count : N) : BufferManager :=
  default (new_BufferManager page_size page_count)
          (play xs (new_BufferManager page_size page_count)).
Arguments after_actions xs (page_size page_count)%_N.

(** The call of [writeDisk] the destructor makes for the page table entry
    [entry], when its frame is dirty. *)
Definition flush_event (st : BufferManager) (entry : N * addr) : option Event :=
  match heap st !! entry.2 with
  | Some f => if mIsDirty f then Some (CallWriteDisk entry.2 f) else None
  | None => None
  end.

(** The bytes of the examples. *)
Definition abcd : list byte := [x61; x62; x63; x64].

(** Proves [Forall P xs] for a list of actions written out, where [P] is
    [action_id_ok] or [not_fix v]. *)
Ltac each_action :=
  repeat (apply Forall_cons; split; [first [exact I | reflexivity | discriminate]|]);
  apply Forall_nil_2.

(** * The methods with the frame locks

    The definitions above say what each method does to the frames, the page
    table, the queues and the files once the frame lock it asks for has been
    granted.  The definitions below add the [pageMutex] of every frame and
    the lifetime of the frames: a call can now also wait for a lock, release
    a lock that is not held, or touch a frame that was deleted. *)

(** ** [std::shared_mutex] *)

(** Owned exclusively, or shared by a number of owners.  Owners are counted,
    not named: the model does not tell which thread makes a call. *)
Record shared_mutex := mkMutex {
  exclusive_owner : bool;
  shared_owners : nat
}.

Definition unowned : shared_mutex :=
  {| exclusive_owner := false; shared_owners := 0 |}.

Definition owned (m : shared_mutex) : bool :=
  exclusive_owner m || negb (shared_owners m =? 0)%nat.

(** [lock()] and [lock_shared()]: [None] when the call cannot return at once.
    It then waits for the owners to release the mutex.  For a thread that
    already owns the mutex the standard leaves both calls undefined; here
    [lock()] does not return and [lock_shared()] adds an owner, as they do
    for any other thread. *)
Definition mutex_lock (m : shared_mutex) : option shared_mutex :=
  if owned m then None
  else Some {| exclusive_owner := true; shared_owners := 0 |}.

Definition mutex_lock_shared (m : shared_mutex) : option shared_mutex :=
  if exclusive_owner m then None
  else Some {| exclusive_owner := false; shared_owners := S (shared_owners m) |}.

(** [unlock()] and [unlock_shared()]: [None] when the mutex is not owned in
    that mode, for which the behaviour is undefined. *)
Definition mutex_unlock (m : shared_mutex) : option shared_mutex :=
  if exclusive_owner m
  then Some {| exclusive_owner := false; shared_owners := shared_owners m |}
  else None.

Definition mutex_unlock_shared (m : shared_mutex) : option shared_mutex :=
  match shared_owners m with
  | O => None
  | S n => Some {| exclusive_owner := exclusive_owner m; shared_owners := n |}
  end.

(** ** Outcomes and the monad *)

(** [Waits a]: the call is inside [lock()] or [lock_shared()] of the frame at
    [a] and has not returned.  [Undefined] is undefined behaviour, as [Undef]
    above. *)
Inductive Outcome (A : Type) :=
| Returns (a : A)
| Throws (e : Exn)
| Undefined
| Waits (page : addr).
Arguments Returns {A} a.
Arguments Throws {A} e.
Arguments Undefined {A}.
Arguments Waits {A} page.

(** The manager together with the [pageMutex] of every frame that was
    allocated, in allocation order; [None] once the frame was deleted. *)
Definition ML (A : Type) : Type :=
  BufferManager * list (option shared_mutex)
  → Outcome A * (BufferManager * list (option shared_mutex)).

Definition retL {A} (a : A) : ML A := λ s, (Returns a, s).
Definition bindL {A B} (m : ML A) (k : A → ML B) : ML B :=
  λ s, match m s with
       | (Returns a, s') => k a s'
       | (Throws e, s') => (Throws e, s')
       | (Undefined, s') => (Undefined, s')
       | (Waits a, s') => (Waits a, s')
       end.

Notation "'let+' x ':=' m 'in' k" := (bindL m (λ x, k))
  (at level 10, x name, m at level 100, k at level 200).

(** A step that does not touch the frame locks. *)
Definition lift {A} (m : M A) : ML A :=
  λ s, match m s.1 with
       | (Val a, st') => (Returns a, (st', s.2))
       | (Throw e, st') => (Throws e, (st', s.2))
       | (Undef, st') => (Undefined, (st', s.2))
       end.

(** [pageMutex.lock()] or [pageMutex.lock_shared()] of the frame at [a]. *)
Definition acquire (a : addr) (exclusive : bool) : ML unit :=
  λ s, match s.2 !! a with
       | Some (Some m) =>
           match (if exclusive then mutex_lock m else mutex_lock_shared m) with
           | Some m' => (Returns tt, (s.1, <[a := Some m']> s.2))
           | None => (Waits a, s)
           end
       | _ => (Undefined, s)
       end.

(** [pageMutex.unlock()] or [pageMutex.unlock_shared()] of the frame at [a]. *)
Definition release (a : addr) (exclusive : bool) : ML unit :=
  λ s, match s.2 !! a with
       | Some (Some m) =>
           match (if exclusive then mutex_unlock m else mutex_unlock_shared m) with
           | Some m' => (Returns tt, (s.1, <[a := Some m']> s.2))
           | None => (Undefined, s)
           end
       | _ => (Undefined, s)
       end.

(** [new BufferFrame(...)]: the frame comes with its own mutex, unowned. *)
Definition new_mx (f : BufferFrame) : ML addr :=
  let+ a := lift (new f) in
  let+ _ := (λ s, (Returns tt, (s.1, s.2 ++ [Some unowned]))) in
  retL a.

(** [delete page]: the frame and its mutex are destroyed.  Deleting twice,
    and destroying a mutex that is owned, are undefined. *)
Definition delete_frame (a : addr) : ML unit :=
  λ s, match s.2 !! a with
       | Some (Some m) =>
           if owned m then (Undefined, s)
           else (Returns tt, (s.1, <[a := None]> s.2))
       | _ => (Undefined, s)
       end.

(** ** BufferFrame methods *)

(** [exclusive == true ? pageMutex.lock() : pageMutex.lock_shared();
     mIsExclusive = exclusive;] *)
Definition lockPage_mx (a : addr) (exclusive : bool) : ML unit :=
  let+ _ := acquire a exclusive in
  lift (lockPage a exclusive).

(** [mIsDirty = is_dirty;
     mIsExclusive == true ? pageMutex.unlock() : pageMutex.unlock_shared();] *)
Definition unlockPage_mx (a : addr) (is_dirty : bool) : ML unit :=
  let+ f := lift (load a) in
  let+ _ := lift (unlockPage a is_dirty) in
  release a (mIsExclusive f).

(** ** BufferManager methods *)

(** [BufferManager::BufferManager(page_size, page_count)] *)
Definition new_BufferManager_mx (page_size page_count : N)
  : BufferManager * list (option shared_mutex) :=
  (new_BufferManager page_size page_count, []).
Arguments new_BufferManager_mx (page_size page_count)%_N.

(** [BufferFrame& BufferManager::removePage(page_id, indexToRemove,
    exclusive, isFifo)] *)
Definition removePage_mx (page_id : N) (indexToRemove : Z) (exclusive isFifo : bool)
  : ML addr :=
  let+ st := lift get in
  let+ pFrame := new_mx (new_BufferFrame page_id (bm_pageSize st)) in
  let+ _ := lift (incCounter pFrame) in
  let+ _ := lift (
    if isFifo then
      let* victim := vector_index (fifoQueue st) (Z.to_nat indexToRemove) in
      let* _ := modify (λ s, set_bufferMapping (delete victim (bufferMapping s)) s) in
      let* _ := modify (λ s, set_bufferMapping (std_map_insert page_id pFrame (bufferMapping s)) s) in
      let* q := vector_erase (Z.to_nat indexToRemove) (fifoQueue st) in
      modify (set_fifoQueue (q ++ [page_id]))
    else
      let* victim := vector_index (lruQueue st) (Z.to_nat indexToRemove) in
      let* _ := modify (λ s, set_bufferMapping (delete victim (bufferMapping s)) s) in
      let* _ := modify (λ s, set_bufferMapping (std_map_insert page_id pFrame (bufferMapping s)) s) in
      let* q := vector_erase (Z.to_nat indexToRemove) (lruQueue st) in
      let* _ := modify (set_lruQueue q) in
      modify (λ s, set_fifoQueue (fifoQueue s ++ [page_id]) s))
  in
  let+ _ := lockPage_mx pFrame exclusive in
  let+ _ := lift (readDisk pFrame) in
  retL pFrame.

(** [BufferFrame& BufferManager::updateExistingPage(page_id, exclusive)] *)
Definition updateExistingPage_mx (page_id : N) (exclusive : bool) : ML addr :=
  let+ st := lift get in
  match bufferMapping st !! page_id with
  | None => lift undef
  | Some pFrame =>
      let+ _ := lift (incCounter pFrame) in
      let lruPage := std_find page_id (lruQueue st) in
      let fifoPage := std_find page_id (fifoQueue st) in
      let+ _ := lift (
        if decide (lruPage ≠ length (lruQueue st)) then
          let* q := vector_erase lruPage (lruQueue st) in
          modify (set_lruQueue q)
        else
          let* q := vector_erase fifoPage (fifoQueue st) in
          modify (set_fifoQueue q))
      in
      let+ _ := lift (modify (λ s, set_lruQueue (lruQueue s ++ [page_id]) s)) in
      let+ _ := lockPage_mx pFrame exclusive in
      retL pFrame
  end.

(** [BufferFrame& BufferManager::addNewPage(page_id, exclusive)] *)
Definition addNewPage_mx (page_id : N) (exclusive : bool) : ML addr :=
  let+ st := lift get in
  let+ pFrame := new_mx (new_BufferFrame page_id (bm_pageSize st)) in
  let+ _ := lift (incCounter pFrame) in
  let+ _ := lift (modify (λ s, set_bufferMapping (std_map_insert page_id pFrame (bufferMapping s)) s)) in
  let+ _ := lift (modify (λ s, set_fifoQueue (fifoQueue s ++ [page_id]) s)) in
  let+ _ := lockPage_mx pFrame exclusive in
  let+ _ := lift (readDisk pFrame) in
  retL pFrame.

(** [BufferFrame& BufferManager::fix_page(page_id, exclusive)] *)
Definition fix_page_mx (page_id : N) (exclusive : bool) : ML addr :=
  let+ st := lift get in
  let bufferContainsPage := bool_decide (is_Some (bufferMapping st !! page_id)) in
  if bufferContainsPage then updateExistingPage_mx page_id exclusive
  else
    let bufferIsFull := bool_decide (N.of_nat (size (bufferMapping st)) = pageCount st) in
    if negb bufferIsFull then addNewPage_mx page_id exclusive
    else
      let+ fifoToRemove := lift (getPageIndexToRemove true) in
      if decide (fifoToRemove ≠ -1) then removePage_mx page_id fifoToRemove exclusive true
      else
        let+ lruToRemove := lift (getPageIndexToRemove false) in
        if decide (lruToRemove ≠ -1) then removePage_mx page_id lruToRemove exclusive false
        else lift (throw buffer_full_error).

(** [void BufferManager::unfix_page(BufferFrame& page, bool is_dirty)] *)
Definition unfix_page_mx (page : addr) (is_dirty : bool) : ML unit :=
  let+ _ := lift (decCounter page) in
  let+ _ := unlockPage_mx page is_dirty in
  lift (
    let* f := load page in
    let* st := get in
    let lruPage := std_find (pageId f) (lruQueue st) in
    if decide (lruPage = length (lruQueue st)) then ret tt
    else
      let* q := vector_erase lruPage (lruQueue st) in
      let* _ := modify (set_lruQueue q) in
      modify (λ s, set_lruQueue (lruQueue s ++ [pageId f]) s)).

(** [BufferManager::~BufferManager()] *)
Fixpoint flush_entries_mx (l : list (N * addr)) : ML unit :=
  match l with
  | [] => retL tt
  | entry :: l' =>
      let+ page := lift (load entry.2) in
      let+ _ := lift (if mIsDirty page then writeDisk entry.2 else ret tt) in
      let+ _ := delete_frame entry.2 in
      flush_entries_mx l'
  end.

Definition destroy_mx : ML unit :=
  let+ st := lift get in
  flush_entries_mx (merge_sort key_le (map_to_list (bufferMapping st))).

(** ** Sequences of calls *)

(** One call by a client, as [step]: there is no next call after a call that
    waits, is undefined, or throws [out_of_range]. *)
Definition step_mx (o : Op) (s : BufferManager * list (option shared_mutex))
  : option (BufferManager * list (option shared_mutex)) :=
  match o with
  | Fix page_id exclusive =>
      match fix_page_mx page_id exclusive s with
      | (Returns _, s') => Some s'
      | (Throws buffer_full_error, s') => Some s'
      | _ => None
      end
  | Unfix page is_dirty =>
      match unfix_page_mx page is_dirty s with
      | (Returns _, s') => Some s'
      | _ => None
      end
  end.

Fixpoint run_mx (ops : list Op) (s : BufferManager * list (option shared_mutex))
  : option (BufferManager * list (option shared_mutex)) :=
  match ops with
  | [] => Some s
  | o :: ops' =>
      match step_mx o s with
      | Some s' => run_mx ops' s'
      | None => None
      end
  end.

(** ** Derived notions *)

(** The mutex of the frame at [a], when the frame is alive. *)
Definition mutex_of (ms : list (option shared_mutex)) (a : addr) : option shared_mutex :=
  mjoin (ms !! a).

(** The frame at [a] as [unfix_page] leaves it when it reaches the release
    of the lock: the counter decremented and the dirty flag assigned. *)
Definition unpinned_frame (d : bool) (f : BufferFrame) : BufferFrame :=
  set_mIsDirty d (set_counter (wrap_int64 (counter f - 1)) f).

(** The manager where [unfix_page] stands when it releases the lock. *)
Definition at_release (d : bool) (a : addr) (f : BufferFrame) (st : BufferManager)
  : BufferManager :=
  set_trace (trace st ++ [CallUnlockPage a (mIsExclusive f)])
    (set_heap (<[a := unpinned_frame d f]> (heap st)) st).

(** The manager where [updateExistingPage] stands when it asks for the lock:
    the frame pinned and the page moved to the tail of the LRU queue. *)
Definition at_lock (p : N) (a : addr) (f : BufferFrame) (st : BufferManager)
  : BufferManager :=
  {| bm_pageSize := bm_pageSize st; pageCount := pageCount st;
     fifoQueue := if decide (p ∈ lruQueue st) then fifoQueue st
                  else delete (std_find p (fifoQueue st)) (fifoQueue st);
     lruQueue := (if decide (p ∈ lruQueue st)
                  then delete (std_find p (lruQueue st)) (lruQueue st)
                  else lruQueue st) ++ [p];
     bufferMapping := bufferMapping st;
     heap := <[a := set_counter (wrap_int64 (counter f + 1)) f]> (heap st);
     disk := disk st;
     trace := trace st |}.

(** What [lock()] or [lock_shared()] and their counterparts do to a mutex. *)
Definition locked (exclusive : bool) (m : shared_mutex) : option shared_mutex :=
  if exclusive then mutex_lock m else mutex_lock_shared m.

Definition unlocked (exclusive : bool) (m : shared_mutex) : option shared_mutex :=
  if exclusive then mutex_unlock m else mutex_unlock_shared m.

(** The mutex of a new frame once [lockPage] returned. *)
Definition first_lock (exclusive : bool) : shared_mutex :=
  if exclusive then {| exclusive_owner := true; shared_owners := 0 |}
  else {| exclusive_owner := false; shared_owners := 1 |}.

(** The mutex is owned in the mode [unlockPage] is about to release. *)
Definition held (exclusive : bool) (m : shared_mutex) : bool :=
  if exclusive then exclusive_owner m else negb (shared_owners m =? 0)%nat.

(** Every allocated frame has its mutex, and no frame was deleted. *)
Definition Alive (s : BufferManager * list (option shared_mutex)) : Prop :=
  length s.2 = length (heap s.1) ∧ Forall is_Some s.2.

(** No frame was deleted and no frame lock is owned. *)
Definition all_unowned (ms : list (option shared_mutex)) : bool :=
  forallb (λ m, match m with Some x => negb (owned x) | None => false end) ms.

(** The manager and its frame locks after the calls [ops] on a new manager
    (the new manager itself when the calls do not all return). *)
Definition after_mx (ops : list Op) (page_size page_count : N)
  : BufferManager * list (option shared_mutex) :=
  default (new_BufferManager_mx page_size page_count)
          (run_mx ops (new_BufferManager_mx page_size page_count)).
Arguments after_mx ops (page_size page_count)%_N.

(** The number of owners of a mutex. *)
Definition owner_count (m : shared_mutex) : nat :=
  ((if exclusive_owner m then 1 else 0) + shared_owners m)%nat.

(** The counter of every frame is the number of owners of its lock (as an
    [int64_t]), an exclusive owner is the only owner, and the mode recorded
    in the frame is the mode of the owners. *)
Definition LockInv (s : BufferManager * list (option shared_mutex)) : Prop :=
  ∀ a f m,
    heap s.1 !! a = Some f →
    mutex_of s.2 a = Some m →
    counter f = wrap_int64 (Z.of_nat (owner_count m))
    ∧ (exclusive_owner m = true → shared_owners m = 0%nat ∧ mIsExclusive f = true)
    ∧ (shared_owners m ≠ 0%nat → mIsExclusive f = false).

(** No lock has more than [k] owners. *)
Definition OwnersBound (k : nat) (ms : list (option shared_mutex)) : Prop :=
  ∀ a m, mutex_of ms a = Some m → (owner_count m ≤ k)%nat.

(** * Equations of the primitives *)

Lemma lookup_new_frame (h : list BufferFrame) f : (h ++ [f]) !! length h = Some f.
Proof. by rewrite list_lookup_middle. Qed.

Lemma insert_new_frame (h : list BufferFrame) f g : <[length h := g]> (h ++ [f]) = h ++ [g].
Proof. rewrite insert_app_r_alt by lia. by rewrite Nat.sub_diag. Qed.

Lemma bind_Val {A B} (m : M A) (k : A → M B) st a st' :
  m st = (Val a, st') → bind m k st = k a st'.
Proof. unfold bind. by intros ->. Qed.

Lemma incCounter_eq a f st :
  heap st !! a = Some f →
  incCounter a st
  = (Val tt, set_heap (<[a := set_counter (wrap_int64 (counter f + 1)) f]> (heap st)) st).
Proof. intros H. unfold incCounter, bind, load, store, modify. by rewrite H. Qed.

Lemma decCounter_eq a f st :
  heap st !! a = Some f →
  decCounter a st
  = (Val tt, set_heap (<[a := set_counter (wrap_int64 (counter f - 1)) f]> (heap st)) st).
Proof. intros H. unfold decCounter, bind, load, store, modify. by rewrite H. Qed.

Lemma lockPage_eq a e f st :
  heap st !! a = Some f →
  lockPage a e st
  = (Val tt, set_heap (<[a := set_mIsExclusive e f]> (heap st))
               (set_trace (trace st ++ [CallLockPage a e]) st)).
Proof. intros H. unfold lockPage, bind, emit, load, store, modify. simpl. by rewrite H. Qed.

Lemma unlockPage_eq a d f st :
  heap st !! a = Some f →
  unlockPage a d st
  = (Val tt, set_trace (trace st ++ [CallUnlockPage a (mIsExclusive f)])
               (set_heap (<[a := set_mIsDirty d f]> (heap st)) st)).
Proof. intros H. unfold unlockPage, bind, emit, load, store, modify. by rewrite H. Qed.

Lemma readDisk_eq a f st :
  heap st !! a = Some f →
  readDisk a st
  = (Val tt,
     set_heap (<[a := set_data (read_block (open_file (fileName f) (disk st))
                                           (fileOffset f) (pageSize f)) f]> (heap st))
       (set_trace (trace st ++ [CallReadDisk a f]) st)).
Proof. intros H. unfold readDisk, bind, emit, load, store, modify, get. by rewrite H. Qed.

Lemma writeDisk_eq a f st :
  heap st !! a = Some f → writeDisk a st = (Val tt, write_back a f st).
Proof. intros H. unfold writeDisk, bind, emit, load, store, modify, get. by rewrite H. Qed.

(** * Equations of the manager's methods *)

Lemma addNewPage_eq p e st :
  addNewPage p e st = (Val (length (heap st)), added p e st).
Proof.
  unfold addNewPage, bind at 1, get.
  unfold bind at 1, new.
  erewrite bind_Val; [| apply incCounter_eq; apply lookup_new_frame].
  unfold bind at 1, modify. unfold bind at 1.
  erewrite bind_Val; [| apply lockPage_eq; simpl; rewrite insert_new_frame; apply lookup_new_frame].
  erewrite bind_Val; [| apply readDisk_eq; simpl; rewrite !insert_new_frame; apply lookup_new_frame].
  unfold ret, added, loaded_frame, fresh_frame. simpl.
  rewrite !insert_new_frame, <- app_assoc. reflexivity.
Qed.

Lemma std_find_le x l : (std_find x l ≤ length l)%nat.
Proof. induction l as [|y l IH]; simpl; [lia|]. case_decide; lia. Qed.

Lemma std_find_elem x l : x ∈ l ↔ std_find x l ≠ length l.
Proof.
  induction l as [|y l IH]; simpl.
  - split; [by intros ?%elem_of_nil | done].
  - rewrite elem_of_cons. case_decide; subst.
    + split; [lia | auto].
    + rewrite IH. split; [intros [?|?]; [congruence | lia] | intros ?; right; lia].
Qed.

Lemma std_find_lookup x l : x ∈ l → l !! std_find x l = Some x.
Proof.
  induction l as [|y l IH]; simpl.
  - by intros ?%elem_of_nil.
  - intros [->|Hin]%elem_of_cons; case_decide; subst; simpl; auto; congruence.
Qed.

Lemma std_find_not_elem x l : x ∉ l → std_find x l = length l.
Proof.
  intros Hn. destruct (decide (std_find x l = length l)) as [|Hne]; [done|].
  by apply std_find_elem in Hne.
Qed.

Lemma std_find_lt x l : x ∈ l → (std_find x l < length l)%nat.
Proof. intros H%std_find_elem. pose proof (std_find_le x l). lia. Qed.

Lemma vector_erase_eq i l st :
  (i < length l)%nat → vector_erase i l st = (Val (delete i l), st).
Proof. intros H. unfold vector_erase. by rewrite decide_True. Qed.

Lemma updateExistingPage_eq p e a f st :
  bufferMapping st !! p = Some a →
  heap st !! a = Some f →
  p ∈ fifoQueue st ∨ p ∈ lruQueue st →
  updateExistingPage p e st = (Val a, touched p e a f st).
Proof.
  intros Hm Hf Hq.
  unfold updateExistingPage, bind at 1, get. rewrite Hm.
  erewrite bind_Val; [| by apply incCounter_eq].
  assert (Hl : (a < length (heap st))%nat) by by eapply lookup_lt_Some.
  unfold touched. destruct (decide (p ∈ lruQueue st)) as [Hin|Hin].
  - rewrite decide_True by by apply std_find_elem.
    unfold bind at 1. erewrite bind_Val; [| by apply vector_erase_eq, std_find_lt].
    unfold modify at 1, bind at 1, modify at 1.
    erewrite bind_Val; [| apply lockPage_eq; simpl; by apply list_lookup_insert_eq].
    unfold ret. simpl. by rewrite list_insert_insert_eq.
  - rewrite decide_False by (rewrite std_find_not_elem; auto).
    destruct Hq as [Hq|Hq]; [|done].
    unfold bind at 1. erewrite bind_Val; [| by apply vector_erase_eq, std_find_lt].
    unfold modify at 1, bind at 1, modify at 1.
    erewrite bind_Val; [| apply lockPage_eq; simpl; by apply list_lookup_insert_eq].
    unfold ret. simpl. by rewrite list_insert_insert_eq.
Qed.

Lemma unfix_page_eq a d f st :
  heap st !! a = Some f →
  unfix_page a d st = (Val tt, released d a f st).
Proof.
  intros Hf.
  assert (Hl : (a < length (heap st))%nat) by by eapply lookup_lt_Some.
  unfold unfix_page.
  erewrite bind_Val; [| by apply decCounter_eq].
  erewrite bind_Val; [| apply unlockPage_eq; simpl; by apply list_lookup_insert_eq].
  unfold bind at 1, load. simpl. rewrite list_insert_insert_eq, list_lookup_insert_eq by done.
  unfold bind at 1, get. simpl. unfold released.
  destruct (decide (pageId f ∈ lruQueue st)) as [Hin|Hin].
  - rewrite decide_False by by apply std_find_elem.
    erewrite bind_Val; [| by apply vector_erase_eq, std_find_lt].
    unfold bind, modify. simpl. reflexivity.
  - rewrite decide_True by by apply std_find_not_elem.
    reflexivity.
Qed.

Lemma frame_of_Some st p a f :
  frame_of st p = Some (a, f) ↔ bufferMapping st !! p = Some a ∧ heap st !! a = Some f.
Proof.
  unfold frame_of. destruct (bufferMapping st !! p) as [a'|]; [|naive_solver].
  destruct (heap st !! a') as [f'|] eqn:E; naive_solver.
Qed.

Lemma pin_count_Some st p c :
  pin_count st p = Some c ↔ ∃ a f, frame_of st p = Some (a, f) ∧ counter f = c.
Proof.
  unfold pin_count. destruct (frame_of st p) as [[a f]|]; simpl; [|naive_solver].
  split; [intros [= <-]; eauto | intros (? & ? & [= <- <-] & <-); done].
Qed.

Lemma Inv_frame_of st p :
  Inv st → is_Some (bufferMapping st !! p) → is_Some (frame_of st p).
Proof.
  intros HI [a Ha]. destruct (lookup_lt_is_Some_2 (heap st) a) as [f Hf].
  { by eapply inv_heap. }
  exists (a, f). by apply frame_of_Some.
Qed.

(** The loop stops at the first entry whose frame has counter zero, after
    writing that frame out; it changes nothing when there is none. *)
Lemma scan_queue_eq st q i :
  Forall (λ p, is_Some (frame_of st p)) q →
  scan_queue q i st
  = match list_find (unpinned st) q with
    | Some (j, v) => (Val (i + Z.of_nat j), write_back_page v st)
    | None => (Val (-1), st)
    end.
Proof.
  intros HF. revert i. induction HF as [|p q [[a f] Hp] HF IH]; intros i; [done|].
  simpl. pose proof Hp as [Ha Hf]%frame_of_Some.
  unfold bind at 1, map_at. rewrite Ha.
  unfold bind at 1, load. rewrite Hf.
  destruct (decide (counter f ≠ 0)) as [Hc|Hc].
  - rewrite decide_False; last first.
    { unfold unpinned. rewrite pin_count_Some. intros (? & ? & ? & ?). congruence. }
    rewrite IH. destruct (list_find (unpinned st) q) as [[j v]|]; simpl; [|done].
    do 2 f_equal. lia.
  - rewrite decide_True; last first.
    { unfold unpinned. rewrite pin_count_Some. exists a, f. split; [done|]. lia. }
    erewrite bind_Val; [| by apply writeDisk_eq].
    unfold ret, write_back_page. rewrite Hp. do 2 f_equal. lia.
Qed.

Lemma wrap_int_small z : 0 ≤ z < 2 ^ 31 → wrap_int z = z.
Proof. intros H. unfold wrap_int. rewrite Z.mod_small; lia. Qed.

Lemma Inv_queue_frames st b :
  Inv st → Forall (λ p, is_Some (frame_of st p)) (queue b st).
Proof.
  intros HI. apply Forall_forall. intros p Hp. apply Inv_frame_of; [done|].
  apply inv_queues; [done|]. destruct b; auto.
Qed.

Lemma Inv_queue_length st b :
  Inv st → (N.of_nat (length (queue b st)) ≤ pageCount st)%N.
Proof.
  intros HI.
  assert (Hsub : queue b st ⊆ (map_to_list (bufferMapping st)).*1).
  { intros p Hp. assert (is_Some (bufferMapping st !! p)) as [a Ha].
    { apply inv_queues; [done|]. destruct b; auto. }
    apply list_elem_of_fmap. exists (p, a). split; [done|]. by apply elem_of_map_to_list. }
  assert (Hnd : NoDup (queue b st)).
  { destruct b; [by apply inv_fifo_nodup | by apply inv_lru_nodup]. }
  pose proof (submseteq_length _ _ (NoDup_submseteq _ _ Hnd Hsub)) as Hlen.
  rewrite length_fmap, length_map_to_list in Hlen.
  pose proof (inv_size st HI). lia.
Qed.

Lemma scanned_all st b :
  Inv st → (pageCount st < 2 ^ 31)%N → scanned b st = queue b st.
Proof.
  intros HI Hpc. unfold scanned.
  pose proof (Inv_queue_length st b HI) as Hlen.
  rewrite wrap_int_small by lia. by rewrite Nat2Z.id, firstn_all.
Qed.

Lemma scanned_lookup st b j v : scanned b st !! j = Some v → queue b st !! j = Some v.
Proof. unfold scanned. intros H. by apply lookup_take_Some in H as [? ?]. Qed.

Lemma getPageIndexToRemove_eq st b :
  Inv st →
  getPageIndexToRemove b st
  = match list_find (unpinned st) (scanned b st) with
    | Some (j, v) => (Val (Z.of_nat j), write_back_page v st)
    | None => (Val (-1), st)
    end.
Proof.
  intros HI. unfold getPageIndexToRemove, bind at 1, get.
  change (if b then fifoQueue st else lruQueue st) with (queue b st).
  change (take _ (queue b st)) with (scanned b st).
  rewrite scan_queue_eq.
  - by destruct (list_find (unpinned st) (scanned b st)) as [[j v]|].
  - apply Forall_forall. intros p Hp.
    apply (Forall_forall (λ p, is_Some (frame_of st p)) (queue b st)).
    + by apply Inv_queue_frames.
    + apply list_elem_of_lookup in Hp as [j Hj].
      apply list_elem_of_lookup. exists j. by apply scanned_lookup.
Qed.

Lemma vector_index_eq l i x st : l !! i = Some x → vector_index l i st = (Val x, st).
Proof. intros H. unfold vector_index. by rewrite H. Qed.

Lemma removePage_eq p i e b v st :
  queue b st !! i = Some v →
  removePage p (Z.of_nat i) e b st = (Val (length (heap st)), replaced p e b i v st).
Proof.
  intros Hv. assert (Hi : (i < length (queue b st))%nat) by by eapply lookup_lt_Some.
  unfold removePage, bind at 1, get.
  unfold bind at 1, new.
  erewrite bind_Val; [| apply incCounter_eq; apply lookup_new_frame].
  rewrite Nat2Z.id.
  destruct b; simpl in Hv, Hi.
  - unfold bind at 1. unfold bind at 1. erewrite vector_index_eq by done.
    unfold bind at 1, modify at 1. unfold bind at 1, modify at 1.
    erewrite bind_Val; [| by apply vector_erase_eq].
    unfold modify at 1.
    erewrite bind_Val; [| apply lockPage_eq; simpl; rewrite insert_new_frame; apply lookup_new_frame].
    erewrite bind_Val; [| apply readDisk_eq; simpl; rewrite !insert_new_frame; apply lookup_new_frame].
    unfold ret, replaced, loaded_frame, fresh_frame. simpl.
    rewrite !insert_new_frame, <- app_assoc. reflexivity.
  - unfold bind at 1. unfold bind at 1. erewrite vector_index_eq by done.
    unfold bind at 1, modify at 1. unfold bind at 1, modify at 1.
    erewrite bind_Val; [| by apply vector_erase_eq].
    unfold bind at 1, modify at 1. unfold modify at 1.
    erewrite bind_Val; [| apply lockPage_eq; simpl; rewrite insert_new_frame; apply lookup_new_frame].
    erewrite bind_Val; [| apply readDisk_eq; simpl; rewrite !insert_new_frame; apply lookup_new_frame].
    unfold ret, replaced, loaded_frame, fresh_frame. simpl.
    rewrite !insert_new_frame, <- app_assoc. reflexivity.
Qed.

(** * The three ways through [fix_page] *)

Lemma fix_page_hit p e a f st :
  bufferMapping st !! p = Some a →
  heap st !! a = Some f →
  p ∈ fifoQueue st ∨ p ∈ lruQueue st →
  fix_page p e st = (Val a, touched p e a f st).
Proof.
  intros Hm Hf Hq. unfold fix_page, bind at 1, get.
  rewrite bool_decide_eq_true_2 by by rewrite Hm.
  by apply updateExistingPage_eq.
Qed.

Lemma fix_page_add p e st :
  bufferMapping st !! p = None →
  N.of_nat (size (bufferMapping st)) ≠ pageCount st →
  fix_page p e st = (Val (length (heap st)), added p e st).
Proof.
  intros Hm Hs. unfold fix_page, bind at 1, get.
  rewrite bool_decide_eq_false_2 by (rewrite Hm; by intros [? ?]).
  rewrite bool_decide_eq_false_2 by done. simpl.
  apply addNewPage_eq.
Qed.

Lemma heap_write_back_page v st : heap (write_back_page v st) = heap st.
Proof. unfold write_back_page. by destruct (frame_of st v) as [[? ?]|]. Qed.

Lemma queue_write_back_page b v st : queue b (write_back_page v st) = queue b st.
Proof. unfold write_back_page. by destruct (frame_of st v) as [[? ?]|], b. Qed.

Lemma fix_page_full p e st :
  Inv st →
  bufferMapping st !! p = None →
  N.of_nat (size (bufferMapping st)) = pageCount st →
  fix_page p e st
  = match list_find (unpinned st) (scanned true st) with
    | Some (i, v) =>
        (Val (length (heap st)), replaced p e true i v (write_back_page v st))
    | None =>
        match list_find (unpinned st) (scanned false st) with
        | Some (i, v) =>
            (Val (length (heap st)), replaced p e false i v (write_back_page v st))
        | None => (Throw buffer_full_error, st)
        end
    end.
Proof.
  intros HI Hm Hs. unfold fix_page, bind at 1, get.
  rewrite bool_decide_eq_false_2 by (rewrite Hm; by intros [? ?]).
  rewrite bool_decide_eq_true_2 by done. simpl.
  unfold bind at 1. rewrite getPageIndexToRemove_eq by done.
  destruct (list_find (unpinned st) (scanned true st)) as [[i v]|] eqn:E1.
  - rewrite decide_True by lia.
    apply list_find_Some in E1 as (Hv & _ & _). apply scanned_lookup in Hv.
    rewrite (removePage_eq p i e true v); [by rewrite heap_write_back_page|].
    by rewrite queue_write_back_page.
  - rewrite decide_False by lia.
    unfold bind at 1. rewrite getPageIndexToRemove_eq by done.
    destruct (list_find (unpinned st) (scanned false st)) as [[i v]|] eqn:E2.
    + rewrite decide_True by lia.
      apply list_find_Some in E2 as (Hv & _ & _). apply scanned_lookup in Hv.
      rewrite (removePage_eq p i e false v); [by rewrite heap_write_back_page|].
      by rewrite queue_write_back_page.
    + by rewrite decide_False by lia.
Qed.

(** * The invariant is kept *)


Lemma erase_spec (l : list N) i x :
  NoDup l → l !! i = Some x →
  NoDup (delete i l) ∧ ∀ y, y ∈ delete i l ↔ y ∈ l ∧ y ≠ x.
Proof.
  intros Hnd Hi. pose proof (delete_Permutation l i x Hi) as Hp.
  rewrite Hp in Hnd. apply NoDup_cons in Hnd as [Hx Hnd]. split; [done|].
  intros y. rewrite (elem_of_Permutation_proper y _ _ Hp), elem_of_cons.
  split.
  - intros Hy. split; [auto|]. by intros ->.
  - by intros [[->|?] ?].
Qed.

Lemma erase_find_spec (l : list N) x :
  NoDup l → x ∈ l →
  NoDup (delete (std_find x l) l) ∧ ∀ y, y ∈ delete (std_find x l) l ↔ y ∈ l ∧ y ≠ x.
Proof. intros Hnd Hx. apply erase_spec; [done|]. by apply std_find_lookup. Qed.

Lemma NoDup_snoc (l : list N) x : NoDup l → x ∉ l → NoDup (l ++ [x]).
Proof.
  intros Hnd Hx. apply NoDup_app. split; [done|]. split; [|apply NoDup_singleton].
  intros y Hy ->%list_elem_of_singleton. done.
Qed.

Lemma std_map_insert_None p a (m : gmap N addr) : m !! p = None → std_map_insert p a m = <[p := a]> m.
Proof. intros H. unfold std_map_insert. by rewrite H. Qed.

Lemma Inv_new ps pc : Inv (new_BufferManager ps pc).
Proof.
  constructor; simpl.
  - rewrite map_size_empty. lia.
  - apply NoDup_nil_2.
  - apply NoDup_nil_2.
  - by intros p ?%elem_of_nil.
  - intros p. rewrite lookup_empty. split.
    + by intros [?%elem_of_nil|?%elem_of_nil].
    + by intros [? ?].
  - intros p a. by rewrite lookup_empty.
Qed.

Lemma Inv_write_back_page v st : Inv st → Inv (write_back_page v st).
Proof.
  intros [H1 H2 H3 H4 H5 H6]. unfold write_back_page.
  destruct (frame_of st v) as [[a f]|]; by constructor.
Qed.

Lemma Inv_touched p e a f st :
  Inv st → bufferMapping st !! p = Some a → Inv (touched p e a f st).
Proof.
  intros [H1 H2 H3 H4 H5 H6] Hm.
  assert (Hq : p ∈ fifoQueue st ∨ p ∈ lruQueue st) by (apply H5; by rewrite Hm).
  unfold touched. destruct (decide (p ∈ lruQueue st)) as [Hin|Hin].
  - destruct (erase_find_spec _ _ H3 Hin) as [Hnd Hel].
    constructor; simpl; try done.
    + apply NoDup_snoc; [done|]. rewrite Hel. by intros [_ ?].
    + intros q Hq1. rewrite elem_of_app, Hel, list_elem_of_singleton.
      intros [[? ?]| ->]; by eapply H4.
    + intros q. rewrite <- H5, elem_of_app, Hel, list_elem_of_singleton.
      destruct (decide (q = p)) as [->|]; naive_solver.
    + intros q b Hb. rewrite length_insert. by eapply H6.
  - destruct Hq as [Hq|Hq]; [|done].
    destruct (erase_find_spec _ _ H2 Hq) as [Hnd Hel].
    constructor; simpl; try done.
    + by apply NoDup_snoc.
    + intros q. rewrite Hel, elem_of_app, list_elem_of_singleton.
      intros [Hq1 Hne] [?| ->]; [by eapply H4 | done].
    + intros q. rewrite <- H5, elem_of_app, Hel, list_elem_of_singleton.
      destruct (decide (q = p)) as [->|]; naive_solver.
    + intros q b Hb. rewrite length_insert. by eapply H6.
Qed.

Lemma Inv_released d a f st : Inv st → Inv (released d a f st).
Proof.
  intros [H1 H2 H3 H4 H5 H6]. unfold released.
  destruct (decide (pageId f ∈ lruQueue st)) as [Hin|Hin].
  - destruct (erase_find_spec _ _ H3 Hin) as [Hnd Hel].
    constructor; simpl; try done.
    + apply NoDup_snoc; [done|]. rewrite Hel. by intros [_ ?].
    + intros q Hq1. rewrite elem_of_app, Hel, list_elem_of_singleton.
      intros [[? ?]| ->]; by eapply H4.
    + intros q. rewrite <- H5, elem_of_app, Hel, list_elem_of_singleton.
      destruct (decide (q = pageId f)) as [->|]; naive_solver.
    + intros q b Hb. rewrite length_insert. by eapply H6.
  - constructor; simpl; try done.
    intros q b Hb. rewrite length_insert. by eapply H6.
Qed.

Lemma Inv_added p e st :
  Inv st →
  bufferMapping st !! p = None →
  N.of_nat (size (bufferMapping st)) ≠ pageCount st →
  Inv (added p e st).
Proof.
  intros [H1 H2 H3 H4 H5 H6] Hm Hs.
  assert (Hnf : p ∉ fifoQueue st).
  { intros Hp. destruct (proj1 (H5 p)) as [? ?]; [auto | congruence]. }
  assert (Hnl : p ∉ lruQueue st).
  { intros Hp. destruct (proj1 (H5 p)) as [? ?]; [auto | congruence]. }
  unfold added. rewrite std_map_insert_None by done.
  constructor; simpl; try done.
  - rewrite map_size_insert_None by done. lia.
  - by apply NoDup_snoc.
  - intros q. rewrite elem_of_app, list_elem_of_singleton.
    intros [?| ->]; [by apply H4 | done].
  - intros q. rewrite elem_of_app, list_elem_of_singleton, lookup_insert_is_Some, <- H5.
    destruct (decide (p = q)) as [->|]; naive_solver.
  - intros q b. rewrite length_app. simpl. rewrite lookup_insert.
    case_decide; [intros [= <-]; lia | intros ?%H6; lia].
Qed.

Lemma Inv_replaced p e b i v st :
  Inv st →
  bufferMapping st !! p = None →
  queue b st !! i = Some v →
  Inv (replaced p e b i v st).
Proof.
  intros [H1 H2 H3 H4 H5 H6] Hm Hv.
  assert (Hnf : p ∉ fifoQueue st).
  { intros Hp. destruct (proj1 (H5 p)) as [? ?]; [auto | congruence]. }
  assert (Hnl : p ∉ lruQueue st).
  { intros Hp. destruct (proj1 (H5 p)) as [? ?]; [auto | congruence]. }
  assert (Hvq : v ∈ queue b st) by (apply list_elem_of_lookup; eauto).
  assert (Hvm : is_Some (bufferMapping st !! v)).
  { apply H5. destruct b; auto. }
  assert (Hpv : p ≠ v) by (intros ->; rewrite Hm in Hvm; by destruct Hvm).
  assert (Hmd : delete v (bufferMapping st) !! p = None) by by rewrite lookup_delete_ne.
  unfold replaced. rewrite std_map_insert_None by done.
  assert (Hsz : size (<[p:=length (heap st)]> (delete v (bufferMapping st)))
                = size (bufferMapping st)).
  { rewrite map_size_insert_None by done. destruct Hvm as [? Hvm].
    rewrite map_size_delete_Some by eauto.
    assert (size (bufferMapping st) ≠ 0%nat); [|lia].
    apply map_size_ne_0_lookup_2 with v. eauto. }
  assert (Hlk : ∀ q, is_Some (<[p:=length (heap st)]> (delete v (bufferMapping st)) !! q)
                     ↔ q = p ∨ (q ≠ v ∧ is_Some (bufferMapping st !! q))).
  { intros q. rewrite lookup_insert_is_Some, lookup_delete_is_Some. naive_solver. }
  destruct b; simpl in Hv, Hvq.
  - destruct (erase_spec _ _ _ H2 Hv) as [Hnd Hel].
    constructor; fields.
    + rewrite Hsz. lia.
    + apply NoDup_snoc; [done|]. rewrite Hel. naive_solver.
    + done.
    + intros q. rewrite elem_of_app, Hel, list_elem_of_singleton.
      intros [[? ?]| ->]; [by apply H4 | done].
    + intros q. rewrite Hlk, <- H5, elem_of_app, Hel, list_elem_of_singleton.
      destruct (decide (q = v)) as [->|]; [|naive_solver].
      split; [|naive_solver]. intros [[[? ?]| ->]|?]; [done|done|].
      exfalso. by eapply H4.
    + intros q a. rewrite length_app. simpl. rewrite lookup_insert.
      case_decide; [intros [= <-]; lia|]. rewrite lookup_delete.
      case_decide; [done|]. intros ?%H6; lia.
  - destruct (erase_spec _ _ _ H3 Hv) as [Hnd Hel].
    constructor; fields.
    + rewrite Hsz. lia.
    + by apply NoDup_snoc.
    + done.
    + intros q. rewrite elem_of_app, Hel, list_elem_of_singleton.
      intros [?| ->]; [|naive_solver]. intros [? ?]. by eapply H4.
    + intros q. rewrite Hlk, <- H5, elem_of_app, Hel, list_elem_of_singleton.
      destruct (decide (q = v)) as [->|]; [|naive_solver].
      split; [|naive_solver]. intros [[?| ->]|[? ?]]; [|done|done].
      exfalso. by eapply H4.
    + intros q a. rewrite length_app. simpl. rewrite lookup_insert.
      case_decide; [intros [= <-]; lia|]. rewrite lookup_delete.
      case_decide; [done|]. intros ?%H6; lia.
Qed.

Lemma unfix_page_dangling a d st :
  heap st !! a = None → unfix_page a d st = (Undef, st).
Proof. intros H. unfold unfix_page, bind, decCounter, bind, load. by rewrite H. Qed.

Lemma Inv_fix_page p e st r st' :
  Inv st → fix_page p e st = (r, st') → Inv st'.
Proof.
  intros HI. destruct (bufferMapping st !! p) as [a|] eqn:Hm.
  - destruct (lookup_lt_is_Some_2 (heap st) a) as [f Hf]; [by eapply inv_heap|].
    rewrite (fix_page_hit p e a f) by (try done; apply inv_queues; by rewrite ?Hm).
    intros [= <- <-]. by apply Inv_touched.
  - destruct (decide (N.of_nat (size (bufferMapping st)) = pageCount st)) as [Hs|Hs].
    + rewrite fix_page_full by done.
      destruct (list_find _ (scanned true st)) as [[i v]|] eqn:E1.
      { intros [= <- <-]. apply list_find_Some in E1 as (Hv & _ & _).
        apply scanned_lookup in Hv.
        apply Inv_replaced; [by apply Inv_write_back_page | |].
        - unfold write_back_page. by destruct (frame_of st v) as [[? ?]|].
        - by rewrite queue_write_back_page. }
      destruct (list_find _ (scanned false st)) as [[i v]|] eqn:E2.
      { intros [= <- <-]. apply list_find_Some in E2 as (Hv & _ & _).
        apply scanned_lookup in Hv.
        apply Inv_replaced; [by apply Inv_write_back_page | |].
        - unfold write_back_page. by destruct (frame_of st v) as [[? ?]|].
        - by rewrite queue_write_back_page. }
      by intros [= <- <-].
    + rewrite fix_page_add by done. intros [= <- <-]. by apply Inv_added.
Qed.

(** On a state that satisfies the invariant [fix_page] returns a frame or
    throws [buffer_full_error]; nothing else can happen. *)
Lemma fix_page_outcome p e st :
  Inv st →
  (∃ a st', fix_page p e st = (Val a, st'))
  ∨ fix_page p e st = (Throw buffer_full_error, st).
Proof.
  intros HI. destruct (bufferMapping st !! p) as [a|] eqn:Hm.
  - destruct (lookup_lt_is_Some_2 (heap st) a) as [f Hf]; [by eapply inv_heap|].
    left. eexists _, _. apply (fix_page_hit p e a f); try done.
    apply inv_queues; by rewrite ?Hm.
  - destruct (decide (N.of_nat (size (bufferMapping st)) = pageCount st)) as [Hs|Hs].
    + rewrite fix_page_full by done.
      destruct (list_find _ (scanned true st)) as [[i v]|]; [left; eauto|].
      destruct (list_find _ (scanned false st)) as [[i v]|]; [left; eauto|].
      by right.
    + left. eexists _, _. by apply fix_page_add.
Qed.

Lemma Inv_step o st st' : Inv st → step o st = Some st' → Inv st'.
Proof.
  intros HI. destruct o as [p e|a d]; simpl.
  - destruct (fix_page p e st) as [r st1] eqn:E.
    pose proof (Inv_fix_page _ _ _ _ _ HI E).
    destruct r as [?|[]|]; by intros [= <-].
  - destruct (heap st !! a) as [f|] eqn:Hf.
    + rewrite (unfix_page_eq a d f) by done. intros [= <-]. by apply Inv_released.
    + by rewrite unfix_page_dangling.
Qed.

Lemma Inv_run ops st st' : Inv st → run ops st = Some st' → Inv st'.
Proof.
  revert st. induction ops as [|o ops IH]; intros st HI; simpl.
  - by intros [= <-].
  - destruct (step o st) as [st1|] eqn:E; [|done].
    apply IH. by eapply Inv_step.
Qed.

Lemma pageCount_write_back_page v st : pageCount (write_back_page v st) = pageCount st.
Proof. unfold write_back_page. by destruct (frame_of st v) as [[? ?]|]. Qed.

Lemma pageCount_fix_page p e st r st' :
  Inv st → fix_page p e st = (r, st') → pageCount st' = pageCount st.
Proof.
  intros HI. destruct (bufferMapping st !! p) as [a|] eqn:Hm.
  - destruct (lookup_lt_is_Some_2 (heap st) a) as [f Hf]; [by eapply inv_heap|].
    rewrite (fix_page_hit p e a f) by (try done; apply inv_queues; by rewrite ?Hm).
    by intros [= <- <-].
  - destruct (decide (N.of_nat (size (bufferMapping st)) = pageCount st)) as [Hs|Hs].
    + rewrite fix_page_full by done.
      destruct (list_find _ (scanned true st)) as [[i v]|].
      { intros [= <- <-]. apply pageCount_write_back_page. }
      destruct (list_find _ (scanned false st)) as [[i v]|].
      { intros [= <- <-]. apply pageCount_write_back_page. }
      by intros [= <- <-].
    + rewrite fix_page_add by done. by intros [= <- <-].
Qed.

Lemma pageCount_step o st st' :
  Inv st → step o st = Some st' → pageCount st' = pageCount st.
Proof.
  intros HI. destruct o as [p e|a d]; simpl.
  - destruct (fix_page p e st) as [r st1] eqn:E.
    pose proof (pageCount_fix_page _ _ _ _ _ HI E).
    destruct r as [?|[]|]; by intros [= <-].
  - destruct (heap st !! a) as [f|] eqn:Hf.
    + rewrite (unfix_page_eq a d f) by done. by intros [= <-].
    + by rewrite unfix_page_dangling.
Qed.

Lemma pageCount_run ops st st' :
  Inv st → run ops st = Some st' → pageCount st' = pageCount st.
Proof.
  revert st. induction ops as [|o ops IH]; intros st HI; simpl.
  - by intros [= <-].
  - destruct (step o st) as [st1|] eqn:E; [|done].
    intros H. rewrite (IH st1) by (try done; by eapply Inv_step).
    by eapply pageCount_step.
Qed.

(** * The claims *)

(** C1.  After any finite sequence of [fix_page] and [unfix_page] calls on a
    newly constructed manager, the page table holds at most [page_count]
    entries, no page id is in both queues, every id in a queue is a key of
    the page table, and every key of the page table is in exactly one of the
    two queues (once, as neither queue repeats an id). *)
Theorem pool_invariant_after_any_sequence ops page_size page_count st :
  run ops (new_BufferManager page_size page_count) = Some st →
  (N.of_nat (size (bufferMapping st)) ≤ page_count)%N
  ∧ (∀ p, ¬ (p ∈ fifoQueue st ∧ p ∈ lruQueue st))
  ∧ (∀ p, p ∈ fifoQueue st ∨ p ∈ lruQueue st → p ∈ dom (bufferMapping st))
  ∧ (∀ p, p ∈ dom (bufferMapping st) →
          (p ∈ fifoQueue st ∧ p ∉ lruQueue st) ∨ (p ∈ lruQueue st ∧ p ∉ fifoQueue st))
  ∧ NoDup (fifoQueue st) ∧ NoDup (lruQueue st).
Proof.
  intros Hrun.
  assert (Hpc : pageCount st = page_count).
  { by rewrite (pageCount_run _ _ _ (Inv_new page_size page_count) Hrun). }
  pose proof (Inv_run _ _ _ (Inv_new page_size page_count) Hrun) as [H1 H2 H3 H4 H5 H6].
  rewrite <- Hpc. repeat split; try done.
  - intros p [? ?]. by eapply H4.
  - intros p Hp. apply elem_of_dom. by apply H5.
  - intros p Hp%elem_of_dom. apply H5 in Hp as [Hp|Hp].
    + left. split; [done|]. by apply H4.
    + right. split; [done|]. intros ?. by eapply H4.
Qed.

Lemma pool_invariant_witness :
  let ops := [Fix 1 false; Unfix 0 false; Fix 2 true; Fix 1 false; Fix 3 false;
              Unfix 1 true; Fix 4 false; Unfix 0 false; Fix 5 false] in
  let st := after ops 4 3 in
  run ops (new_BufferManager 4 3) = Some st
  ∧ fifoQueue st = [3; 4; 5]%N ∧ lruQueue st = []
  ∧ (N.of_nat (size (bufferMapping st)) ≤ 3)%N
  ∧ (∀ p, ¬ (p ∈ fifoQueue st ∧ p ∈ lruQueue st)).
Proof.
  intros ops st.
  assert (Hrun : run ops (new_BufferManager 4 3) = Some st) by (vm_compute; reflexivity).
  assert (Hf : fifoQueue st = [3; 4; 5]%N) by (vm_compute; reflexivity).
  assert (Hl : lruQueue st = []) by (vm_compute; reflexivity).
  clearbody st. clearbody ops.
  destruct (pool_invariant_after_any_sequence ops 4 3 st Hrun) as (H1 & H2 & _).
  auto.
Defined.

Lemma Inv_after ops page_size page_count : Inv (after ops page_size page_count).
Proof.
  unfold after.
  destruct (run ops (new_BufferManager page_size page_count)) as [st|] eqn:E; simpl.
  - eapply Inv_run; [apply Inv_new | done].
  - apply Inv_new.
Qed.

Lemma bufferMapping_replaced p e b i v st :
  bufferMapping st !! p = None →
  bufferMapping (replaced p e b i v (write_back_page v st))
  = <[p := length (heap st)]> (delete v (bufferMapping st)).
Proof.
  intros Hm. unfold replaced, write_back_page.
  destruct (frame_of st v) as [[a f]|]; fields;
    (rewrite std_map_insert_None; [done|]);
    (destruct (decide (p = v)) as [->|];
     [by rewrite lookup_delete_eq | by rewrite lookup_delete_ne]).
Qed.

(** C2.  With the page table full and [p] not resident, [fix_page] takes as
    victim the first entry of the FIFO queue whose frame has pin count zero;
    when the FIFO queue has none, the first such entry of the LRU queue; when
    neither queue has one, no victim is returned and [fix_page] throws
    [buffer_full_error].  The index [getPageIndexToRemove] returns is that of
    the victim, whose pin count is zero at that moment. *)
Theorem victim_selection p e st :
  Inv st →
  (pageCount st < 2 ^ 31)%N →
  bufferMapping st !! p = None →
  N.of_nat (size (bufferMapping st)) = pageCount st →
  (∃ i v,
      fifoQueue st !! i = Some v
      ∧ pin_count st v = Some 0
      ∧ (∀ j w, (j < i)%nat → fifoQueue st !! j = Some w → pin_count st w ≠ Some 0)
      ∧ (getPageIndexToRemove true st).1 = Val (Z.of_nat i)
      ∧ ∃ st', fix_page p e st = (Val (length (heap st)), st')
               ∧ bufferMapping st' = <[p := length (heap st)]> (delete v (bufferMapping st))
               ∧ fifoQueue st' = delete i (fifoQueue st) ++ [p]
               ∧ lruQueue st' = lruQueue st)
  ∨ ((∀ w, w ∈ fifoQueue st → pin_count st w ≠ Some 0)
     ∧ getPageIndexToRemove true st = (Val (-1), st)
     ∧ ∃ i v,
         lruQueue st !! i = Some v
         ∧ pin_count st v = Some 0
         ∧ (∀ j w, (j < i)%nat → lruQueue st !! j = Some w → pin_count st w ≠ Some 0)
         ∧ (getPageIndexToRemove false st).1 = Val (Z.of_nat i)
         ∧ ∃ st', fix_page p e st = (Val (length (heap st)), st')
                  ∧ bufferMapping st' = <[p := length (heap st)]> (delete v (bufferMapping st))
                  ∧ fifoQueue st' = fifoQueue st ++ [p]
                  ∧ lruQueue st' = delete i (lruQueue st))
  ∨ ((∀ w, w ∈ fifoQueue st ∨ w ∈ lruQueue st → pin_count st w ≠ Some 0)
     ∧ getPageIndexToRemove true st = (Val (-1), st)
     ∧ getPageIndexToRemove false st = (Val (-1), st)
     ∧ fix_page p e st = (Throw buffer_full_error, st)).
Proof.
  intros HI Hpc Hm Hs.
  rewrite fix_page_full, !getPageIndexToRemove_eq, !scanned_all by done.
  unfold queue.
  destruct (list_find (unpinned st) (fifoQueue st)) as [[i v]|] eqn:E1.
  { left. apply list_find_Some in E1 as (Hv & Hu & Hfirst).
    exists i, v. repeat split; try done.
    - intros j w Hj Hw. by apply (Hfirst j w).
    - eexists. split; [done|]. split; [by apply bufferMapping_replaced|].
      unfold replaced, write_back_page. by destruct (frame_of st v) as [[? ?]|]. }
  apply list_find_None in E1. rewrite Forall_forall in E1.
  destruct (list_find (unpinned st) (lruQueue st)) as [[i v]|] eqn:E2.
  { right; left. apply list_find_Some in E2 as (Hv & Hu & Hfirst).
    split; [exact E1|]. split; [done|].
    exists i, v. repeat split; try done.
    - intros j w Hj Hw. by apply (Hfirst j w).
    - eexists. split; [done|]. split; [by apply bufferMapping_replaced|].
      unfold replaced, write_back_page. by destruct (frame_of st v) as [[? ?]|]. }
  apply list_find_None in E2. rewrite Forall_forall in E2.
  right; right. repeat split; try done.
  intros w [Hw|Hw]; [by apply E1 | by apply E2].
Qed.

Lemma victim_selection_witness :
  let st := after [Fix 1 false; Fix 2 false; Fix 3 false; Unfix 1 false; Unfix 2 false] 4 3 in
  fifoQueue st = [1; 2; 3]%N
  ∧ pin_count st 1 = Some 1 ∧ pin_count st 2 = Some 0 ∧ pin_count st 3 = Some 0
  ∧ ∃ st', fix_page 9 false st = (Val 3%nat, st') ∧ fifoQueue st' = [1; 3; 9]%N.
Proof.
  intros st.
  assert (HI : Inv st) by apply Inv_after.
  assert (Hpc : (pageCount st < 2 ^ 31)%N) by (vm_compute; reflexivity).
  assert (Hm : bufferMapping st !! 9%N = None) by (vm_compute; reflexivity).
  assert (Hs : N.of_nat (size (bufferMapping st)) = pageCount st) by (vm_compute; reflexivity).
  assert (Hq : fifoQueue st = [1; 2; 3]%N) by (vm_compute; reflexivity).
  assert (Hp1 : pin_count st 1 = Some 1) by (vm_compute; reflexivity).
  assert (Hp2 : pin_count st 2 = Some 0) by (vm_compute; reflexivity).
  assert (Hp3 : pin_count st 3 = Some 0) by (vm_compute; reflexivity).
  assert (Hlen : length (heap st) = 3%nat) by (vm_compute; reflexivity).
  clearbody st.
  do 4 (split; [assumption|]).
  destruct (victim_selection 9 false st HI Hpc Hm Hs)
    as [(i & v & Hv & Hu & Hfirst & _ & st' & Hfix & _ & Hq' & _)
       |[(Hall & _)|(Hall & _)]].
  - exists st'. rewrite Hlen in Hfix. split; [exact Hfix|]. rewrite Hq', Hq.
    destruct i as [|[|i]].
    + rewrite Hq in Hv. injection Hv as <-. congruence.
    + reflexivity.
    + exfalso. apply (Hfirst 1%nat 2%N); [lia | by rewrite Hq | exact Hp2].
  - exfalso. apply (Hall 2%N); [|exact Hp2]. rewrite Hq. set_solver.
  - exfalso. apply (Hall 2%N); [|exact Hp2]. left. rewrite Hq. set_solver.
Defined.

(** C6.  When the page table holds [page_count] entries and every resident
    frame is pinned, [fix_page] on a page that is not resident throws
    [buffer_full_error] and leaves the manager as it was: page table, both
    queues, every frame (pin count, dirty flag, bytes), the files and the log
    of frame calls are those of the state before the call. *)
Theorem buffer_full_leaves_state p e st :
  Inv st →
  bufferMapping st !! p = None →
  N.of_nat (size (bufferMapping st)) = pageCount st →
  map_Forall (λ q _, pinned st q) (bufferMapping st) →
  fix_page p e st = (Throw buffer_full_error, st).
Proof.
  intros HI Hm Hs Hpin. rewrite fix_page_full by done.
  assert (Hnone : ∀ b, list_find (unpinned st) (scanned b st) = None).
  { intros b. apply list_find_None, Forall_forall. intros w Hw.
    assert (Hq : w ∈ queue b st).
    { apply list_elem_of_lookup in Hw as [j Hj].
      apply list_elem_of_lookup. exists j. by apply scanned_lookup. }
    assert (is_Some (bufferMapping st !! w)) as [a Ha].
    { apply inv_queues; [done|]. destruct b; auto. }
    specialize (Hpin w a Ha). unfold pinned in Hpin. unfold unpinned.
    destruct (pin_count st w) as [c|]; [|done]. intros [= ->]. lia. }
  by rewrite !Hnone.
Qed.

Lemma buffer_full_leaves_state_witness :
  let st := after [Fix 1 false; Fix 2 true; Fix 3 false] 16 3 in
  fifoQueue st = [1; 2; 3]%N
  ∧ fix_page 99 false st = (Throw buffer_full_error, st).
Proof.
  intros st.
  assert (HI : Inv st) by apply Inv_after.
  assert (Hq : fifoQueue st = [1; 2; 3]%N) by (vm_compute; reflexivity).
  assert (Hm : bufferMapping st !! 99%N = None) by (vm_compute; reflexivity).
  assert (Hs : N.of_nat (size (bufferMapping st)) = pageCount st) by (vm_compute; reflexivity).
  assert (Hp : bool_decide (map_Forall (λ q _, pinned st q) (bufferMapping st)) = true)
    by (vm_compute; reflexivity).
  clearbody st. apply bool_decide_eq_true_1 in Hp.
  split; [exact Hq|]. by apply buffer_full_leaves_state.
Defined.

(** C9.  On every miss that returns a frame (a free slot, a victim taken
    from the FIFO queue, a victim taken from the LRU queue) the page id just
    loaded is the last entry of the FIFO queue and is not in the LRU
    queue. *)
Theorem miss_appends_to_fifo p e st a st' :
  Inv st →
  bufferMapping st !! p = None →
  fix_page p e st = (Val a, st') →
  last (fifoQueue st') = Some p
  ∧ (p ∉ lruQueue st')
  ∧ ((N.of_nat (size (bufferMapping st)) ≠ pageCount st
      ∧ fifoQueue st' = fifoQueue st ++ [p] ∧ lruQueue st' = lruQueue st)
     ∨ (N.of_nat (size (bufferMapping st)) = pageCount st
        ∧ ∃ i v, fifoQueue st !! i = Some v ∧ bufferMapping st' !! v = None
                 ∧ fifoQueue st' = delete i (fifoQueue st) ++ [p]
                 ∧ lruQueue st' = lruQueue st)
     ∨ (N.of_nat (size (bufferMapping st)) = pageCount st
        ∧ ∃ i v, lruQueue st !! i = Some v ∧ bufferMapping st' !! v = None
                 ∧ fifoQueue st' = fifoQueue st ++ [p]
                 ∧ lruQueue st' = delete i (lruQueue st))).
Proof.
  intros HI Hm Hfix.
  assert (HI' : Inv st') by by eapply Inv_fix_page.
  assert (Hcases : (N.of_nat (size (bufferMapping st)) ≠ pageCount st
      ∧ fifoQueue st' = fifoQueue st ++ [p] ∧ lruQueue st' = lruQueue st)
     ∨ (N.of_nat (size (bufferMapping st)) = pageCount st
        ∧ ∃ i v, fifoQueue st !! i = Some v ∧ bufferMapping st' !! v = None
                 ∧ fifoQueue st' = delete i (fifoQueue st) ++ [p]
                 ∧ lruQueue st' = lruQueue st)
     ∨ (N.of_nat (size (bufferMapping st)) = pageCount st
        ∧ ∃ i v, lruQueue st !! i = Some v ∧ bufferMapping st' !! v = None
                 ∧ fifoQueue st' = fifoQueue st ++ [p]
                 ∧ lruQueue st' = delete i (lruQueue st))).
  { destruct (decide (N.of_nat (size (bufferMapping st)) = pageCount st)) as [Hs|Hs].
    - right. rewrite fix_page_full in Hfix by done.
      assert (Hgone : ∀ b i v, queue b st !! i = Some v →
                bufferMapping (replaced p e b i v (write_back_page v st)) !! v = None).
      { intros b i v Hv. rewrite bufferMapping_replaced by done.
        assert (p ≠ v).
        { intros ->. assert (is_Some (bufferMapping st !! v)) as [? ?]; [|congruence].
          apply inv_queues; [done|]. apply list_elem_of_lookup_2 in Hv. destruct b; auto. }
        rewrite lookup_insert_ne by done. apply lookup_delete_eq. }
      destruct (list_find _ (scanned true st)) as [[i v]|] eqn:E1.
      { injection Hfix as <- <-. left. split; [done|].
        apply list_find_Some in E1 as (Hv%scanned_lookup & _ & _).
        exists i, v. split; [done|]. split; [by apply (Hgone true)|].
        unfold replaced, write_back_page. by destruct (frame_of st v) as [[? ?]|]. }
      destruct (list_find _ (scanned false st)) as [[i v]|] eqn:E2; [|done].
      injection Hfix as <- <-. right. split; [done|].
      apply list_find_Some in E2 as (Hv%scanned_lookup & _ & _).
      exists i, v. split; [done|]. split; [by apply (Hgone false)|].
      unfold replaced, write_back_page. by destruct (frame_of st v) as [[? ?]|].
    - left. rewrite fix_page_add in Hfix by done. by injection Hfix as <- <-. }
  assert (Hlast : last (fifoQueue st') = Some p).
  { destruct Hcases as [(_ & -> & _)|[(_ & i & v & _ & _ & -> & _)|(_ & i & v & _ & _ & -> & _)]];
      apply last_snoc. }
  split; [done|]. split; [|done].
  apply (inv_disjoint st' HI'). by apply last_Some_elem_of.
Qed.

Lemma miss_appends_to_fifo_witness :
  let st := after [Fix 1 false; Fix 2 false; Fix 1 false; Unfix 0 false; Unfix 0 false] 4 2 in
  (fifoQueue st = [2]%N ∧ lruQueue st = [1]%N
   ∧ pin_count st 1 = Some 0 ∧ pin_count st 2 = Some 1)
  ∧ ∃ st', (fix_page 7 true st = (Val 2%nat, st')
            ∧ fifoQueue st' = [2; 7]%N ∧ lruQueue st' = [])
           ∧ last (fifoQueue st') = Some 7%N ∧ 7%N ∉ lruQueue st'.
Proof.
  intros st.
  assert (HI : Inv st) by apply Inv_after.
  assert (Hf : fifoQueue st = [2]%N) by (vm_compute; reflexivity).
  assert (Hl : lruQueue st = [1]%N) by (vm_compute; reflexivity).
  assert (Hp1 : pin_count st 1 = Some 0) by (vm_compute; reflexivity).
  assert (Hp2 : pin_count st 2 = Some 1) by (vm_compute; reflexivity).
  assert (Hm : bufferMapping st !! 7%N = None) by (vm_compute; reflexivity).
  assert (Hfix : ∃ st', fix_page 7 true st = (Val 2%nat, st')
                        ∧ fifoQueue st' = [2; 7]%N ∧ lruQueue st' = []).
  { eexists. split; [vm_compute; reflexivity|]. split; reflexivity. }
  clearbody st. destruct Hfix as (st' & Hfix & Hf' & Hl').
  split; [done|]. exists st'. split; [done|].
  destruct (miss_appends_to_fifo 7 true st 2%nat st' HI Hm Hfix) as (Hlast & Hnl & _).
  done.
Defined.

Lemma wrap_int64_small z : - 2 ^ 63 ≤ z < 2 ^ 63 → wrap_int64 z = z.
Proof. intros H. unfold wrap_int64. rewrite Z.mod_small; lia. Qed.

Lemma wrap_int64_range z : - 2 ^ 63 ≤ wrap_int64 z < 2 ^ 63.
Proof. unfold wrap_int64. pose proof (Z.mod_pos_bound (z + 2 ^ 63) (2 ^ 64)). lia. Qed.

Lemma lru_stays_step p o st st' :
  Inv st → p ∈ lruQueue st → step o st = Some st' →
  is_Some (bufferMapping st' !! p) → p ∈ lruQueue st'.
Proof.
  intros HI Hp. destruct o as [q e|a d]; simpl.
  - destruct (bufferMapping st !! q) as [a|] eqn:Hm.
    + destruct (lookup_lt_is_Some_2 (heap st) a) as [f Hf]; [by eapply inv_heap|].
      rewrite (fix_page_hit q e a f) by (try done; apply inv_queues; by rewrite ?Hm).
      intros [= <-] _. unfold touched; fields. apply elem_of_app.
      destruct (decide (q = p)) as [->|Hne]; [right; by apply list_elem_of_singleton|].
      left. case_decide as Hq; [|done].
      apply (erase_find_spec _ _ (inv_lru_nodup st HI) Hq). auto.
    + destruct (decide (N.of_nat (size (bufferMapping st)) = pageCount st)) as [Hs|Hs].
      * rewrite fix_page_full by done.
        destruct (list_find _ (scanned true st)) as [[i v]|] eqn:E1.
        { intros [= <-] _. unfold replaced, write_back_page; fields.
          by destruct (frame_of st v) as [[? ?]|]. }
        destruct (list_find _ (scanned false st)) as [[i v]|] eqn:E2; [|by intros [= <-]].
        intros [= <-]. rewrite bufferMapping_replaced by done.
        apply list_find_Some in E2 as (Hv%scanned_lookup & _ & _). simpl in Hv.
        intros Hres.
        assert (p ≠ v).
        { intros ->. destruct Hres as [x Hx].
          assert (q ≠ v) by (intros ->; assert (is_Some (bufferMapping st !! v)) as [? ?];
                             [apply inv_queues; auto | congruence]).
          rewrite lookup_insert_ne in Hx by done.
          by rewrite lookup_delete_eq in Hx. }
        unfold replaced; fields.
        replace (lruQueue (write_back_page v st)) with (lruQueue st)
          by (unfold write_back_page; by destruct (frame_of st v) as [[? ?]|]).
        apply (erase_spec _ _ _ (inv_lru_nodup st HI) Hv). auto.
      * rewrite fix_page_add by done. by intros [= <-].
  - destruct (heap st !! a) as [f|] eqn:Hf.
    + rewrite (unfix_page_eq a d f) by done. intros [= <-] _.
      unfold released; fields. case_decide as Hq; [|done].
      apply elem_of_app.
      destruct (decide (pageId f = p)) as [->|Hne]; [right; by apply list_elem_of_singleton|].
      left. apply (erase_find_spec _ _ (inv_lru_nodup st HI) Hq). auto.
    + by rewrite unfix_page_dangling.
Qed.

Lemma lru_stays_run p ops st st' :
  Inv st → p ∈ lruQueue st → run ops st = Some st' →
  stays_resident p ops st → p ∈ lruQueue st'.
Proof.
  revert st. induction ops as [|o ops IH]; intros st HI Hp; simpl.
  - by intros [= <-].
  - destruct (step o st) as [st1|] eqn:E; [|done].
    intros Hrun [Hres Hstay]. apply (IH st1); try done.
    + by eapply Inv_step.
    + by eapply lru_stays_step.
Qed.

(** C5.  A [fix_page] on a resident page increments the pin count of its
    frame and moves the page id: from the FIFO queue, where it is erased, to
    the tail of the LRU queue; or, when it is in the LRU queue already, from
    its place there to the tail.  Afterwards the id is in the LRU queue and
    not in the FIFO queue, and it stays so through every later call for as
    long as the page stays resident. *)
Theorem fix_hit_transition p e a f st :
  Inv st →
  bufferMapping st !! p = Some a →
  heap st !! a = Some f →
  ∃ st' f',
    fix_page p e st = (Val a, st')
    ∧ heap st' !! a = Some f'
    ∧ counter f' = wrap_int64 (counter f + 1)
    ∧ (- 2 ^ 63 ≤ counter f < 2 ^ 63 - 1 → counter f' = counter f + 1)
    ∧ (p ∈ fifoQueue st →
       fifoQueue st' = delete (std_find p (fifoQueue st)) (fifoQueue st)
       ∧ lruQueue st' = lruQueue st ++ [p])
    ∧ (p ∈ lruQueue st →
       fifoQueue st' = fifoQueue st
       ∧ lruQueue st' = delete (std_find p (lruQueue st)) (lruQueue st) ++ [p])
    ∧ last (lruQueue st') = Some p
    ∧ (p ∉ fifoQueue st')
    ∧ (∀ ops st2, run ops st' = Some st2 → stays_resident p ops st' →
                  p ∈ lruQueue st2 ∧ p ∉ fifoQueue st2).
Proof.
  intros HI Hm Hf.
  assert (Hq : p ∈ fifoQueue st ∨ p ∈ lruQueue st) by (apply inv_queues; by rewrite ?Hm).
  assert (Hl : (a < length (heap st))%nat) by by eapply lookup_lt_Some.
  assert (HI' : Inv (touched p e a f st)) by by apply Inv_touched.
  assert (Hlast : last (lruQueue (touched p e a f st)) = Some p) by apply last_snoc.
  assert (Hin : p ∈ lruQueue (touched p e a f st)) by by apply last_Some_elem_of.
  exists (touched p e a f st), (set_mIsExclusive e (set_counter (wrap_int64 (counter f + 1)) f)).
  split; [by apply fix_page_hit|].
  split; [unfold touched; fields; by apply list_lookup_insert_eq|].
  split; [done|].
  split; [intros Hc; simpl; apply wrap_int64_small; lia|].
  split.
  { intros Hp. unfold touched; fields.
    rewrite !decide_False by (intros ?; by eapply (inv_disjoint st HI)). done. }
  split.
  { intros Hp. unfold touched; fields. by rewrite !decide_True by done. }
  split; [done|].
  split; [intros Hpf; by apply (inv_disjoint _ HI' p Hpf)|].
  intros ops st2 Hrun Hstay.
  assert (Inv st2) by by eapply Inv_run.
  assert (p ∈ lruQueue st2) by apply (lru_stays_run p ops _ st2 HI' Hin Hrun Hstay).
  split; [done|]. intros Hpf. by apply (inv_disjoint st2 ltac:(done) p Hpf).
Qed.

Lemma fix_hit_transition_witness :
  let st := after [Fix 1 false; Fix 2 false; Unfix 0 false] 4 3 in
  (fifoQueue st = [1; 2]%N ∧ lruQueue st = [] ∧ pin_count st 1 = Some 0)
  ∧ ∃ st', fix_page 1 true st = (Val 0%nat, st')
           ∧ fifoQueue st' = [2]%N ∧ lruQueue st' = [1]%N
           ∧ counter <$> heap st' !! 0%nat = Some 1.
Proof.
  intros st.
  assert (HI : Inv st) by apply Inv_after.
  assert (Hq : fifoQueue st = [1; 2]%N) by (vm_compute; reflexivity).
  assert (Hl : lruQueue st = []) by (vm_compute; reflexivity).
  assert (Hp : pin_count st 1 = Some 0) by (vm_compute; reflexivity).
  assert (Hm : bufferMapping st !! 1%N = Some 0%nat) by (vm_compute; reflexivity).
  assert (Hf : ∃ f, heap st !! 0%nat = Some f ∧ counter f = 0).
  { eexists. split; [vm_compute; reflexivity | reflexivity]. }
  clearbody st. destruct Hf as (f & Hf & Hc).
  split; [done|].
  destruct (fix_hit_transition 1 true 0%nat f st HI Hm Hf)
    as (st' & f' & Hfix & Hf' & _ & Hinc & Hfifo & _).
  exists st'. split; [exact Hfix|].
  destruct Hfifo as [-> ->]; [rewrite Hq; set_solver|].
  rewrite Hq, Hl, Hf'. simpl. rewrite Hinc by (rewrite Hc; lia). rewrite Hc. done.
Defined.

(** C10.  A [fix_page] on a resident page makes no call of [readDisk] or
    [writeDisk] and leaves the files as they are; the only frame call it
    makes is [lockPage].  The bytes, the dirty flag, the page id and the size
    of the frame are unchanged, as are all other frames and the page table;
    what changes is the pin count of the frame, the lock mode it records, and
    the position of the page id in the queues. *)
Theorem fix_hit_frame_effect p e a f st :
  Inv st →
  bufferMapping st !! p = Some a →
  heap st !! a = Some f →
  ∃ st' f',
    fix_page p e st = (Val a, st')
    ∧ disk st' = disk st
    ∧ trace st' = trace st ++ [CallLockPage a e]
    ∧ writes (trace st') = writes (trace st)
    ∧ bufferMapping st' = bufferMapping st
    ∧ bm_pageSize st' = bm_pageSize st
    ∧ pageCount st' = pageCount st
    ∧ heap st' = <[a := f']> (heap st)
    ∧ f' = set_mIsExclusive e (set_counter (wrap_int64 (counter f + 1)) f)
    ∧ data f' = data f
    ∧ mIsDirty f' = mIsDirty f
    ∧ pageId f' = pageId f
    ∧ pageSize f' = pageSize f
    ∧ (∀ b, b ≠ a → heap st' !! b = heap st !! b)
    ∧ (∀ q, q ≠ p → (q ∈ fifoQueue st' ↔ q ∈ fifoQueue st)
                    ∧ (q ∈ lruQueue st' ↔ q ∈ lruQueue st)).
Proof.
  intros HI Hm Hf.
  assert (Hq : p ∈ fifoQueue st ∨ p ∈ lruQueue st) by (apply inv_queues; by rewrite ?Hm).
  exists (touched p e a f st), (set_mIsExclusive e (set_counter (wrap_int64 (counter f + 1)) f)).
  split; [by apply fix_page_hit|].
  unfold touched; fields. repeat (split; [done|]).
  split.
  { unfold writes. rewrite omap_app. simpl. by rewrite app_nil_r. }
  repeat (split; [done|]).
  split; [intros b Hb; by apply list_lookup_insert_ne|].
  intros q Hne. case_decide as Hl.
  - destruct (erase_find_spec _ _ (inv_lru_nodup st HI) Hl) as [_ Hel].
    split; [done|]. rewrite elem_of_app, Hel, list_elem_of_singleton. naive_solver.
  - destruct Hq as [Hq|Hq]; [|done].
    destruct (erase_find_spec _ _ (inv_fifo_nodup st HI) Hq) as [_ Hel].
    rewrite elem_of_app, Hel, list_elem_of_singleton. naive_solver.
Qed.

Lemma fix_hit_frame_effect_witness :
  let st := after [Fix 5 true; Unfix 0 true; Fix 6 false] 4 2 in
  (bufferMapping st !! 5%N = Some 0%nat ∧ mIsDirty <$> heap st !! 0%nat = Some true)
  ∧ ∃ st', fix_page 5 false st = (Val 0%nat, st')
           ∧ disk st' = disk st
           ∧ trace st' = trace st ++ [CallLockPage 0 false]
           ∧ mIsDirty <$> heap st' !! 0%nat = Some true.
Proof.
  intros st.
  assert (HI : Inv st) by apply Inv_after.
  assert (Hm : bufferMapping st !! 5%N = Some 0%nat) by (vm_compute; reflexivity).
  assert (Hf : ∃ f, heap st !! 0%nat = Some f ∧ mIsDirty f = true).
  { eexists. split; [vm_compute; reflexivity | reflexivity]. }
  clearbody st. destruct Hf as (f & Hf & Hd).
  split; [by rewrite Hf; simpl; rewrite Hd|].
  destruct (fix_hit_frame_effect 5 false 0%nat f st HI Hm Hf)
    as (st' & f' & Hfix & Hdisk & Htrace & _ & _ & _ & _ & Hheap & _ & _ & Hdirty & _).
  exists st'. split; [exact Hfix|]. split; [exact Hdisk|]. split; [exact Htrace|].
  rewrite Hheap, list_lookup_insert_eq by (by eapply lookup_lt_Some).
  simpl. by rewrite Hdirty, Hd.
Defined.

(** * What the log holds after a call *)

Lemma fresh_frame_write_back_page p e v st :
  fresh_frame p e (write_back_page v st) = fresh_frame p e st.
Proof. unfold write_back_page. by destruct (frame_of st v) as [[? ?]|]. Qed.

(** The frame calls of a miss that returns: the write-back of the victim,
    when there is one, then [lockPage] and [readDisk] on the new frame. *)
Lemma fix_page_miss_trace p e st a st' :
  Inv st →
  bufferMapping st !! p = None →
  fix_page p e st = (Val a, st') →
  a = length (heap st)
  ∧ length (heap st') = S (length (heap st))
  ∧ ((N.of_nat (size (bufferMapping st)) ≠ pageCount st
      ∧ trace st' = trace st ++ [CallLockPage a e; CallReadDisk a (fresh_frame p e st)])
     ∨ (∃ v b g,
          frame_of st v = Some (b, g) ∧ counter g = 0
          ∧ bufferMapping st' !! v = None
          ∧ trace st' = trace st ++ [CallWriteDisk b g; CallLockPage a e;
                                     CallReadDisk a (fresh_frame p e st)])).
Proof.
  intros HI Hm Hfix.
  destruct (decide (N.of_nat (size (bufferMapping st)) = pageCount st)) as [Hs|Hs].
  - rewrite fix_page_full in Hfix by done.
    assert (Hev : ∀ b i v, list_find (unpinned st) (scanned b st) = Some (i, v) →
      ∃ c g, frame_of st v = Some (c, g) ∧ counter g = 0
        ∧ bufferMapping (replaced p e b i v (write_back_page v st)) !! v = None
        ∧ trace (replaced p e b i v (write_back_page v st))
          = trace st ++ [CallWriteDisk c g; CallLockPage (length (heap st)) e;
                         CallReadDisk (length (heap st)) (fresh_frame p e st)]).
    { intros b i v (Hv%scanned_lookup & Hu & _)%list_find_Some.
      apply pin_count_Some in Hu as (c & g & Hg & Hc). exists c, g.
      split; [done|]. split; [done|].
      assert (p ≠ v).
      { intros ->. apply frame_of_Some in Hg as [? ?]. congruence. }
      split.
      - rewrite bufferMapping_replaced by done.
        rewrite lookup_insert_ne by done. apply lookup_delete_eq.
      - unfold replaced; fields. rewrite fresh_frame_write_back_page.
        unfold write_back_page. rewrite Hg. simpl. by rewrite <- app_assoc. }
    destruct (list_find _ (scanned true st)) as [[i v]|] eqn:E1.
    { injection Hfix as <- <-. split; [done|].
      split; [unfold replaced; fields; rewrite length_app, heap_write_back_page; simpl; lia|].
      right. destruct (Hev true i v E1) as (c & g & ?). exists v, c, g. done. }
    destruct (list_find _ (scanned false st)) as [[i v]|] eqn:E2; [|done].
    injection Hfix as <- <-. split; [done|].
    split; [unfold replaced; fields; rewrite length_app, heap_write_back_page; simpl; lia|].
    right. destruct (Hev false i v E2) as (c & g & ?). exists v, c, g. done.
  - rewrite fix_page_add in Hfix by done. injection Hfix as <- <-.
    split; [done|].
    split; [unfold added; fields; rewrite length_app; simpl; lia|].
    left. done.
Qed.

(** * Equations of the methods with the frame locks *)

Lemma bindL_Returns {A B} (m : ML A) (k : A → ML B) s a s' :
  m s = (Returns a, s') → bindL m k s = k a s'.
Proof. unfold bindL. by intros ->. Qed.

Lemma bindL_lift {A B} (m : M A) (k : A → ML B) st ms a st' :
  m st = (Val a, st') → bindL (lift m) k (st, ms) = k a (st', ms).
Proof. intros H. unfold bindL, lift. cbn [fst snd]. by rewrite H. Qed.

Lemma bindL_get {B} (k : BufferManager → ML B) st ms :
  bindL (lift get) k (st, ms) = k st (st, ms).
Proof. done. Qed.

Lemma bindL_modify {B} g (k : unit → ML B) st ms :
  bindL (lift (modify g)) k (st, ms) = k tt (g st, ms).
Proof. done. Qed.

Lemma lift_Val {A} (m : M A) st ms a st' :
  m st = (Val a, st') → lift m (st, ms) = (Returns a, (st', ms)).
Proof. intros H. unfold lift. cbn [fst snd]. by rewrite H. Qed.

Lemma new_mx_eq f st ms :
  new_mx f (st, ms)
  = (Returns (length (heap st)), (set_heap (heap st ++ [f]) st, ms ++ [Some unowned])).
Proof. done. Qed.

Lemma mutex_of_Some ms a m : mutex_of ms a = Some m ↔ ms !! a = Some (Some m).
Proof.
  unfold mutex_of. destruct (ms !! a) as [[m'|]|]; simpl; split; congruence.
Qed.

Lemma mutex_of_None ms a :
  mutex_of ms a = None ↔ ms !! a = None ∨ ms !! a = Some None.
Proof.
  unfold mutex_of. destruct (ms !! a) as [[m'|]|]; simpl; split; try tauto; try congruence.
  intros [?|?]; congruence.
Qed.

Lemma acquire_eq a e st ms :
  acquire a e (st, ms)
  = match mutex_of ms a with
    | Some m =>
        match locked e m with
        | Some m' => (Returns tt, (st, <[a := Some m']> ms))
        | None => (Waits a, (st, ms))
        end
    | None => (Undefined, (st, ms))
    end.
Proof.
  unfold acquire, mutex_of, locked. cbn [fst snd].
  by destruct (ms !! a) as [[m|]|].
Qed.

Lemma release_eq a e st ms :
  release a e (st, ms)
  = match mutex_of ms a ≫= unlocked e with
    | Some m' => (Returns tt, (st, <[a := Some m']> ms))
    | None => (Undefined, (st, ms))
    end.
Proof.
  unfold release, mutex_of, unlocked. cbn [fst snd].
  destruct (ms !! a) as [[m|]|]; simpl; [|done..].
  by destruct (if e then mutex_unlock m else mutex_unlock_shared m).
Qed.

Lemma lockPage_mx_eq a e f st ms :
  heap st !! a = Some f →
  lockPage_mx a e (st, ms)
  = match mutex_of ms a with
    | Some m =>
        match locked e m with
        | Some m' =>
            (Returns tt,
             (set_heap (<[a := set_mIsExclusive e f]> (heap st))
                (set_trace (trace st ++ [CallLockPage a e]) st),
              <[a := Some m']> ms))
        | None => (Waits a, (st, ms))
        end
    | None => (Undefined, (st, ms))
    end.
Proof.
  intros Hf. unfold lockPage_mx, bindL. rewrite acquire_eq.
  destruct (mutex_of ms a) as [m|]; [|done].
  destruct (locked e m) as [m'|]; [|done].
  by apply lift_Val, lockPage_eq.
Qed.

Lemma locked_unowned e : locked e unowned = Some (first_lock e).
Proof. by destruct e. Qed.

Lemma lookup_new_mutex (ms : list (option shared_mutex)) m :
  mutex_of (ms ++ [Some m]) (length ms) = Some m.
Proof. apply mutex_of_Some. by rewrite list_lookup_middle. Qed.

Lemma insert_new_mutex (ms : list (option shared_mutex)) m m' :
  <[length ms := m']> (ms ++ [m]) = ms ++ [m'].
Proof. rewrite insert_app_r_alt by lia. by rewrite Nat.sub_diag. Qed.

(** [lockPage] on the frame just allocated returns at once. *)
Lemma lockPage_mx_new e f st ms :
  heap st !! length ms = Some f →
  lockPage_mx (length ms) e (st, ms ++ [Some unowned])
  = (Returns tt,
     (set_heap (<[length ms := set_mIsExclusive e f]> (heap st))
        (set_trace (trace st ++ [CallLockPage (length ms) e]) st),
      ms ++ [Some (first_lock e)])).
Proof.
  intros Hf. rewrite (lockPage_mx_eq _ _ f) by done.
  by rewrite lookup_new_mutex, locked_unowned, insert_new_mutex.
Qed.

Lemma addNewPage_mx_eq p e st ms :
  length ms = length (heap st) →
  addNewPage_mx p e (st, ms)
  = (Returns (length (heap st)), (added p e st, ms ++ [Some (first_lock e)])).
Proof.
  intros Hlen. unfold addNewPage_mx. rewrite bindL_get.
  erewrite bindL_Returns; [|apply new_mx_eq].
  erewrite bindL_lift; [|apply incCounter_eq; apply lookup_new_frame].
  rewrite !bindL_modify. rewrite <- Hlen.
  erewrite bindL_Returns;
    [|apply lockPage_mx_new; simpl; rewrite Hlen, insert_new_frame; apply lookup_new_frame].
  erewrite bindL_lift;
    [|apply readDisk_eq; simpl; rewrite Hlen, !insert_new_frame; apply lookup_new_frame].
  unfold retL. rewrite Hlen. f_equal. f_equal.
  unfold added, loaded_frame, fresh_frame. simpl.
  rewrite !insert_new_frame, <- app_assoc. reflexivity.
Qed.

Lemma removePage_mx_eq p i e b v st ms :
  length ms = length (heap st) →
  queue b st !! i = Some v →
  removePage_mx p (Z.of_nat i) e b (st, ms)
  = (Returns (length (heap st)), (replaced p e b i v st, ms ++ [Some (first_lock e)])).
Proof.
  intros Hlen Hv. assert (Hi : (i < length (queue b st))%nat) by by eapply lookup_lt_Some.
  unfold removePage_mx. rewrite bindL_get.
  erewrite bindL_Returns; [|apply new_mx_eq].
  erewrite bindL_lift; [|apply incCounter_eq; apply lookup_new_frame].
  rewrite Nat2Z.id.
  destruct b; simpl in Hv, Hi.
  - erewrite bindL_lift.
    2:{ unfold bind at 1. erewrite vector_index_eq by done.
        unfold bind at 1, modify at 1. unfold bind at 1, modify at 1.
        erewrite bind_Val; [| by apply vector_erase_eq].
        unfold modify at 1. reflexivity. }
    rewrite <- Hlen.
    erewrite bindL_Returns;
      [|apply lockPage_mx_new; simpl; rewrite Hlen, insert_new_frame; apply lookup_new_frame].
    erewrite bindL_lift;
      [|apply readDisk_eq; simpl; rewrite Hlen, !insert_new_frame; apply lookup_new_frame].
    unfold retL. rewrite Hlen. f_equal. f_equal.
    unfold replaced, loaded_frame, fresh_frame. simpl.
    rewrite !insert_new_frame, <- app_assoc. reflexivity.
  - erewrite bindL_lift.
    2:{ unfold bind at 1. erewrite vector_index_eq by done.
        unfold bind at 1, modify at 1. unfold bind at 1, modify at 1.
        erewrite bind_Val; [| by apply vector_erase_eq].
        unfold bind at 1, modify at 1. unfold modify at 1. reflexivity. }
    rewrite <- Hlen.
    erewrite bindL_Returns;
      [|apply lockPage_mx_new; simpl; rewrite Hlen, insert_new_frame; apply lookup_new_frame].
    erewrite bindL_lift;
      [|apply readDisk_eq; simpl; rewrite Hlen, !insert_new_frame; apply lookup_new_frame].
    unfold retL. rewrite Hlen. f_equal. f_equal.
    unfold replaced, loaded_frame, fresh_frame. simpl.
    rewrite !insert_new_frame, <- app_assoc. reflexivity.
Qed.

Lemma touched_at_lock p e a f st :
  (a < length (heap st))%nat →
  set_heap (<[a := set_mIsExclusive e (set_counter (wrap_int64 (counter f + 1)) f)]>
              (heap (at_lock p a f st)))
    (set_trace (trace (at_lock p a f st) ++ [CallLockPage a e]) (at_lock p a f st))
  = touched p e a f st.
Proof.
  intros Hl. unfold touched, at_lock, set_heap, set_trace. fields.
  by rewrite list_insert_insert_eq.
Qed.

Lemma updateExistingPage_mx_eq p e a f st ms :
  bufferMapping st !! p = Some a →
  heap st !! a = Some f →
  p ∈ fifoQueue st ∨ p ∈ lruQueue st →
  updateExistingPage_mx p e (st, ms)
  = match mutex_of ms a with
    | Some m =>
        match locked e m with
        | Some m' => (Returns a, (touched p e a f st, <[a := Some m']> ms))
        | None => (Waits a, (at_lock p a f st, ms))
        end
    | None => (Undefined, (at_lock p a f st, ms))
    end.
Proof.
  intros Hm Hf Hq.
  assert (Hl : (a < length (heap st))%nat) by by eapply lookup_lt_Some.
  unfold updateExistingPage_mx. rewrite bindL_get, Hm.
  erewrite bindL_lift; [| by apply incCounter_eq].
  erewrite (bindL_lift _ _ _ _ tt
              (set_heap (<[a := set_counter (wrap_int64 (counter f + 1)) f]> (heap st))
                 (if decide (p ∈ lruQueue st)
                  then set_lruQueue (delete (std_find p (lruQueue st)) (lruQueue st)) st
                  else set_fifoQueue (delete (std_find p (fifoQueue st)) (fifoQueue st)) st))).
  2:{ destruct (decide (p ∈ lruQueue st)) as [Hin|Hin].
      - rewrite decide_True by by apply std_find_elem.
        erewrite bind_Val; [| by apply vector_erase_eq, std_find_lt]. reflexivity.
      - rewrite decide_False by (rewrite std_find_not_elem; auto).
        destruct Hq as [Hq|Hq]; [|done].
        erewrite bind_Val; [| by apply vector_erase_eq, std_find_lt]. reflexivity. }
  rewrite bindL_modify.
  set (st1 := set_lruQueue _ _).
  assert (Hst1 : st1 = at_lock p a f st).
  { unfold st1, at_lock. destruct (decide (p ∈ lruQueue st)); reflexivity. }
  clearbody st1. subst st1.
  unfold bindL at 1.
  rewrite (lockPage_mx_eq a e (set_counter (wrap_int64 (counter f + 1)) f)).
  2:{ unfold at_lock; fields. by apply list_lookup_insert_eq. }
  destruct (mutex_of ms a) as [m|]; [|done].
  destruct (locked e m) as [m'|]; [|done].
  unfold retL. by rewrite touched_at_lock.
Qed.

Lemma fix_page_mx_hit p e a f st ms :
  bufferMapping st !! p = Some a →
  heap st !! a = Some f →
  p ∈ fifoQueue st ∨ p ∈ lruQueue st →
  fix_page_mx p e (st, ms)
  = match mutex_of ms a with
    | Some m =>
        match locked e m with
        | Some m' => (Returns a, (touched p e a f st, <[a := Some m']> ms))
        | None => (Waits a, (at_lock p a f st, ms))
        end
    | None => (Undefined, (at_lock p a f st, ms))
    end.
Proof.
  intros Hm Hf Hq. unfold fix_page_mx. rewrite bindL_get.
  rewrite bool_decide_eq_true_2 by by rewrite Hm.
  by apply updateExistingPage_mx_eq.
Qed.

(** A miss never waits: the lock it takes is the lock of the frame it has
    just allocated.  It ends as [fix_page] does. *)
Lemma fix_page_mx_miss p e st ms :
  Inv st →
  length ms = length (heap st) →
  bufferMapping st !! p = None →
  fix_page_mx p e (st, ms)
  = match fix_page p e st with
    | (Val a, st') => (Returns a, (st', ms ++ [Some (first_lock e)]))
    | (Throw x, st') => (Throws x, (st', ms))
    | (Undef, st') => (Undefined, (st', ms))
    end.
Proof.
  intros HI Hlen Hm.
  destruct (decide (N.of_nat (size (bufferMapping st)) = pageCount st)) as [Hs|Hs].
  - rewrite fix_page_full by done.
    unfold fix_page_mx. rewrite bindL_get.
    rewrite bool_decide_eq_false_2 by (rewrite Hm; by intros [? ?]).
    rewrite bool_decide_eq_true_2 by done. cbn [negb].
    unfold bindL at 1, lift at 1. cbn [fst snd].
    rewrite getPageIndexToRemove_eq by done.
    destruct (list_find (unpinned st) (scanned true st)) as [[i v]|] eqn:E1.
    + rewrite decide_True by lia.
      apply list_find_Some in E1 as (Hv & _ & _). apply scanned_lookup in Hv.
      rewrite (removePage_mx_eq p i e true v);
        [by rewrite heap_write_back_page | by rewrite heap_write_back_page |].
      by rewrite queue_write_back_page.
    + rewrite decide_False by lia.
      unfold bindL at 1, lift at 1. cbn [fst snd].
      rewrite getPageIndexToRemove_eq by done.
      destruct (list_find (unpinned st) (scanned false st)) as [[i v]|] eqn:E2.
      * rewrite decide_True by lia.
        apply list_find_Some in E2 as (Hv & _ & _). apply scanned_lookup in Hv.
        rewrite (removePage_mx_eq p i e false v);
          [by rewrite heap_write_back_page | by rewrite heap_write_back_page |].
        by rewrite queue_write_back_page.
      * by rewrite decide_False by lia.
  - rewrite fix_page_add by done.
    unfold fix_page_mx. rewrite bindL_get.
    rewrite bool_decide_eq_false_2 by (rewrite Hm; by intros [? ?]).
    rewrite bool_decide_eq_false_2 by done. cbn [negb].
    by apply addNewPage_mx_eq.
Qed.

Lemma released_at_release d a f st :
  (a < length (heap st))%nat →
  released d a f st
  = (if decide (pageId f ∈ lruQueue st)
     then set_lruQueue (delete (std_find (pageId f) (lruQueue st)) (lruQueue st) ++ [pageId f])
     else id) (at_release d a f st).
Proof.
  intros Hl. unfold released, at_release, unpinned_frame.
  by destruct (decide (pageId f ∈ lruQueue st)).
Qed.

Lemma unfix_page_mx_eq a d f st ms :
  heap st !! a = Some f →
  unfix_page_mx a d (st, ms)
  = match mutex_of ms a ≫= unlocked (mIsExclusive f) with
    | Some m' => (Returns tt, (released d a f st, <[a := Some m']> ms))
    | None => (Undefined, (at_release d a f st, ms))
    end.
Proof.
  intros Hf.
  assert (Hl : (a < length (heap st))%nat) by by eapply lookup_lt_Some.
  unfold unfix_page_mx.
  erewrite bindL_lift; [| by apply decCounter_eq].
  unfold unlockPage_mx.
  unfold bindL at 1. erewrite (bindL_lift (load a)).
  2:{ unfold load, set_heap; fields. rewrite list_lookup_insert_eq by done. reflexivity. }
  erewrite bindL_lift.
  2:{ apply unlockPage_eq. unfold set_heap; fields. by apply list_lookup_insert_eq. }
  rewrite release_eq. cbn [mIsExclusive set_counter].
  replace (set_trace _ _) with (at_release d a f st).
  2:{ unfold at_release, unpinned_frame, set_trace, set_heap; fields.
      by rewrite list_insert_insert_eq. }
  destruct (mutex_of ms a ≫= unlocked (mIsExclusive f)) as [m'|]; [|done].
  rewrite released_at_release by done.
  unfold lift. cbn [fst snd].
  unfold bind at 1, load. unfold at_release at 1, set_trace, set_heap; fields.
  rewrite list_lookup_insert_eq by done.
  unfold bind at 1, get. cbn [pageId unpinned_frame set_mIsDirty set_counter].
  destruct (decide (pageId f ∈ lruQueue st)) as [Hin|Hin].
  - rewrite decide_False by (unfold at_release, set_trace, set_heap; fields; by apply std_find_elem).
    erewrite bind_Val.
    2:{ apply vector_erase_eq. unfold at_release, set_trace, set_heap; fields.
        by apply std_find_lt. }
    reflexivity.
  - rewrite decide_True by (unfold at_release, set_trace, set_heap; fields; by apply std_find_not_elem).
    reflexivity.
Qed.

Lemma unfix_page_mx_dangling a d st ms :
  heap st !! a = None → unfix_page_mx a d (st, ms) = (Undefined, (st, ms)).
Proof.
  intros H. unfold unfix_page_mx, bindL, lift. cbn [fst snd].
  unfold decCounter, bind, load. by rewrite H.
Qed.

(** * Calls with the frame locks and calls without *)

Lemma unlocked_held e m : is_Some (unlocked e m) ↔ held e m = true.
Proof.
  unfold unlocked, held, mutex_unlock, mutex_unlock_shared.
  destruct e, m as [[] [|n]]; simpl; split; intros H; try done; by inversion H.
Qed.

Lemma Alive_new ps pc : Alive (new_BufferManager_mx ps pc).
Proof. split; [done | apply Forall_nil_2]. Qed.

Lemma Alive_mutex_of st ms a :
  Alive (st, ms) → (a < length (heap st))%nat → is_Some (mutex_of ms a).
Proof.
  intros [Hlen Hall] Ha. cbn [fst snd] in *.
  destruct (lookup_lt_is_Some_2 ms a) as [m Hm]; [lia|].
  rewrite Forall_lookup in Hall. destruct (Hall a m Hm) as [x ->].
  exists x. by apply mutex_of_Some.
Qed.

Lemma Alive_insert st st' ms a m :
  Alive (st, ms) → length (heap st') = length (heap st) → Alive (st', <[a := Some m]> ms).
Proof.
  intros [Hlen Hall] Hh. cbn [fst snd] in *. split; cbn [fst snd].
  - rewrite length_insert. lia.
  - rewrite Forall_lookup in Hall |- *. intros i x.
    destruct (decide (i = a)) as [->|Hne].
    + intros Hx. apply list_lookup_insert_Some in Hx as [(_ & <- & _)|[? ?]]; [eauto|done].
    + rewrite list_lookup_insert_ne by done. apply Hall.
Qed.

Lemma Alive_grow st st' ms m :
  Alive (st, ms) → length (heap st') = S (length (heap st)) → Alive (st', ms ++ [Some m]).
Proof.
  intros [Hlen Hall] Hh. cbn [fst snd] in *. split; cbn [fst snd].
  - rewrite length_app. simpl. lia.
  - apply Forall_app. split; [done|]. apply Forall_singleton. eauto.
Qed.

Lemma length_heap_touched p e a f st : length (heap (touched p e a f st)) = length (heap st).
Proof. unfold touched; fields. apply length_insert. Qed.

Lemma length_heap_released d a f st : length (heap (released d a f st)) = length (heap st).
Proof. unfold released; fields. apply length_insert. Qed.

Lemma length_heap_fix_page_miss p e st a st' :
  Inv st → bufferMapping st !! p = None → fix_page p e st = (Val a, st') →
  length (heap st') = S (length (heap st)).
Proof. intros HI Hm Hfix. by destruct (fix_page_miss_trace p e st a st' HI Hm Hfix) as (_ & ? & _). Qed.

(** A call that returns, or throws [buffer_full_error], with the frame locks
    does to the manager what the call without them does. *)
Lemma step_mx_step o st ms s' :
  Inv st → Alive (st, ms) →
  step_mx o (st, ms) = Some s' →
  step o st = Some s'.1 ∧ Alive s'.
Proof.
  intros HI HA. destruct o as [p e|a d]; simpl.
  - destruct (bufferMapping st !! p) as [a|] eqn:Hm.
    + destruct (lookup_lt_is_Some_2 (heap st) a) as [f Hf]; [by eapply inv_heap|].
      assert (Hq : p ∈ fifoQueue st ∨ p ∈ lruQueue st) by (apply inv_queues; by rewrite ?Hm).
      rewrite (fix_page_mx_hit p e a f), (fix_page_hit p e a f) by done.
      destruct (mutex_of ms a) as [m|]; [|done].
      destruct (locked e m) as [m'|]; [|done].
      intros [= <-]. split; [done|].
      apply (Alive_insert st); [done | apply length_heap_touched].
    + rewrite fix_page_mx_miss by (try done; apply HA).
      destruct (fix_page p e st) as [[b|[]|] st1] eqn:E; try done.
      * intros [= <-]. split; [done|].
        apply (Alive_grow st); [done|]. by eapply length_heap_fix_page_miss.
      * intros [= <-]. split; [done|].
        destruct (fix_page_outcome p e st HI) as [(? & ? & E')|E']; rewrite E' in E; [done|].
        by injection E as <-.
  - destruct (heap st !! a) as [f|] eqn:Hf.
    + rewrite (unfix_page_mx_eq a d f), (unfix_page_eq a d f) by done.
      destruct (mutex_of ms a ≫= unlocked (mIsExclusive f)) as [m'|]; [|done].
      intros [= <-]. split; [done|].
      apply (Alive_insert st); [done | apply length_heap_released].
    + by rewrite unfix_page_mx_dangling.
Qed.

Lemma run_mx_run ops st ms s' :
  Inv st → Alive (st, ms) →
  run_mx ops (st, ms) = Some s' →
  run ops st = Some s'.1 ∧ Inv s'.1 ∧ Alive s'.
Proof.
  revert st ms. induction ops as [|o ops IH]; intros st ms HI HA; simpl.
  - by intros [= <-].
  - destruct (step_mx o (st, ms)) as [[st1 ms1]|] eqn:E; [|done].
    destruct (step_mx_step o st ms _ HI HA E) as [Hstep HA1]. cbn [fst] in Hstep.
    rewrite Hstep. apply IH; [by eapply Inv_step | done].
Qed.

Lemma after_mx_sound ops ps pc : Inv (after_mx ops ps pc).1 ∧ Alive (after_mx ops ps pc).
Proof.
  unfold after_mx, new_BufferManager_mx.
  destruct (run_mx ops (new_BufferManager ps pc, [])) as [s|] eqn:E; simpl.
  - apply run_mx_run in E as (_ & ? & ?); [done | apply Inv_new | apply Alive_new].
  - split; [apply Inv_new | apply Alive_new].
Qed.

(** * The destructor with the frame locks *)

Lemma all_unowned_lookup ms a :
  all_unowned ms = true → (a < length ms)%nat →
  ∃ m, ms !! a = Some (Some m) ∧ owned m = false.
Proof.
  unfold all_unowned. revert a. induction ms as [|x ms IH]; intros a; simpl; [lia|].
  intros [Hx Hall]%andb_true_iff Ha. destruct a as [|a].
  - destruct x as [m|]; [|done]. exists m. split; [done|]. by apply negb_true_iff.
  - apply IH; [done | lia].
Qed.

Lemma delete_frame_eq a m st ms :
  ms !! a = Some (Some m) → owned m = false →
  delete_frame a (st, ms) = (Returns tt, (st, <[a := None]> ms)).
Proof. intros Hm Ho. unfold delete_frame. cbn [fst snd]. by rewrite Hm, Ho. Qed.

Lemma flush_entries_mx_spec l :
  ∀ st ms,
  NoDup l.*2 →
  (∀ k a, (k, a) ∈ l →
     is_Some (heap st !! a) ∧ ∃ m, ms !! a = Some (Some m) ∧ owned m = false) →
  ∃ st' ms',
    flush_entries_mx l (st, ms) = (Returns tt, (st', ms'))
    ∧ flush_entries l st = (Val tt, st')
    ∧ length ms' = length ms
    ∧ (∀ a, a ∈ l.*2 → ms' !! a = Some None)
    ∧ (∀ a, a ∉ l.*2 → ms' !! a = ms !! a).
Proof.
  induction l as [|[k a] l IH]; intros st ms Hnd Hl.
  - exists st, ms. simpl. repeat split; try done. intros a Ha. by apply elem_of_nil in Ha.
  - rewrite fmap_cons in Hnd. apply NoDup_cons in Hnd as [Ha Hnd]. cbn [snd] in Ha.
    destruct (Hl k a) as ([f Hf] & m & Hm & Ho); [left|].
    cbn [flush_entries_mx flush_entries snd].
    erewrite bindL_lift; [|unfold load; by rewrite Hf].
    unfold bind at 1, load. rewrite Hf.
    assert (Hw : ∃ st1, (if mIsDirty f then writeDisk a else ret tt) st = (Val tt, st1)
                        ∧ heap st1 = heap st).
    { destruct (mIsDirty f).
      - exists (write_back a f st). split; [by apply writeDisk_eq | done].
      - by exists st. }
    destruct Hw as (st1 & Hw & Hh1).
    erewrite bindL_lift by exact Hw. unfold bind at 1. rewrite Hw.
    erewrite bindL_Returns by by apply (delete_frame_eq a m).
    destruct (IH st1 (<[a := None]> ms) Hnd) as (st' & ms' & Hrun & Hbase & Hlen & Hin & Hout).
    { intros k' a' Hin. destruct (Hl k' a') as (Hf' & m' & Hm' & Ho'); [by right|].
      split; [by rewrite Hh1|]. exists m'. split; [|done].
      rewrite list_lookup_insert_ne; [done|]. intros <-. apply Ha.
      apply list_elem_of_fmap. by exists (k', a). }
    exists st', ms'. split; [done|]. split; [done|].
    split; [by rewrite Hlen, length_insert|]. split.
    + intros b. rewrite fmap_cons. cbn [snd]. intros [->|Hb]%elem_of_cons; [|by apply Hin].
      rewrite Hout by done. apply list_lookup_insert_eq. by eapply lookup_lt_Some.
    + intros b. rewrite fmap_cons. cbn [snd]. intros Hb%not_elem_of_cons. destruct Hb as [Hne Hb].
      rewrite Hout by done. by apply list_lookup_insert_ne.
Qed.


(** * Pin counts and lock owners *)

Lemma wrap_int64_add_l x y : wrap_int64 (wrap_int64 x + y) = wrap_int64 (x + y).
Proof.
  unfold wrap_int64.
  replace ((x + 2 ^ 63) mod 2 ^ 64 - 2 ^ 63 + y + 2 ^ 63)
    with ((x + 2 ^ 63) mod 2 ^ 64 + y) by lia.
  rewrite Zplus_mod_idemp_l. f_equal. f_equal. lia.
Qed.

Lemma wrap_int64_sub_l x y : wrap_int64 (wrap_int64 x - y) = wrap_int64 (x - y).
Proof.
  replace (wrap_int64 x - y) with (wrap_int64 x + - y) by lia.
  by rewrite wrap_int64_add_l.
Qed.

Lemma mutex_of_insert ms a b x :
  (a < length ms)%nat →
  mutex_of (<[a := Some x]> ms) b = if decide (b = a) then Some x else mutex_of ms b.
Proof.
  intros Ha. unfold mutex_of. case_decide as E.
  - subst b. by rewrite list_lookup_insert_eq.
  - by rewrite list_lookup_insert_ne.
Qed.

Lemma fix_page_miss_heap p e st a st' :
  Inv st →
  bufferMapping st !! p = None →
  fix_page p e st = (Val a, st') →
  a = length (heap st)
  ∧ ∃ f', heap st' = heap st ++ [f'] ∧ counter f' = 1 ∧ mIsExclusive f' = e.
Proof.
  intros HI Hm.
  destruct (decide (N.of_nat (size (bufferMapping st)) = pageCount st)) as [Hs|Hs].
  - rewrite fix_page_full by done.
    destruct (list_find _ (scanned true st)) as [[i v]|].
    { intros [= <- <-]. split; [done|]. eexists. unfold replaced; fields.
      rewrite heap_write_back_page. done. }
    destruct (list_find _ (scanned false st)) as [[i v]|]; [|done].
    intros [= <- <-]. split; [done|]. eexists. unfold replaced; fields.
    rewrite heap_write_back_page. done.
  - rewrite fix_page_add by done. intros [= <- <-]. split; [done|]. eexists.
    unfold added; fields. done.
Qed.

Lemma LockInv_new ps pc : LockInv (new_BufferManager_mx ps pc).
Proof. intros a f m Hf. simpl in Hf. by rewrite lookup_nil in Hf. Qed.

Lemma LockInv_locked e f m m' :
  counter f = wrap_int64 (Z.of_nat (owner_count m))
  ∧ (exclusive_owner m = true → shared_owners m = 0%nat ∧ mIsExclusive f = true)
  ∧ (shared_owners m ≠ 0%nat → mIsExclusive f = false) →
  locked e m = Some m' →
  let f' := set_mIsExclusive e (set_counter (wrap_int64 (counter f + 1)) f) in
  counter f' = wrap_int64 (Z.of_nat (owner_count m'))
  ∧ (exclusive_owner m' = true → shared_owners m' = 0%nat ∧ mIsExclusive f' = true)
  ∧ (shared_owners m' ≠ 0%nat → mIsExclusive f' = false).
Proof.
  intros (Hc & Hx & Hs) Hlk. cbn [counter mIsExclusive set_mIsExclusive set_counter].
  rewrite Hc, wrap_int64_add_l.
  unfold locked, mutex_lock, mutex_lock_shared, owned in Hlk.
  destruct e, m as [[] n]; simpl in Hlk; try done.
  - destruct n as [|n]; simpl in Hlk; [|done]. injection Hlk as <-.
    unfold owner_count; simpl. done.
  - injection Hlk as <-. unfold owner_count; simpl. split; [|done].
    f_equal. lia.
Qed.

Lemma LockInv_unlocked d f m m' :
  counter f = wrap_int64 (Z.of_nat (owner_count m))
  ∧ (exclusive_owner m = true → shared_owners m = 0%nat ∧ mIsExclusive f = true)
  ∧ (shared_owners m ≠ 0%nat → mIsExclusive f = false) →
  unlocked (mIsExclusive f) m = Some m' →
  counter (unpinned_frame d f) = wrap_int64 (Z.of_nat (owner_count m'))
  ∧ (exclusive_owner m' = true
     → shared_owners m' = 0%nat ∧ mIsExclusive (unpinned_frame d f) = true)
  ∧ (shared_owners m' ≠ 0%nat → mIsExclusive (unpinned_frame d f) = false).
Proof.
  intros (Hc & Hx & Hs) Hu.
  cbn [unpinned_frame counter mIsExclusive set_mIsDirty set_counter].
  rewrite Hc, wrap_int64_sub_l.
  unfold unlocked, mutex_unlock, mutex_unlock_shared in Hu.
  destruct (mIsExclusive f) eqn:He, m as [[] n]; simpl in Hu, Hx, Hs; try done.
  - injection Hu as <-. destruct (Hx eq_refl) as [-> _].
    unfold owner_count; simpl. done.
  - destruct n; [done|]. by destruct (Hx eq_refl).
  - destruct n as [|n]; [done|]. injection Hu as <-.
    unfold owner_count; simpl. split; [f_equal; lia|]. split; [done|]. intros _. by apply Hs.
Qed.

Lemma LockInv_step_mx o st ms s' :
  Inv st → Alive (st, ms) → LockInv (st, ms) →
  step_mx o (st, ms) = Some s' →
  LockInv s'.
Proof.
  intros HI HA HL. pose proof HA as [Hlen _]. cbn [fst snd] in Hlen.
  destruct o as [p e|a d]; simpl.
  - destruct (bufferMapping st !! p) as [a|] eqn:Hm.
    + destruct (lookup_lt_is_Some_2 (heap st) a) as [f Hf]; [by eapply inv_heap|].
      assert (Hq : p ∈ fifoQueue st ∨ p ∈ lruQueue st) by (apply inv_queues; by rewrite ?Hm).
      assert (Ha : (a < length (heap st))%nat) by by eapply lookup_lt_Some.
      rewrite (fix_page_mx_hit p e a f) by done.
      destruct (mutex_of ms a) as [m|] eqn:Hmx; [|done].
      destruct (locked e m) as [m'|] eqn:Hlk; [|done].
      intros [= <-]. intros b g x. cbn [fst snd]. unfold touched; fields.
      rewrite mutex_of_insert by lia.
      destruct (decide (b = a)) as [->|Hne].
      * rewrite list_lookup_insert_eq by done. intros [= <-] [= <-].
        apply (LockInv_locked e f m); [by apply (HL a f m) | done].
      * rewrite list_lookup_insert_ne by done. intros Hg Hx. by apply (HL b g x).
    + rewrite fix_page_mx_miss by done.
      destruct (fix_page p e st) as [[b|[]|] st1] eqn:E; try done.
      * intros [= <-].
        destruct (fix_page_miss_heap p e st b st1 HI Hm E) as (-> & f' & Hheap & Hc & He).
        intros c g x. cbn [fst snd]. rewrite Hheap.
        destruct (decide (c < length (heap st))%nat) as [Hlt|Hge].
        -- rewrite lookup_app_l by done. unfold mutex_of. rewrite lookup_app_l by lia.
           apply (HL c g x).
        -- intros Hg. assert (c = length (heap st)) as ->.
           { apply lookup_lt_Some in Hg. rewrite length_app in Hg. simpl in Hg. lia. }
           rewrite lookup_new_frame in Hg. injection Hg as <-.
           rewrite <- Hlen, lookup_new_mutex. intros [= <-].
           rewrite Hc, He. by destruct e.
      * intros [= <-].
        destruct (fix_page_outcome p e st HI) as [(? & ? & E')|E']; rewrite E' in E; [done|].
        injection E as <-. exact HL.
  - destruct (heap st !! a) as [f|] eqn:Hf.
    + assert (Ha : (a < length (heap st))%nat) by by eapply lookup_lt_Some.
      rewrite (unfix_page_mx_eq a d f) by done.
      destruct (mutex_of ms a) as [m|] eqn:Hmx; [|done]. simpl.
      destruct (unlocked (mIsExclusive f) m) as [m'|] eqn:Hu; [|done].
      intros [= <-]. intros b g x. cbn [fst snd]. unfold released; fields.
      rewrite mutex_of_insert by lia.
      destruct (decide (b = a)) as [->|Hne].
      * rewrite list_lookup_insert_eq by done. intros [= <-] [= <-].
        apply (LockInv_unlocked d f m); [by apply (HL a f m) | done].
      * rewrite list_lookup_insert_ne by done. intros Hg Hx. by apply (HL b g x).
    + by rewrite unfix_page_mx_dangling.
Qed.

Lemma LockInv_run_mx ops st ms s' :
  Inv st → Alive (st, ms) → LockInv (st, ms) →
  run_mx ops (st, ms) = Some s' →
  LockInv s'.
Proof.
  revert st ms. induction ops as [|o ops IH]; intros st ms HI HA HL; simpl.
  - by intros [= <-].
  - destruct (step_mx o (st, ms)) as [[st1 ms1]|] eqn:E; [|done].
    destruct (step_mx_step o st ms _ HI HA E) as [Hstep HA1]. cbn [fst] in Hstep.
    apply IH; [by eapply Inv_step | done | by eapply LockInv_step_mx].
Qed.

Lemma owner_count_locked e m m' :
  locked e m = Some m' → (owner_count m' ≤ S (owner_count m))%nat.
Proof.
  unfold locked, mutex_lock, mutex_lock_shared, owned, owner_count.
  destruct e, m as [[] n]; simpl; try done.
  - destruct n; simpl; [|done]. intros [= <-]. simpl. lia.
  - intros [= <-]. simpl. lia.
Qed.

Lemma owner_count_unlocked e m m' :
  unlocked e m = Some m' → (owner_count m' ≤ owner_count m)%nat.
Proof.
  unfold unlocked, mutex_unlock, mutex_unlock_shared, owner_count.
  destruct e, m as [[] n]; simpl; try done.
  - intros [= <-]. simpl. lia.
  - destruct n; [done|]. intros [= <-]. simpl. lia.
  - destruct n; [done|]. intros [= <-]. simpl. lia.
Qed.

Lemma OwnersBound_step_mx k o st ms s' :
  Inv st → Alive (st, ms) → OwnersBound k ms →
  step_mx o (st, ms) = Some s' →
  OwnersBound (S k) s'.2.
Proof.
  intros HI HA HB. pose proof HA as [Hlen _]. cbn [fst snd] in Hlen.
  assert (HB' : OwnersBound (S k) ms).
  { intros b x Hx. specialize (HB b x Hx). lia. }
  destruct o as [p e|a d]; simpl.
  - destruct (bufferMapping st !! p) as [a|] eqn:Hm.
    + destruct (lookup_lt_is_Some_2 (heap st) a) as [f Hf]; [by eapply inv_heap|].
      assert (Hq : p ∈ fifoQueue st ∨ p ∈ lruQueue st) by (apply inv_queues; by rewrite ?Hm).
      assert (Ha : (a < length (heap st))%nat) by by eapply lookup_lt_Some.
      rewrite (fix_page_mx_hit p e a f) by done.
      destruct (mutex_of ms a) as [m|] eqn:Hmx; [|done].
      destruct (locked e m) as [m'|] eqn:Hlk; [|done].
      intros [= <-]. intros b x. cbn [snd]. rewrite mutex_of_insert by lia.
      case_decide; [|by apply HB'].
      intros [= <-]. apply owner_count_locked in Hlk. specialize (HB a m Hmx). lia.
    + rewrite fix_page_mx_miss by done.
      destruct (fix_page p e st) as [[b|[]|] st1] eqn:E; try done.
      * intros [= <-]. intros c x. cbn [snd]. unfold mutex_of.
        destruct (decide (c < length ms)%nat) as [Hlt|Hge].
        -- rewrite lookup_app_l by done. apply HB'.
        -- destruct (decide (c = length ms)) as [->|Hne].
           ++ rewrite list_lookup_middle by done. simpl. intros [= <-].
              destruct e; unfold owner_count; simpl; lia.
           ++ rewrite lookup_ge_None_2; [done|]. rewrite length_app. simpl. lia.
      * by intros [= <-].
  - destruct (heap st !! a) as [f|] eqn:Hf.
    + assert (Ha : (a < length (heap st))%nat) by by eapply lookup_lt_Some.
      rewrite (unfix_page_mx_eq a d f) by done.
      destruct (mutex_of ms a) as [m|] eqn:Hmx; [|done]. simpl.
      destruct (unlocked (mIsExclusive f) m) as [m'|] eqn:Hu; [|done].
      intros [= <-]. intros b x. cbn [snd]. rewrite mutex_of_insert by lia.
      case_decide; [|by apply HB'].
      intros [= <-]. apply owner_count_unlocked in Hu. specialize (HB a m Hmx). lia.
    + by rewrite unfix_page_mx_dangling.
Qed.

Lemma OwnersBound_run_mx ops k st ms s' :
  Inv st → Alive (st, ms) → OwnersBound k ms →
  run_mx ops (st, ms) = Some s' →
  OwnersBound (k + length ops) s'.2.
Proof.
  revert k st ms. induction ops as [|o ops IH]; intros k st ms HI HA HB; simpl.
  - intros [= <-]. by rewrite Nat.add_0_r.
  - destruct (step_mx o (st, ms)) as [[st1 ms1]|] eqn:E; [|done].
    destruct (step_mx_step o st ms _ HI HA E) as [Hstep HA1]. cbn [fst] in Hstep.
    pose proof (OwnersBound_step_mx k o st ms _ HI HA HB E) as HB1. cbn [snd] in HB1.
    intros Hrun. replace (k + S (length ops))%nat with (S k + length ops)%nat by lia.
    apply (IH (S k) st1 ms1); [by eapply Inv_step | done | done | done].
Qed.

(** What holds of a frame and its lock after calls on a new manager that have
    all returned, fewer than 2^63 of them. *)
Lemma reached_frame ops page_size page_count st ms a f :
  run_mx ops (new_BufferManager_mx page_size page_count) = Some (st, ms) →
  Z.of_nat (length ops) < 2 ^ 63 →
  heap st !! a = Some f →
  ∃ m,
    mutex_of ms a = Some m
    ∧ counter f = Z.of_nat (owner_count m)
    ∧ Z.of_nat (owner_count m) < 2 ^ 63
    ∧ (exclusive_owner m = true → shared_owners m = 0%nat ∧ mIsExclusive f = true)
    ∧ (shared_owners m ≠ 0%nat → mIsExclusive f = false).
Proof.
  intros Hrun Hlen Hf.
  pose proof (LockInv_run_mx ops _ _ _ (Inv_new _ _) (Alive_new _ _) (LockInv_new _ _) Hrun)
    as HL.
  assert (HB0 : OwnersBound 0 []).
  { intros b x Hx. unfold mutex_of in Hx. by rewrite lookup_nil in Hx. }
  pose proof (OwnersBound_run_mx ops 0 _ _ _ (Inv_new _ _) (Alive_new _ _) HB0 Hrun) as HB.
  cbn [snd] in HB.
  apply run_mx_run in Hrun as (_ & HI & HA); [|apply Inv_new|apply Alive_new].
  destruct (Alive_mutex_of st ms a HA) as [m Hm]; [by eapply lookup_lt_Some|].
  destruct (HL a f m Hf Hm) as (Hc & Hx & Hs). specialize (HB a m Hm).
  exists m. split; [done|]. split; [|split; [lia | done]].
  rewrite Hc. apply wrap_int64_small. lia.
Qed.

(** C3.  The claim is that eviction writes the victim out exactly when its
    dirty flag is set.  The code writes every victim out: on a manager of one
    frame, page 1 is fixed and released clean, then fixing page 2 evicts
    page 1; [writeDisk] is called on the frame of page 1 although its dirty
    flag is false.  (The destructor tests [isDirty()] before [writeDisk()];
    [getPageIndexToRemove] does not.) *)
Theorem eviction_writes_clean_victim :
  let st := after [Fix 1 false; Unfix 0 false] 4 1 in
  mIsDirty <$> heap st !! 0%nat = Some false
  ∧ pin_count st 1 = Some 0
  ∧ writes (trace st) = []
  ∧ ∃ st', fix_page 2 false st = (Val 1%nat, st')
           ∧ bufferMapping st' !! 1%N = None
           ∧ writes (trace st') = [(1%N, false)].
Proof.
  intros st. do 3 (split; [vm_compute; reflexivity|]).
  eexists. split; [vm_compute; reflexivity|]. split; reflexivity.
Qed.

(** C4.  The claim is that [unfix_page] never clears a dirty flag that is
    set.  [unlockPage] assigns its argument to the flag: page 1 is released
    dirty, fixed again and released clean, and the flag is false; the
    destructor, which writes dirty pages only, then writes nothing, so the
    modification announced by the first release is never written back. *)
Theorem unfix_clears_dirty_flag :
  let st1 := after [Fix 1 true; Unfix 0 true] 4 1 in
  let st2 := after [Fix 1 true; Unfix 0 true; Fix 1 false; Unfix 0 false] 4 1 in
  mIsDirty <$> heap st1 !! 0%nat = Some true
  ∧ unfix_page 0 false (after [Fix 1 true; Unfix 0 true; Fix 1 false] 4 1) = (Val tt, st2)
  ∧ mIsDirty <$> heap st2 !! 0%nat = Some false
  ∧ writes (trace st2) = []
  ∧ (destroy st2).1 = Val tt
  ∧ writes (trace (destroy st2).2) = []
  ∧ writes (trace (destroy st1).2) = [(1%N, true)].
Proof.
  intros st1 st2.
  do 6 (split; [vm_compute; reflexivity|]). vm_compute. reflexivity.
Qed.




(** C8, as claimed, fails.  On a manager of one frame page 1 is fixed in
    shared mode: [readDisk] is called on its frame after [lockPage(false)],
    and the lock is shared when the call returns.  Page 1 is released and
    page 2 is fixed: [writeDisk] is called on the frame of page 1 with its
    pin count zero, and its lock is free before the call and after. *)
Lemma io_precondition_counterexample :
  let s1 := after_mx [Fix 1 false] 4 1 in
  let s := after_mx [Fix 1 false; Unfix 0 false] 4 1 in
  (∃ f, trace s1.1 = [CallLockPage 0 false; CallReadDisk 0 f]
        ∧ mutex_of s1.2 0 = Some {| exclusive_owner := false; shared_owners := 1 |})
  ∧ mutex_of s.2 0 = Some unowned
  ∧ ∃ g f st' ms',
      fix_page_mx 2 true s = (Returns 1%nat, (st', ms'))
      ∧ trace st' = trace s.1 ++ [CallWriteDisk 0 g; CallLockPage 1 true; CallReadDisk 1 f]
      ∧ pageId g = 1%N
      ∧ counter g = 0
      ∧ mutex_of ms' 0 = Some unowned.
Proof.
  intros s1 s. split.
  { eexists. split; [vm_compute; reflexivity | reflexivity]. }
  split; [vm_compute; reflexivity|].
  eexists _, _, _, _. split; [vm_compute; reflexivity|].
  split; [vm_compute; reflexivity|]. split; [reflexivity|]. split; reflexivity.
Qed.

(** C8, amended.  On a miss that returns, after calls on a new manager that
    have all returned (fewer than 2^63 of them), [readDisk] is called on the
    new frame right after [lockPage], with the frame pinned (its counter is
    at least one); when the caller asked for exclusive access the lock is
    then held exclusively.  When a victim is evicted, [writeDisk] is called
    on it before that, with its pin count zero (it was chosen for that) and
    its lock free, and the call does not take the victim's lock. *)
Theorem io_calls_of_a_miss ops page_size page_count st ms p e a st' ms' :
  run_mx ops (new_BufferManager_mx page_size page_count) = Some (st, ms) →
  Z.of_nat (length ops) < 2 ^ 63 →
  bufferMapping st !! p = None →
  fix_page_mx p e (st, ms) = (Returns a, (st', ms')) →
  ∃ f evicted,
    trace st' = trace st ++ evicted ++ [CallLockPage a e; CallReadDisk a f]
    ∧ pageId f = p
    ∧ 1 ≤ counter f
    ∧ (e = true →
       mutex_of ms' a = Some {| exclusive_owner := true; shared_owners := 0 |})
    ∧ ((evicted = [] ∧ N.of_nat (size (bufferMapping st)) ≠ pageCount st)
       ∨ ∃ v b g,
           evicted = [CallWriteDisk b g]
           ∧ frame_of st v = Some (b, g)
           ∧ counter g = 0
           ∧ b ≠ a
           ∧ mutex_of ms b = Some unowned
           ∧ mutex_of ms' b = Some unowned).
Proof.
  intros Hrun Hops Hm.
  pose proof Hrun as (_ & HI & [Hlen _])%run_mx_run; [|apply Inv_new|apply Alive_new].
  cbn [fst snd] in HI, Hlen.
  rewrite fix_page_mx_miss by done.
  destruct (fix_page p e st) as [[a0| |] st0] eqn:Hfix; [|done..].
  intros [= -> -> <-].
  destruct (fix_page_miss_trace p e st a st' HI Hm Hfix)
    as (-> & Hh & [[Hne Htr]|(v & b & g & Hg & Hc & _ & Htr)]).
  - exists (fresh_frame p e st), []. split; [done|]. split; [done|]. split; [done|].
    split; [|by left].
    intros ->. rewrite <- Hlen. apply lookup_new_mutex.
  - exists (fresh_frame p e st), [CallWriteDisk b g]. split; [done|].
    split; [done|]. split; [done|]. split.
    { intros ->. rewrite <- Hlen. apply lookup_new_mutex. }
    right. exists v, b, g.
    pose proof Hg as [_ Hgb]%frame_of_Some.
    pose proof Hgb as Hb%lookup_lt_Some.
    destruct (reached_frame ops page_size page_count st ms b g Hrun Hops Hgb)
      as (m & Hmb & Hcm & _ & _ & _).
    assert (m = unowned) as ->.
    { rewrite Hc in Hcm. destruct m as [[] [|n]]; unfold owner_count in Hcm; simpl in Hcm;
        try lia. done. }
    do 3 (split; [done|]). split; [lia|]. split; [done|].
    unfold mutex_of in *. rewrite lookup_app_l by lia. done.
Qed.

Lemma io_calls_of_a_miss_witness :
  let ops := [Fix 1 false; Unfix 0 false] in
  let s := after_mx ops 4 1 in
  ∃ st' ms' f g,
    fix_page_mx 2 true (s.1, s.2) = (Returns 1%nat, (st', ms'))
    ∧ trace st' = trace s.1 ++ [CallWriteDisk 0 g; CallLockPage 1 true; CallReadDisk 1 f]
    ∧ counter g = 0
    ∧ mutex_of ms' 0 = Some unowned
    ∧ mutex_of ms' 1 = Some {| exclusive_owner := true; shared_owners := 0 |}.
Proof.
  intros ops s.
  assert (Hrun : run_mx ops (new_BufferManager_mx 4 1) = Some (s.1, s.2))
    by (vm_compute; reflexivity).
  assert (Hops : Z.of_nat (length ops) < 2 ^ 63) by reflexivity.
  assert (Hm : bufferMapping s.1 !! 2%N = None) by (vm_compute; reflexivity).
  assert (Hs : N.of_nat (size (bufferMapping s.1)) = pageCount s.1) by (vm_compute; reflexivity).
  assert (Hh : length (heap s.1) = 1%nat) by (vm_compute; reflexivity).
  assert (Hfix : ∃ st' ms', fix_page_mx 2 true (s.1, s.2) = (Returns 1%nat, (st', ms'))).
  { eexists _, _. vm_compute. reflexivity. }
  clearbody s ops. destruct Hfix as (st' & ms' & Hfix).
  destruct (io_calls_of_a_miss ops 4 1 s.1 s.2 2 true 1%nat st' ms' Hrun Hops Hm Hfix)
    as (f & evicted & Htr & _ & _ & Hex & [[_ Hne]|(v & b & g & -> & Hg & Hc & _ & _ & Hfree)]).
  - by destruct Hne.
  - exists st', ms', f, g. split; [exact Hfix|].
    assert (Hb : b = 0%nat).
    { apply frame_of_Some in Hg as [_ Hb%lookup_lt_Some]. lia. }
    subst b. split; [exact Htr|]. split; [exact Hc|]. split; [exact Hfree|]. by apply Hex.
Defined.
(** * Page identifiers *)

Lemma get_segment_id_div p : (p < 2 ^ 64)%N → get_segment_id p = (p / 2 ^ 48)%N.
Proof.
  intros Hp. unfold get_segment_id. rewrite N.shiftr_div_pow2.
  apply N.mod_small. apply N.Div0.div_lt_upper_bound. lia.
Qed.

Lemma get_segment_page_id_mod p : get_segment_page_id p = (p mod 2 ^ 48)%N.
Proof.
  unfold get_segment_page_id.
  change (2 ^ 48 - 1)%N with (N.ones 48). apply N.land_ones.
Qed.

Lemma page_id_decompose_lemma p :
  (p < 2 ^ 64)%N →
  (get_segment_id p < 2 ^ 16)%N
  ∧ (get_segment_page_id p < 2 ^ 48)%N
  ∧ (get_segment_id p * 2 ^ 48 + get_segment_page_id p)%N = p.
Proof.
  intros Hp. rewrite get_segment_id_div, get_segment_page_id_mod by done.
  split; [apply N.Div0.div_lt_upper_bound; lia|].
  split; [apply N.mod_lt; lia|].
  rewrite N.mul_comm. symmetry. apply N.div_mod. lia.
Qed.

(** X1.  A page id splits into a segment id below 2^16 and a page id within
    the segment below 2^48, and is put together again from the two. *)
Theorem page_id_decompose page_id :
  (page_id < 2 ^ 64)%N →
  (get_segment_id page_id < 2 ^ 16)%N
  ∧ (get_segment_page_id page_id < 2 ^ 48)%N
  ∧ (get_segment_id page_id * 2 ^ 48 + get_segment_page_id page_id)%N = page_id
  ∧ N.lor (N.shiftl (get_segment_id page_id) 48) (get_segment_page_id page_id) = page_id.
Proof.
  intros Hp.
  assert (Hlor : N.lor (N.shiftl (get_segment_id page_id) 48) (get_segment_page_id page_id)
                 = page_id).
  { unfold get_segment_id, get_segment_page_id.
    rewrite N.mod_small.
    - change (2 ^ 48 - 1)%N with (N.ones 48).
      rewrite <- N.ldiff_ones_r. apply N.lor_ldiff_and.
    - rewrite N.shiftr_div_pow2. apply N.Div0.div_lt_upper_bound. lia. }
  destruct (page_id_decompose_lemma page_id Hp) as (H1 & H2 & H3). done.
Qed.

Lemma page_id_decompose_witness :
  (get_segment_id 0x0003000000000007 < 2 ^ 16)%N
  ∧ get_segment_id 0x0003000000000007 = 3%N
  ∧ get_segment_page_id 0x0003000000000007 = 7%N.
Proof.
  destruct (page_id_decompose 0x0003000000000007%N) as (H1 & _); [reflexivity|].
  split; [exact H1|]. split; reflexivity.
Defined.

(** X2.  Putting a segment id and a page id within the segment together and
    splitting the result gives the two back. *)
Theorem page_id_compose segment page :
  (segment < 2 ^ 16)%N →
  (page < 2 ^ 48)%N →
  (segment * 2 ^ 48 + page < 2 ^ 64)%N
  ∧ get_segment_id (segment * 2 ^ 48 + page) = segment
  ∧ get_segment_page_id (segment * 2 ^ 48 + page) = page.
Proof.
  intros Hs Hp.
  assert (Hlt : (segment * 2 ^ 48 + page < 2 ^ 64)%N) by lia.
  split; [done|]. rewrite get_segment_id_div, get_segment_page_id_mod by done.
  split.
  - rewrite N.div_add_l by lia. rewrite N.div_small by done. lia.
  - rewrite N.add_comm, N.Div0.mod_add. by apply N.mod_small.
Qed.

Lemma page_id_compose_witness :
  get_segment_id (5 * 2 ^ 48 + 9) = 5%N ∧ get_segment_page_id (5 * 2 ^ 48 + 9) = 9%N.
Proof.
  destruct (page_id_compose 5 9) as (_ & H1 & H2); [reflexivity | reflexivity |].
  split; [exact H1 | exact H2].
Defined.

(** * Segment files *)

Lemma write_bytes_lookup src off file k :
  write_bytes src off file !! k
  = if decide (off ≤ k < off + N.of_nat (length src))%N
    then src !! N.to_nat (k - off) else file !! k.
Proof.
  revert off file. induction src as [|b src IH]; intros off file; simpl.
  - rewrite decide_False by lia. done.
  - rewrite IH. destruct (decide (k = off)) as [->|Hne].
    + rewrite decide_False by lia. rewrite decide_True by lia.
      rewrite lookup_insert_eq. by rewrite N.sub_diag.
    + rewrite lookup_insert_ne by done.
      destruct (decide (off + 1 ≤ k < off + 1 + N.of_nat (length src))%N).
      * rewrite decide_True by lia.
        replace (N.to_nat (k - off)) with (S (N.to_nat (k - (off + 1)))) by lia. done.
      * rewrite decide_False by lia. done.
Qed.

Lemma length_read_block file off n : length (read_block file off n) = N.to_nat n.
Proof. unfold read_block. by rewrite length_fmap, length_seq. Qed.

Lemma read_block_lookup file off n i :
  (i < N.to_nat n)%nat →
  read_block file off n !! i = Some (default x00 (file !! (off + N.of_nat i)%N)).
Proof.
  intros Hi. unfold read_block. rewrite list_lookup_fmap.
  rewrite lookup_seq_lt by done. done.
Qed.

Lemma read_write_same src off n file :
  length src = N.to_nat n →
  read_block (write_block src off n file) off n = src.
Proof.
  intros Hlen. apply list_eq. intros i.
  destruct (decide (i < N.to_nat n)%nat) as [Hi|Hi].
  - rewrite read_block_lookup by done. unfold write_block.
    rewrite firstn_all2 by lia. rewrite write_bytes_lookup.
    rewrite decide_True by lia.
    replace (N.to_nat (off + N.of_nat i - off)) with i by lia.
    destruct (lookup_lt_is_Some_2 src i) as [b Hb]; [lia|]. by rewrite Hb.
  - rewrite !lookup_ge_None_2; [done | lia | rewrite length_read_block; lia].
Qed.

Lemma read_write_disjoint src off2 n2 file off n :
  (off2 + n2 ≤ off ∨ off + n ≤ off2)%N →
  read_block (write_block src off2 n2 file) off n = read_block file off n.
Proof.
  intros Hd. apply list_eq. intros i.
  destruct (decide (i < N.to_nat n)%nat) as [Hi|Hi].
  - rewrite !read_block_lookup by done. unfold write_block.
    rewrite write_bytes_lookup. rewrite decide_False; [done|].
    rewrite length_take. lia.
  - rewrite !lookup_ge_None_2; [done | rewrite length_read_block; lia
                                | rewrite length_read_block; lia].
Qed.

Lemma on_disk_frame f d :
  on_disk d (pageId f) (pageSize f)
  = read_block (open_file (fileName f) d) (fileOffset f) (pageSize f).
Proof. done. Qed.

Lemma page_ranges_disjoint p q ps :
  p ≠ q → (p < 2 ^ 64)%N → (q < 2 ^ 64)%N → (ps ≤ 2 ^ 16)%N →
  pretty (get_segment_id p) ≠ pretty (get_segment_id q)
  ∨ (wrap_uint64 (get_segment_page_id p * ps) + ps
     ≤ wrap_uint64 (get_segment_page_id q * ps))%N
  ∨ (wrap_uint64 (get_segment_page_id q * ps) + ps
     ≤ wrap_uint64 (get_segment_page_id p * ps))%N.
Proof.
  intros Hne Hp Hq Hsmall. unfold wrap_uint64.
  destruct (decide (get_segment_id p = get_segment_id q)) as [Hseg|Hseg].
  - right.
    destruct (page_id_decompose_lemma p Hp) as (_ & Hlp & Hjp).
    destruct (page_id_decompose_lemma q Hq) as (_ & Hlq & Hjq).
    assert (Hl : get_segment_page_id p ≠ get_segment_page_id q) by congruence.
    set (lp := get_segment_page_id p) in *.
    set (lq := get_segment_page_id q) in *.
    rewrite !N.mod_small by nia. nia.
  - left. intros Heq. apply Hseg. by apply (inj pretty).
Qed.

(** X3.  Two frames of the same size, at most 2^16 bytes, that hold
    different page ids use different files or ranges of bytes of one file
    that do not overlap. *)
Theorem distinct_pages_disjoint_on_disk f g :
  pageId f ≠ pageId g →
  (pageId f < 2 ^ 64)%N →
  (pageId g < 2 ^ 64)%N →
  pageSize f = pageSize g →
  (pageSize f ≤ 2 ^ 16)%N →
  fileName f ≠ fileName g
  ∨ (fileOffset f + pageSize f ≤ fileOffset g)%N
  ∨ (fileOffset g + pageSize g ≤ fileOffset f)%N.
Proof.
  intros Hne Hf Hg Hps Hsmall. unfold fileName, fileOffset. rewrite <- Hps.
  by apply page_ranges_disjoint.
Qed.

Lemma distinct_pages_disjoint_on_disk_witness :
  let f := new_BufferFrame 1 16 in
  let g := new_BufferFrame 2 16 in
  fileName f = fileName g ∧ fileOffset f = 16%N ∧ fileOffset g = 32%N
  ∧ (fileName f ≠ fileName g
     ∨ (fileOffset f + pageSize f ≤ fileOffset g)%N
     ∨ (fileOffset g + pageSize g ≤ fileOffset f)%N).
Proof.
  intros f g. do 3 (split; [vm_compute; reflexivity|]).
  apply distinct_pages_disjoint_on_disk.
  - vm_compute. discriminate.
  - vm_compute. reflexivity.
  - vm_compute. reflexivity.
  - vm_compute. reflexivity.
  - vm_compute. discriminate.
Defined.

Lemma on_disk_write_back_same a f st :
  length (data f) = N.to_nat (pageSize f) →
  on_disk (disk (write_back a f st)) (pageId f) (pageSize f) = data f.
Proof.
  intros Hlen. unfold on_disk, write_back, set_disk, open_file. fields.
  change (pretty (get_segment_id (pageId f))) with (fileName f).
  rewrite lookup_insert_eq. cbn [default].
  change (wrap_uint64 (get_segment_page_id (pageId f) * pageSize f)) with (fileOffset f).
  by apply read_write_same.
Qed.

Lemma on_disk_write_back_other a f st q :
  q ≠ pageId f →
  (q < 2 ^ 64)%N → (pageId f < 2 ^ 64)%N → (pageSize f ≤ 2 ^ 16)%N →
  on_disk (disk (write_back a f st)) q (pageSize f) = on_disk (disk st) q (pageSize f).
Proof.
  intros Hne Hq Hf Hsmall. unfold on_disk, write_back, set_disk, open_file. fields.
  destruct (decide (fileName f = pretty (get_segment_id q))) as [Heq|Hneq].
  - rewrite <- Heq, lookup_insert_eq. cbn [default].
    pose proof (page_ranges_disjoint q (pageId f) (pageSize f) Hne Hq Hf Hsmall) as [Hn|Hd].
    + exfalso. apply Hn. by rewrite <- Heq.
    + apply read_write_disjoint. unfold fileOffset. lia.
  - by rewrite lookup_insert_ne.
Qed.

(** X4.  [writeDisk] followed by [readDisk] gives the bytes back: after a
    frame whose buffer has its page size was written out, reading into any
    frame of the same page id and size loads the bytes of the first. *)
Theorem write_then_read_restores a b f g st :
  heap st !! a = Some f →
  heap st !! b = Some g →
  length (data f) = N.to_nat (pageSize f) →
  pageId g = pageId f →
  pageSize g = pageSize f →
  ∃ st1 st2,
    writeDisk a st = (Val tt, st1)
    ∧ heap st1 = heap st
    ∧ readDisk b st1 = (Val tt, st2)
    ∧ heap st2 = <[b := set_data (data f) g]> (heap st)
    ∧ disk st2 = disk st1.
Proof.
  intros Hf Hg Hlen Hid Hps.
  exists (write_back a f st). eexists.
  split; [by apply writeDisk_eq|]. split; [done|].
  split; [by apply readDisk_eq|]. split; [|done].
  unfold write_back at 1, set_heap, set_trace, set_disk. fields. do 2 f_equal.
  assert (Hod := on_disk_write_back_same a f st Hlen).
  unfold on_disk in Hod. unfold fileName, fileOffset. rewrite Hid, Hps. exact Hod.
Qed.

(** * The cases of a call *)

Lemma step_cases o st st' :
  Inv st →
  step o st = Some st' →
  (∃ p e a f, o = Fix p e ∧ bufferMapping st !! p = Some a ∧ heap st !! a = Some f
              ∧ fix_page p e st = (Val a, st') ∧ st' = touched p e a f st)
  ∨ (∃ p e, o = Fix p e ∧ bufferMapping st !! p = None
            ∧ N.of_nat (size (bufferMapping st)) ≠ pageCount st
            ∧ fix_page p e st = (Val (length (heap st)), st') ∧ st' = added p e st)
  ∨ (∃ p e b i v c g, o = Fix p e ∧ bufferMapping st !! p = None
            ∧ N.of_nat (size (bufferMapping st)) = pageCount st
            ∧ queue b st !! i = Some v ∧ frame_of st v = Some (c, g) ∧ counter g = 0
            ∧ p ≠ v
            ∧ fix_page p e st = (Val (length (heap st)), st')
            ∧ st' = replaced p e b i v (write_back c g st))
  ∨ (∃ p e, o = Fix p e ∧ bufferMapping st !! p = None
            ∧ fix_page p e st = (Throw buffer_full_error, st) ∧ st' = st)
  ∨ (∃ a d f, o = Unfix a d ∧ heap st !! a = Some f ∧ st' = released d a f st).
Proof.
  intros HI. destruct o as [p e|a d]; simpl.
  - destruct (bufferMapping st !! p) as [a|] eqn:Hm.
    + destruct (lookup_lt_is_Some_2 (heap st) a) as [f Hf]; [by eapply inv_heap|].
      pose proof (fix_page_hit p e a f st Hm Hf) as Hfix.
      rewrite Hfix by (apply inv_queues; by rewrite ?Hm).
      intros [= <-]. left. exists p, e, a, f.
      rewrite Hfix by (apply inv_queues; by rewrite ?Hm). done.
    + destruct (decide (N.of_nat (size (bufferMapping st)) = pageCount st)) as [Hs|Hs].
      * pose proof (fix_page_full p e st HI Hm Hs) as Hfix. rewrite Hfix.
        assert (Hev : ∀ b i v, list_find (unpinned st) (scanned b st) = Some (i, v) →
                  ∃ c g, queue b st !! i = Some v ∧ frame_of st v = Some (c, g)
                         ∧ counter g = 0 ∧ p ≠ v
                         ∧ write_back_page v st = write_back c g st).
        { intros b i v (Hv%scanned_lookup & Hu & _)%list_find_Some.
          apply pin_count_Some in Hu as (c & g & Hg & Hc). exists c, g.
          repeat split; try done.
          - intros ->. apply frame_of_Some in Hg as [? ?]. congruence.
          - unfold write_back_page. by rewrite Hg. }
        destruct (list_find _ (scanned true st)) as [[i v]|] eqn:E1.
        { intros [= <-]. right; right; left.
          destruct (Hev true i v E1) as (c & g & ? & ? & ? & ? & Hwb).
          exists p, e, true, i, v, c, g. rewrite <- Hwb. done. }
        destruct (list_find _ (scanned false st)) as [[i v]|] eqn:E2.
        { intros [= <-]. right; right; left.
          destruct (Hev false i v E2) as (c & g & ? & ? & ? & ? & Hwb).
          exists p, e, false, i, v, c, g. rewrite <- Hwb. done. }
        intros [= <-]. right; right; right; left. exists p, e. done.
      * pose proof (fix_page_add p e st Hm Hs) as Hfix. rewrite Hfix.
        intros [= <-]. right; left. exists p, e. done.
  - destruct (heap st !! a) as [f|] eqn:Hf.
    + rewrite (unfix_page_eq a d f) by done. intros [= <-].
      right; right; right; right. by exists a, d, f.
    + by rewrite unfix_page_dangling.
Qed.

Lemma write_data_eq a bytes f st :
  heap st !! a = Some f →
  length bytes = length (data f) →
  write_data a bytes st = (Val tt, set_heap (<[a := set_data bytes f]> (heap st)) st).
Proof.
  intros Hf Hlen. unfold write_data, bind, load. rewrite Hf.
  by rewrite decide_True by done.
Qed.

Lemma act_WriteData_inv a bytes st st' :
  act (WriteData a bytes) st = Some st' →
  ∃ f, heap st !! a = Some f ∧ length bytes = length (data f)
       ∧ st' = set_heap (<[a := set_data bytes f]> (heap st)) st.
Proof.
  simpl. unfold write_data, bind, load.
  destruct (heap st !! a) as [f|] eqn:Hf; [|done].
  case_decide as Hlen; [|done]. intros [= <-]. by exists f.
Qed.

(** * The invariants of frames and page ids *)

Lemma Inv_same_shape st st' :
  Inv st →
  pageCount st' = pageCount st →
  fifoQueue st' = fifoQueue st →
  lruQueue st' = lruQueue st →
  bufferMapping st' = bufferMapping st →
  length (heap st') = length (heap st) →
  Inv st'.
Proof.
  intros [H1 H2 H3 H4 H5 H6] E1 E2 E3 E4 E5.
  constructor; rewrite ?E1, ?E2, ?E3, ?E4, ?E5; done.
Qed.

Lemma FrameInv_update a f f' st st' :
  FrameInv st →
  heap st !! a = Some f →
  pageId f' = pageId f → pageSize f' = pageSize f → length (data f') = length (data f) →
  bm_pageSize st' = bm_pageSize st →
  bufferMapping st' = bufferMapping st →
  heap st' = <[a := f']> (heap st) →
  FrameInv st'.
Proof.
  intros [HF HT] Hf Hid Hps Hlen Ebm Emap Eheap.
  assert (Hfa : pageSize f = bm_pageSize st ∧ length (data f) = N.to_nat (bm_pageSize st)).
  { rewrite Forall_lookup in HF. by apply (HF a f). }
  constructor; rewrite ?Ebm, ?Emap, ?Eheap.
  - apply Forall_insert; [done|]. rewrite Hps, Hlen. done.
  - intros p b g Hp Hg. destruct (decide (b = a)) as [->|Hne].
    + rewrite list_lookup_insert_eq in Hg by by eapply lookup_lt_Some.
      injection Hg as <-. rewrite Hid. by eapply HT.
    + rewrite list_lookup_insert_ne in Hg by done. by eapply HT.
Qed.

Lemma loaded_frame_fields p e st :
  pageId (loaded_frame p e st) = p
  ∧ pageSize (loaded_frame p e st) = bm_pageSize st
  ∧ length (data (loaded_frame p e st)) = N.to_nat (bm_pageSize st)
  ∧ counter (loaded_frame p e st) = 1
  ∧ mIsDirty (loaded_frame p e st) = false
  ∧ mIsExclusive (loaded_frame p e st) = e
  ∧ data (loaded_frame p e st) = on_disk (disk st) p (bm_pageSize st).
Proof.
  unfold loaded_frame, fresh_frame, on_disk. cbn [pageId pageSize data counter mIsDirty
    mIsExclusive set_data set_mIsExclusive set_counter new_BufferFrame].
  rewrite length_read_block. done.
Qed.

Lemma FrameInv_grow p e st0 st st' m :
  Inv st → FrameInv st →
  bm_pageSize st0 = bm_pageSize st →
  bm_pageSize st' = bm_pageSize st →
  (∀ q a, m !! q = Some a → bufferMapping st !! q = Some a) →
  bufferMapping st' = <[p := length (heap st)]> m →
  heap st' = heap st ++ [loaded_frame p e st0] →
  FrameInv st'.
Proof.
  intros HI [HF HT] Ebm0 Ebm Hsub Emap Eheap.
  destruct (loaded_frame_fields p e st0) as (Hid & Hps & Hlen & _).
  constructor; rewrite ?Ebm, ?Emap, ?Eheap.
  - apply Forall_app. split; [done|]. apply Forall_singleton.
    rewrite Hps, Hlen, Ebm0. done.
  - intros q b g Hq Hg. rewrite lookup_insert in Hq. case_decide as Hpq.
    + injection Hq as <-. subst q. rewrite list_lookup_middle in Hg by done.
      by injection Hg as <-.
    + apply Hsub in Hq. pose proof (inv_heap st HI q b Hq).
      rewrite lookup_app_l in Hg by done. by eapply HT.
Qed.

Lemma FrameInv_write_back c g st : FrameInv st → FrameInv (write_back c g st).
Proof. intros [HF HT]. by constructor. Qed.

Lemma Inv_write_back c g st : Inv st → Inv (write_back c g st).
Proof. intros HI. by apply (Inv_same_shape st). Qed.

Lemma Sound_new ps pc : Sound (new_BufferManager ps pc).
Proof.
  split; [apply Inv_new|]. split.
  - constructor; simpl; [apply Forall_nil_2|]. intros p a f. by rewrite lookup_empty.
  - intros p [a Ha]. simpl in Ha. by rewrite lookup_empty in Ha.
Qed.

Lemma Sound_step o st st' :
  Sound st →
  action_id_ok (Call o) →
  step o st = Some st' →
  Sound st' ∧ bm_pageSize st' = bm_pageSize st.
Proof.
  intros (HI & HF & HN) Hok Hstep.
  assert (HI' : Inv st') by by eapply Inv_step.
  destruct (step_cases o st st' HI Hstep)
    as [(p & e & a & f & -> & Hm & Hf & _ & ->)
       |[(p & e & -> & Hm & Hs & _ & ->)
        |[(p & e & b & i & v & c & g & -> & Hm & Hs & Hv & Hg & Hc & Hpv & _ & ->)
         |[(p & e & -> & _ & _ & ->)
          |(a & d & f & -> & Hf & ->)]]]].
  - split; [|done]. split; [done|]. split; [|done].
    eapply (FrameInv_update a f
              (set_mIsExclusive e (set_counter (wrap_int64 (counter f + 1)) f)) st);
      try done; reflexivity.
  - split; [|done]. split; [done|]. split.
    + eapply (FrameInv_grow p e st st); try done.
      unfold added; fields. by rewrite std_map_insert_None.
    + intros q. unfold added; fields. rewrite std_map_insert_None by done.
      rewrite lookup_insert_is_Some. intros [<-|[_ Hq]]; [done | by apply HN].
  - assert (Hmd : delete v (bufferMapping st) !! p = None) by by rewrite lookup_delete_ne.
    split; [|done]. split; [done|]. split.
    + eapply (FrameInv_grow p e (write_back c g st) st _ (delete v (bufferMapping st)));
        try done.
      * intros q a. rewrite lookup_delete_Some. by intros [_ ?].
      * unfold replaced; fields. by rewrite std_map_insert_None.
    + intros q. unfold replaced; fields. rewrite std_map_insert_None by done.
      rewrite lookup_insert_is_Some, lookup_delete_is_Some.
      intros [<-|[_ [_ Hq]]]; [done | by apply HN].
  - done.
  - split; [|done]. split; [done|]. split; [|done].
    eapply (FrameInv_update a f
              (set_mIsDirty d (set_counter (wrap_int64 (counter f - 1)) f)) st);
      try done; reflexivity.
Qed.

Lemma Sound_act x st st' :
  Sound st →
  action_id_ok x →
  act x st = Some st' →
  Sound st' ∧ bm_pageSize st' = bm_pageSize st.
Proof.
  intros HS Hok Hact. destruct x as [o|a bytes].
  - by eapply Sound_step.
  - destruct HS as (HI & HF & HN).
    apply act_WriteData_inv in Hact as (f & Hf & Hlen & ->).
    split; [|done]. split; [|split; [|done]].
    + apply (Inv_same_shape st); try done.
      unfold set_heap; fields. by rewrite length_insert.
    + eapply (FrameInv_update a f (set_data bytes f) st); try done; reflexivity.
Qed.

Lemma Sound_play xs st st' :
  Sound st →
  Forall action_id_ok xs →
  play xs st = Some st' →
  Sound st' ∧ bm_pageSize st' = bm_pageSize st.
Proof.
  intros HS Hok. revert st HS. induction Hok as [|x xs Hx _ IH]; intros st HS; simpl.
  - by intros [= <-].
  - destruct (act x st) as [st1|] eqn:E; [|done].
    destruct (Sound_act x st st1 HS Hx E) as [HS1 Hbm].
    intros Hplay. destruct (IH st1 HS1 Hplay) as [? ?]. split; [done | congruence].
Qed.

Lemma Sound_after_actions xs ps pc :
  Forall action_id_ok xs → Sound (after_actions xs ps pc).
Proof.
  intros Hok. unfold after_actions.
  destruct (play xs (new_BufferManager ps pc)) as [st|] eqn:E; simpl.
  - by eapply Sound_play; [apply Sound_new | |].
  - apply Sound_new.
Qed.

(** * Frames and the page table *)

(** X5.  After any actions of a client on a new manager (calls and writes
    through [get_data]), the frame a resident page id is mapped to carries
    that page id, has the page size of the manager and a buffer of exactly
    that many bytes, and no other page id is mapped to it. *)
Theorem resident_frames_match_table xs page_size page_count st p a :
  Forall action_id_ok xs →
  play xs (new_BufferManager page_size page_count) = Some st →
  bufferMapping st !! p = Some a →
  ∃ f, heap st !! a = Some f
       ∧ pageId f = p
       ∧ pageSize f = page_size
       ∧ length (data f) = N.to_nat page_size
       ∧ ∀ q, bufferMapping st !! q = Some a → q = p.
Proof.
  intros Hok Hplay Hp.
  destruct (Sound_play xs _ st (Sound_new page_size page_count) Hok Hplay)
    as [(HI & [HF HT] & _) Hbm]. simpl in Hbm.
  destruct (lookup_lt_is_Some_2 (heap st) a) as [f Hf]; [by eapply inv_heap|].
  exists f. split; [done|]. split; [by eapply HT|].
  rewrite Forall_lookup in HF. destruct (HF a f Hf) as [Hps Hlen].
  rewrite <- Hbm. repeat split; try done.
  intros q Hq. rewrite <- (HT p a f Hp Hf). symmetry. by eapply HT.
Qed.

Lemma fix_page_miss_new_frame p e st a st' :
  Inv st →
  bufferMapping st !! p = None →
  fix_page p e st = (Val a, st') →
  a = length (heap st)
  ∧ bufferMapping st' !! p = Some a
  ∧ ∃ f', heap st' = heap st ++ [f']
          ∧ pageId f' = p
          ∧ pageSize f' = bm_pageSize st
          ∧ counter f' = 1
          ∧ mIsDirty f' = false
          ∧ mIsExclusive f' = e
          ∧ data f' = on_disk (disk st') p (bm_pageSize st).
Proof.
  intros HI Hm Hfix.
  assert (Hstep : step (Fix p e) st = Some st') by (simpl; by rewrite Hfix).
  destruct (step_cases _ st st' HI Hstep)
    as [(p' & e' & a' & f & [= <- <-] & Hm' & _)
       |[(p' & e' & [= <- <-] & _ & Hs & Hfix' & ->)
        |[(p' & e' & b & i & v & c & g & [= <- <-] & _ & Hs & Hv & Hg & Hc & Hpv & Hfix' & ->)
         |[(p' & e' & [= <- <-] & _ & Hfix' & _)
          |(a' & d & f & [= ] & _)]]]].
  - congruence.
  - rewrite Hfix in Hfix'. injection Hfix' as ->. split; [done|].
    unfold added; fields. rewrite std_map_insert_None by done.
    split; [apply lookup_insert_eq|]. exists (loaded_frame p e st).
    destruct (loaded_frame_fields p e st) as (? & ? & ? & ? & ? & ? & ?). done.
  - rewrite Hfix in Hfix'. injection Hfix' as ->. split; [done|].
    unfold replaced; fields.
    rewrite std_map_insert_None by by rewrite lookup_delete_ne.
    split; [apply lookup_insert_eq|]. exists (loaded_frame p e (write_back c g st)).
    destruct (loaded_frame_fields p e (write_back c g st)) as (? & ? & ? & ? & ? & ? & ?).
    done.
  - rewrite Hfix in Hfix'. done.
Qed.

(** X6.  A miss that returns allocates a new frame and leaves every frame
    allocated before, the victim's included, as it was.  The new frame holds
    the page id, is pinned once, clean, locked in the mode asked for, and its
    bytes are those the segment file holds for the page. *)
Theorem miss_allocates_new_frame p e st a st' :
  Inv st →
  bufferMapping st !! p = None →
  fix_page p e st = (Val a, st') →
  a = length (heap st)
  ∧ bufferMapping st' !! p = Some a
  ∧ ∃ f', heap st' = heap st ++ [f']
          ∧ pageId f' = p
          ∧ pageSize f' = bm_pageSize st
          ∧ counter f' = 1
          ∧ mIsDirty f' = false
          ∧ mIsExclusive f' = e
          ∧ data f' = on_disk (disk st') p (bm_pageSize st).
Proof. apply fix_page_miss_new_frame. Qed.

(** X7.  No call and no client write takes a page whose frame has a pin
    count other than zero out of the page table, or maps it to another
    frame. *)
Theorem pinned_page_stays_resident x st st' p a f :
  Inv st →
  act x st = Some st' →
  bufferMapping st !! p = Some a →
  heap st !! a = Some f →
  counter f ≠ 0 →
  bufferMapping st' !! p = Some a.
Proof.
  intros HI Hact Hp Hf Hc. destruct x as [o|b bytes].
  - destruct (step_cases o st st' HI Hact)
      as [(p' & e' & a' & f' & -> & _ & _ & _ & ->)
         |[(p' & e' & -> & Hm & _ & _ & ->)
          |[(p' & e' & b & i & v & c & g & -> & Hm & _ & _ & Hg & Hcg & _ & _ & ->)
           |[(p' & e' & -> & _ & _ & ->)
            |(a' & d & f' & -> & _ & ->)]]]]; try done.
    + unfold added; fields. rewrite std_map_insert_None by done.
      rewrite lookup_insert_ne by congruence. done.
    + assert (p ≠ v).
      { intros ->. apply frame_of_Some in Hg as [Hv Hg]. congruence. }
      unfold replaced; fields.
      rewrite std_map_insert_None by (rewrite lookup_delete_None; auto).
      rewrite lookup_insert_ne by congruence. by rewrite lookup_delete_ne.
  - apply act_WriteData_inv in Hact as (g & _ & _ & ->). done.
Qed.

(** X8.  [unfix_page] makes no disk access: the files are as before and the
    only frame call is [unlockPage], in the mode the frame recorded.  The
    page table and the FIFO queue are unchanged, the LRU queue keeps its
    entries, and the page id of the frame, when it is in the LRU queue, is
    moved to its tail.  The bytes of the frame are unchanged. *)
Theorem unfix_refreshes_lru_only a d f st :
  heap st !! a = Some f →
  ∃ st' f',
    unfix_page a d st = (Val tt, st')
    ∧ disk st' = disk st
    ∧ trace st' = trace st ++ [CallUnlockPage a (mIsExclusive f)]
    ∧ bufferMapping st' = bufferMapping st
    ∧ fifoQueue st' = fifoQueue st
    ∧ lruQueue st' ≡ₚ lruQueue st
    ∧ (pageId f ∈ lruQueue st → last (lruQueue st') = Some (pageId f))
    ∧ (pageId f ∉ lruQueue st → lruQueue st' = lruQueue st)
    ∧ heap st' = <[a := f']> (heap st)
    ∧ data f' = data f ∧ pageId f' = pageId f.
Proof.
  intros Hf.
  exists (released d a f st), (set_mIsDirty d (set_counter (wrap_int64 (counter f - 1)) f)).
  split; [by apply unfix_page_eq|]. unfold released; fields.
  do 4 (split; [done|]).
  split.
  { case_decide as Hin; [|done].
    etrans; [apply Permutation_app_comm|]. simpl. symmetry.
    apply delete_Permutation. by apply std_find_lookup. }
  split; [intros Hin; rewrite decide_True by done; apply last_snoc|].
  split; [intros Hin; by rewrite decide_False by done|].
  done.
Qed.

(** * Calls in sequence *)

Lemma Inv_act x st st' : Inv st → act x st = Some st' → Inv st'.
Proof.
  intros HI Hact. destruct x as [o|a bytes].
  - by eapply Inv_step.
  - apply act_WriteData_inv in Hact as (f & Hf & Hlen & ->).
    apply (Inv_same_shape st); try done.
    unfold set_heap; fields. by rewrite length_insert.
Qed.

Lemma pageCount_act x st st' : Inv st → act x st = Some st' → pageCount st' = pageCount st.
Proof.
  intros HI Hact. destruct x as [o|a bytes].
  - by eapply pageCount_step.
  - by apply act_WriteData_inv in Hact as (f & Hf & Hlen & ->).
Qed.

Lemma Inv_play xs st st' :
  Inv st → play xs st = Some st' → Inv st' ∧ pageCount st' = pageCount st.
Proof.
  revert st. induction xs as [|x xs IH]; intros st HI; simpl.
  - by intros [= <-].
  - destruct (act x st) as [st1|] eqn:E; [|done].
    intros Hplay. destruct (IH st1 (Inv_act _ _ _ HI E) Hplay) as [? Hpc].
    split; [done|]. rewrite Hpc. by eapply pageCount_act.
Qed.

Lemma std_find_snoc (l : list N) x : x ∉ l → std_find x (l ++ [x]) = length l.
Proof.
  induction l as [|y l IH]; simpl; intros Hx.
  - by rewrite decide_True.
  - apply not_elem_of_cons in Hx as [Hne Hx]. rewrite decide_False by done.
    by rewrite IH.
Qed.

Lemma refresh_tail (l : list N) x :
  x ∉ l → delete (std_find x (l ++ [x])) (l ++ [x]) ++ [x] = l ++ [x].
Proof.
  intros Hx. rewrite std_find_snoc by done.
  rewrite (delete_middle l [] x). by rewrite app_nil_r.
Qed.

Lemma wrap_int64_inc_dec c :
  - 2 ^ 63 ≤ c < 2 ^ 63 - 1 → wrap_int64 (wrap_int64 (c + 1) - 1) = c.
Proof.
  intros Hc. rewrite (wrap_int64_small (c + 1)) by lia.
  rewrite wrap_int64_small by lia. lia.
Qed.

(** X9.  [fix_page] on a resident page followed by [unfix_page] on the
    frame it returned leaves the pin count as it was before the two calls,
    the dirty flag as the [unfix_page] says, and the bytes, the page table
    and the files unchanged.  The frame is unlocked in the mode it was locked
    in, and the page id is last in the LRU queue and not in the FIFO
    queue. *)
Theorem fix_then_unfix_resident p e d a f st :
  Inv st →
  bufferMapping st !! p = Some a →
  heap st !! a = Some f →
  pageId f = p →
  - 2 ^ 63 ≤ counter f < 2 ^ 63 - 1 →
  ∃ st1 st2 f2,
    fix_page p e st = (Val a, st1)
    ∧ unfix_page a d st1 = (Val tt, st2)
    ∧ heap st2 = <[a := f2]> (heap st)
    ∧ counter f2 = counter f
    ∧ mIsDirty f2 = d
    ∧ data f2 = data f
    ∧ bufferMapping st2 = bufferMapping st
    ∧ disk st2 = disk st
    ∧ trace st2 = trace st ++ [CallLockPage a e; CallUnlockPage a e]
    ∧ lruQueue st2 = lruQueue st1
    ∧ fifoQueue st2 = fifoQueue st1
    ∧ last (lruQueue st2) = Some p
    ∧ (p ∉ fifoQueue st2).
Proof.
  intros HI Hm Hf Hid Hc.
  assert (Hq : p ∈ fifoQueue st ∨ p ∈ lruQueue st) by (apply inv_queues; by rewrite ?Hm).
  assert (Hl : (a < length (heap st))%nat) by by eapply lookup_lt_Some.
  pose proof (Inv_touched p e a f st HI Hm) as HI1.
  set (f1 := set_mIsExclusive e (set_counter (wrap_int64 (counter f + 1)) f)).
  assert (Hf1 : heap (touched p e a f st) !! a = Some f1).
  { unfold touched; fields. by apply list_lookup_insert_eq. }
  assert (Htail : ∃ l, lruQueue (touched p e a f st) = l ++ [p] ∧ p ∉ l).
  { unfold touched; fields. eexists. split; [done|]. case_decide as Hin.
    - intros Hp. by apply (erase_find_spec _ _ (inv_lru_nodup st HI) Hin) in Hp as [_ ?].
    - done. }
  destruct Htail as (l & Hlru & Hnl).
  exists (touched p e a f st), (released d a f1 (touched p e a f st)),
         (set_mIsDirty d (set_counter (wrap_int64 (counter f1 - 1)) f1)).
  split; [by apply fix_page_hit|].
  split; [by apply unfix_page_eq|].
  assert (Hlru2 : lruQueue (released d a f1 (touched p e a f st))
                  = lruQueue (touched p e a f st)).
  { unfold released; fields. change (pageId f1) with (pageId f). rewrite Hid, Hlru.
    rewrite decide_True by (apply elem_of_app; right; by apply list_elem_of_singleton).
    by apply refresh_tail. }
  split; [unfold released, touched; fields; by rewrite list_insert_insert_eq|].
  split; [by apply wrap_int64_inc_dec|].
  do 4 (split; [done|]).
  split; [unfold released, touched; fields; by rewrite <- app_assoc|].
  split; [done|]. split; [done|].
  split; [rewrite Hlru2, Hlru; apply last_snoc|].
  intros Hpf. apply (inv_disjoint _ HI1 p Hpf). rewrite Hlru.
  apply elem_of_app; right. by apply list_elem_of_singleton.
Qed.

(** X10.  [unfix_page] on the frame a miss returned leaves the new page
    with pin count zero, last in the FIFO queue and not in the LRU queue, and
    unlocks the frame in the mode the miss locked it in. *)
Theorem fix_then_unfix_miss p e d a st st1 :
  Inv st →
  bufferMapping st !! p = None →
  fix_page p e st = (Val a, st1) →
  ∃ st2 f2,
    unfix_page a d st1 = (Val tt, st2)
    ∧ bufferMapping st2 !! p = Some a
    ∧ heap st2 !! a = Some f2
    ∧ counter f2 = 0
    ∧ mIsDirty f2 = d
    ∧ fifoQueue st2 = fifoQueue st1
    ∧ lruQueue st2 = lruQueue st1
    ∧ last (fifoQueue st2) = Some p
    ∧ (p ∉ lruQueue st2)
    ∧ disk st2 = disk st1
    ∧ trace st2 = trace st1 ++ [CallUnlockPage a e].
Proof.
  intros HI Hm Hfix.
  assert (Hstep : step (Fix p e) st = Some st1) by (simpl; by rewrite Hfix).
  assert (HI1 : Inv st1) by by eapply Inv_step.
  assert (Hnew : a = length (heap st)
                 ∧ bufferMapping st1 !! p = Some a
                 ∧ heap st1 = heap st ++ [loaded_frame p e
                       (set_disk (disk st1) st)]
                 ∧ last (fifoQueue st1) = Some p).
  { destruct (step_cases _ st st1 HI Hstep)
      as [(p' & e' & a' & f & [= <- <-] & Hm' & _)
         |[(p' & e' & [= <- <-] & _ & Hs & Hfix' & ->)
          |[(p' & e' & b & i & v & c & g & [= <- <-] & _ & Hs & Hv & Hg & Hc & Hpv & Hfix' & ->)
           |[(p' & e' & [= <- <-] & _ & Hfix' & _)
            |(a' & d' & f & [= ] & _)]]]].
    - congruence.
    - rewrite Hfix in Hfix'. injection Hfix' as ->. unfold added; fields.
      rewrite std_map_insert_None by done.
      split; [done|]. split; [apply lookup_insert_eq|]. split; [done|]. apply last_snoc.
    - rewrite Hfix in Hfix'. injection Hfix' as ->. unfold replaced; fields.
      rewrite std_map_insert_None by by rewrite lookup_delete_ne.
      split; [done|]. split; [apply lookup_insert_eq|]. split; [done|]. apply last_snoc.
    - rewrite Hfix in Hfix'. done. }
  destruct Hnew as (-> & Hp1 & Hheap & Hlast).
  set (f1 := loaded_frame p e (set_disk (disk st1) st)) in *.
  assert (Hf1 : heap st1 !! length (heap st) = Some f1).
  { rewrite Hheap. apply lookup_new_frame. }
  assert (Hnl : p ∉ lruQueue st1).
  { apply (inv_disjoint _ HI1). by apply last_Some_elem_of. }
  exists (released d (length (heap st)) f1 st1),
         (set_mIsDirty d (set_counter (wrap_int64 (counter f1 - 1)) f1)).
  split; [by apply unfix_page_eq|]. unfold released; fields.
  split; [done|].
  split; [apply list_lookup_insert_eq; by eapply lookup_lt_Some|].
  split; [reflexivity|]. split; [done|]. split; [done|].
  change (pageId f1) with p. rewrite decide_False by done.
  done.
Qed.

(** X11.  A manager constructed with [page_count] zero never holds a page:
    whatever was called before, every [fix_page] throws [buffer_full_error]
    and changes nothing. *)
Theorem zero_page_count_always_full xs page_size st p e :
  play xs (new_BufferManager page_size 0) = Some st →
  bufferMapping st = ∅
  ∧ fix_page p e st = (Throw buffer_full_error, st).
Proof.
  intros Hplay.
  destruct (Inv_play xs _ st (Inv_new page_size 0) Hplay) as [HI Hpc]. simpl in Hpc.
  assert (Hempty : bufferMapping st = ∅).
  { apply map_size_empty_inv. pose proof (inv_size st HI). lia. }
  split; [done|].
  assert (Hq : ∀ b, scanned b st = []).
  { intros b. destruct (scanned b st) as [|q l] eqn:E; [done|].
    assert (Hin : q ∈ queue b st).
    { apply list_elem_of_lookup. exists 0%nat. apply scanned_lookup. by rewrite E. }
    assert (is_Some (bufferMapping st !! q)) as [? Hx].
    { apply inv_queues; [done|]. destruct b; auto. }
    by rewrite Hempty, lookup_empty in Hx. }
  rewrite fix_page_full; try done.
  - by rewrite !Hq.
  - by rewrite Hempty, lookup_empty.
  - by rewrite Hempty, map_size_empty, Hpc.
Qed.

Lemma zero_page_count_always_full_witness :
  fix_page 1 true (new_BufferManager 16 0)
  = (Throw buffer_full_error, new_BufferManager 16 0).
Proof.
  apply (zero_page_count_always_full [] 16 (new_BufferManager 16 0) 1 true).
  reflexivity.
Defined.

(** X12.  In every state that calls on a new manager lead to, [fix_page]
    ends in one of three ways: it returns a frame; it throws
    [buffer_full_error] and leaves everything as it was; or, when the page is
    resident and its frame lock is owned in a way that excludes the mode
    asked for, it waits in [lockPage], the frame already pinned and the page
    already moved to the tail of the LRU queue.  It never throws
    [std::out_of_range] from [bufferMapping.at], and never erases an end
    iterator, indexes a queue out of range or touches a deleted frame. *)
Theorem fix_page_ends_in_three_ways ops page_size page_count st ms p e :
  run_mx ops (new_BufferManager_mx page_size page_count) = Some (st, ms) →
  (∃ a s', fix_page_mx p e (st, ms) = (Returns a, s'))
  ∨ fix_page_mx p e (st, ms) = (Throws buffer_full_error, (st, ms))
  ∨ (∃ a f m,
       frame_of st p = Some (a, f)
       ∧ mutex_of ms a = Some m
       ∧ locked e m = None
       ∧ fix_page_mx p e (st, ms) = (Waits a, (at_lock p a f st, ms))).
Proof.
  intros Hrun.
  apply run_mx_run in Hrun as (_ & HI & HA); [|apply Inv_new|apply Alive_new].
  cbn [fst] in HI.
  destruct (bufferMapping st !! p) as [a|] eqn:Hm.
  - destruct (lookup_lt_is_Some_2 (heap st) a) as [f Hf]; [by eapply inv_heap|].
    assert (Hq : p ∈ fifoQueue st ∨ p ∈ lruQueue st) by (apply inv_queues; by rewrite ?Hm).
    destruct (Alive_mutex_of st ms a HA) as [m Hmx]; [by eapply lookup_lt_Some|].
    rewrite (fix_page_mx_hit p e a f) by done. rewrite Hmx.
    destruct (locked e m) as [m'|] eqn:Hlk; [left; eauto|].
    right. right. exists a, f, m. split; [by apply frame_of_Some|]. done.
  - rewrite fix_page_mx_miss by (try done; apply HA).
    destruct (fix_page_outcome p e st HI) as [(a & st' & ->)| ->]; [left; eauto|].
    by right; left.
Qed.

Lemma fix_page_ends_in_three_ways_witness :
  let s := after_mx [Fix 1 true] 4 1 in
  ∃ f, frame_of s.1 1 = Some (0%nat, f)
       ∧ counter f = 1
       ∧ fix_page_mx 1 true (s.1, s.2) = (Waits 0%nat, (at_lock 1 0%nat f s.1, s.2)).
Proof.
  intros s.
  assert (Hrun : run_mx [Fix 1 true] (new_BufferManager_mx 4 1) = Some (s.1, s.2))
    by (vm_compute; reflexivity).
  assert (Hf : ∃ f, frame_of s.1 1 = Some (0%nat, f) ∧ counter f = 1).
  { eexists. split; [vm_compute; reflexivity | reflexivity]. }
  assert (Hw : ∃ s', fix_page_mx 1 true (s.1, s.2) = (Waits 0%nat, s')).
  { eexists. vm_compute. reflexivity. }
  clearbody s. destruct Hf as (f & Hf & Hc). destruct Hw as (s' & Hw).
  exists f. split; [exact Hf|]. split; [exact Hc|].
  destruct (fix_page_ends_in_three_ways [Fix 1 true] 4 1 s.1 s.2 1 true Hrun)
    as [(a & s0 & H)|[H|(a & g & m & Hg & _ & _ & H)]].
  - rewrite Hw in H. congruence.
  - rewrite Hw in H. congruence.
  - assert (a = 0%nat ∧ g = f) as [-> ->] by (split; congruence). exact H.
Defined.

(** X13.  The page table never shrinks: over any actions of a client the
    number of resident pages does not decrease (an eviction replaces one page
    by another, and nothing else removes a page). *)
Theorem page_table_never_shrinks xs st st' :
  Inv st →
  play xs st = Some st' →
  (size (bufferMapping st) ≤ size (bufferMapping st'))%nat.
Proof.
  revert st. induction xs as [|x xs IH]; intros st HI; simpl.
  - by intros [= <-].
  - destruct (act x st) as [st1|] eqn:E; [|done].
    intros Hplay. etrans; [|apply (IH st1); [by eapply Inv_act | done]].
    destruct x as [o|a bytes].
    + destruct (step_cases o st st1 HI E)
        as [(p' & e' & a' & f' & -> & _ & _ & _ & ->)
           |[(p' & e' & -> & Hm & _ & _ & ->)
            |[(p' & e' & b & i & v & c & g & -> & Hm & _ & Hv & Hg & _ & Hpv & _ & ->)
             |[(p' & e' & -> & _ & _ & ->)
              |(a' & d & f' & -> & _ & ->)]]]]; try done.
      * unfold added; fields. rewrite std_map_insert_None by done.
        rewrite map_size_insert_None by done. lia.
      * unfold replaced, write_back, set_disk, set_trace; fields.
        rewrite std_map_insert_None by (rewrite lookup_delete_None; auto).
        rewrite map_size_insert_None by (rewrite lookup_delete_None; auto).
        apply frame_of_Some in Hg as [Hvm _].
        rewrite map_size_delete_Some by eauto.
        assert (size (bufferMapping st) ≠ 0%nat); [|lia].
        apply map_size_ne_0_lookup_2 with v. eauto.
    + by apply act_WriteData_inv in E as (g & _ & _ & ->).
Qed.

(** * When the buffer is full *)

(** X14.  [fix_page] throws [buffer_full_error] exactly when the page is
    not resident, the page table holds [page_count] entries and no resident
    page has pin count zero. *)
Theorem buffer_full_exactly_when p e st :
  Inv st →
  (pageCount st < 2 ^ 31)%N →
  (fix_page p e st).1 = Throw buffer_full_error
  ↔ bufferMapping st !! p = None
    ∧ N.of_nat (size (bufferMapping st)) = pageCount st
    ∧ ∀ q, is_Some (bufferMapping st !! q) → pin_count st q ≠ Some 0.
Proof.
  intros HI Hpc. split.
  - intros Hthrow. destruct (bufferMapping st !! p) as [a|] eqn:Hm.
    { destruct (lookup_lt_is_Some_2 (heap st) a) as [f Hf]; [by eapply inv_heap|].
      rewrite (fix_page_hit p e a f) in Hthrow
        by (try done; apply inv_queues; by rewrite ?Hm). done. }
    destruct (decide (N.of_nat (size (bufferMapping st)) = pageCount st)) as [Hs|Hs];
      [|by rewrite fix_page_add in Hthrow].
    rewrite fix_page_full, !scanned_all in Hthrow by done.
    destruct (list_find _ (queue true st)) as [[i v]|] eqn:E1; [done|].
    destruct (list_find _ (queue false st)) as [[i v]|] eqn:E2; [done|].
    apply list_find_None in E1, E2. rewrite Forall_forall in E1, E2.
    repeat split; try done. intros q Hq.
    apply (inv_queues st HI) in Hq as [Hq|Hq]; [by apply E1 | by apply E2].
  - intros (Hm & Hs & Hall).
    rewrite fix_page_full, !scanned_all by done.
    assert (Hnone : ∀ b, list_find (unpinned st) (queue b st) = None).
    { intros b. apply list_find_None, Forall_forall. intros q Hq. apply Hall.
      apply inv_queues; [done|]. destruct b; auto. }
    by rewrite !Hnone.
Qed.

(** * Bytes on disk *)

Lemma on_disk_act x st st' q :
  Sound st →
  (bm_pageSize st ≤ 2 ^ 16)%N →
  act x st = Some st' →
  (q < 2 ^ 64)%N →
  (is_Some (bufferMapping st !! q) → is_Some (bufferMapping st' !! q)) →
  on_disk (disk st') q (bm_pageSize st) = on_disk (disk st) q (bm_pageSize st).
Proof.
  intros (HI & [HF HT] & HN) Hps Hact Hq Hkeep. destruct x as [o|b bytes].
  - destruct (step_cases o st st' HI Hact)
      as [(p' & e' & a' & f' & -> & _ & _ & _ & ->)
         |[(p' & e' & -> & Hm & _ & _ & ->)
          |[(p' & e' & b & i & v & c & g & -> & Hm & _ & _ & Hg & _ & Hpv & _ & ->)
           |[(p' & e' & -> & _ & _ & ->)
            |(a' & d & f' & -> & _ & ->)]]]]; try done.
    apply frame_of_Some in Hg as [Hv Hg].
    assert (Hgid : pageId g = v) by by eapply HT.
    assert (Hgps : pageSize g = bm_pageSize st).
    { rewrite Forall_lookup in HF. by apply (HF c g). }
    assert (q ≠ v).
    { intros ->. destruct Hkeep as [x Hx]; [eauto|].
      revert Hx. unfold replaced, write_back, set_disk, set_trace; fields.
      rewrite std_map_insert_None by (rewrite lookup_delete_None; auto).
      rewrite lookup_insert_ne by done. by rewrite lookup_delete_eq. }
    change (disk (replaced p' e' b i v (write_back c g st)))
      with (disk (write_back c g st)).
    rewrite <- Hgps. apply on_disk_write_back_other; rewrite ?Hgid, ?Hgps; try done.
    apply HN. eauto.
  - by apply act_WriteData_inv in Hact as (g & _ & _ & ->).
Qed.

Lemma nonresident_act x st st' v :
  Inv st →
  not_fix v x →
  act x st = Some st' →
  bufferMapping st !! v = None →
  bufferMapping st' !! v = None.
Proof.
  intros HI Hnf Hact Hv. destruct x as [o|b bytes].
  - destruct (step_cases o st st' HI Hact)
      as [(p' & e' & a' & f' & -> & _ & _ & _ & ->)
         |[(p' & e' & -> & Hm & _ & _ & ->)
          |[(p' & e' & b & i & w & c & g & -> & Hm & _ & _ & Hg & _ & Hpv & _ & ->)
           |[(p' & e' & -> & _ & _ & ->)
            |(a' & d & f' & -> & _ & ->)]]]]; try done; simpl in Hnf.
    + unfold added; fields. rewrite std_map_insert_None by done.
      by rewrite lookup_insert_ne.
    + unfold replaced, write_back, set_disk, set_trace; fields.
      rewrite std_map_insert_None by (rewrite lookup_delete_None; auto).
      rewrite lookup_insert_ne by done. rewrite lookup_delete_None. auto.
  - by apply act_WriteData_inv in Hact as (g & _ & _ & ->).
Qed.

Lemma on_disk_play xs st st' v :
  Sound st →
  (bm_pageSize st ≤ 2 ^ 16)%N →
  Forall action_id_ok xs →
  Forall (not_fix v) xs →
  (v < 2 ^ 64)%N →
  bufferMapping st !! v = None →
  play xs st = Some st' →
  Sound st'
  ∧ bm_pageSize st' = bm_pageSize st
  ∧ bufferMapping st' !! v = None
  ∧ on_disk (disk st') v (bm_pageSize st) = on_disk (disk st) v (bm_pageSize st).
Proof.
  intros HS Hps Hok Hnf Hv. revert st HS Hps.
  induction Hok as [|x xs Hx _ IH]; intros st HS Hps Hm; simpl.
  - by intros [= <-].
  - apply Forall_cons in Hnf as [Hnx Hnf].
    destruct (act x st) as [st1|] eqn:E; [|done]. intros Hplay.
    destruct (Sound_act x st st1 HS Hx E) as [HS1 Hbm].
    assert (Hm1 : bufferMapping st1 !! v = None).
    { eapply nonresident_act; try done. apply HS. }
    assert (Hd1 : on_disk (disk st1) v (bm_pageSize st) = on_disk (disk st) v (bm_pageSize st)).
    { apply (on_disk_act x); try done. rewrite Hm. by intros [? ?]. }
    destruct (IH Hnf st1 HS1) as (? & Hbm2 & ? & Hd2); try done; [by rewrite Hbm|].
    split; [done|]. split; [congruence|]. split; [done|].
    rewrite Hbm in Hd2. congruence.
Qed.

(** X15.  The bytes of an evicted page come back.  When a call of
    [fix_page] evicts page [v], whose frame held the bytes [data g], then
    after any further actions that do not fix [v], a [fix_page] on [v] that
    returns gives a frame that holds those bytes (pages of at most 2^16
    bytes, segment files as described for [on_disk]). *)
Theorem evicted_bytes_come_back q e v b g st0 st1 xs st2 e' a st3 :
  Sound st0 →
  (bm_pageSize st0 ≤ 2 ^ 16)%N →
  (q < 2 ^ 64)%N →
  bufferMapping st0 !! v = Some b →
  heap st0 !! b = Some g →
  step (Fix q e) st0 = Some st1 →
  bufferMapping st1 !! v = None →
  Forall action_id_ok xs →
  Forall (not_fix v) xs →
  play xs st1 = Some st2 →
  fix_page v e' st2 = (Val a, st3) →
  ∃ f, heap st3 !! a = Some f ∧ pageId f = v ∧ data f = data g.
Proof.
  intros HS0 Hps Hq Hv Hg Hstep Hgone Hok Hnf Hplay Hfix.
  pose proof HS0 as (HI0 & [HF0 HT0] & HN0).
  assert (Hv64 : (v < 2 ^ 64)%N) by (apply HN0; eauto).
  destruct (Sound_step (Fix q e) st0 st1 HS0 Hq Hstep) as [HS1 Hbm1].
  assert (Hd1 : on_disk (disk st1) v (bm_pageSize st0) = data g).
  { destruct (step_cases _ st0 st1 HI0 Hstep)
      as [(p' & e0 & a' & f' & _ & _ & _ & _ & ->)
         |[(p' & e0 & [= <- <-] & Hm & _ & _ & ->)
          |[(p' & e0 & c & i & w & c' & g' & [= <- <-] & Hm & _ & _ & Hg' & _ & Hpv & _ & ->)
           |[(p' & e0 & _ & _ & _ & ->)
            |(a' & d & f' & [= ] & _)]]]].
    - unfold touched in Hgone; cbn [bufferMapping] in Hgone. congruence.
    - revert Hgone. unfold added; fields. rewrite std_map_insert_None by done.
      rewrite lookup_insert_None. intros [? _]. congruence.
    - apply frame_of_Some in Hg' as [Hw Hg'].
      assert (w = v) as ->.
      { revert Hgone. unfold replaced, write_back, set_disk, set_trace; fields.
        rewrite std_map_insert_None by (rewrite lookup_delete_None; auto).
        rewrite lookup_insert_None, lookup_delete_None. intros [[?|?] _]; congruence. }
      assert (c' = b) as -> by congruence. assert (g' = g) as -> by congruence.
      assert (Hgid : pageId g = v) by by eapply HT0.
      rewrite Forall_lookup in HF0. destruct (HF0 b g Hg) as [Hgps Hglen].
      change (disk (replaced q e c i v (write_back b g st0)))
        with (disk (write_back b g st0)).
      rewrite <- Hgid, <- Hgps. apply on_disk_write_back_same. by rewrite Hgps.
    - congruence. }
  rewrite <- Hbm1 in Hps, Hd1.
  destruct (on_disk_play xs st1 st2 v HS1 Hps Hok Hnf Hv64 Hgone Hplay)
    as (HS2 & Hbm2 & Hm2 & Hd2).
  rewrite <- Hbm2 in Hps, Hd1, Hd2.
  assert (Hstep3 : act (Call (Fix v e')) st2 = Some st3) by (simpl; by rewrite Hfix).
  assert (Hd3 : on_disk (disk st3) v (bm_pageSize st2) = on_disk (disk st2) v (bm_pageSize st2)).
  { apply (on_disk_act (Call (Fix v e'))); try done. rewrite Hm2. by intros [? ?]. }
  destruct (fix_page_miss_new_frame v e' st2 a st3 (proj1 HS2) Hm2 Hfix)
    as (-> & Hm3 & f & Hheap & Hid & _ & _ & _ & _ & Hdata).
  exists f. split; [rewrite Hheap; apply lookup_new_frame|]. split; [done|]. congruence.
Qed.

(** * The destructor *)

Lemma omap_ext_all {A B} (f g : A → option B) (l : list A) :
  (∀ x, f x = g x) → omap f l = omap g l.
Proof.
  intros H. induction l as [|x l IH]; [done|].
  change (match f x with Some y => y :: omap f l | None => omap f l end
          = match g x with Some y => y :: omap g l | None => omap g l end).
  by rewrite H, IH.
Qed.

Lemma omap_cons_eq {A B} (f : A → option B) x (l : list A) :
  omap f (x :: l) = match f x with Some y => y :: omap f l | None => omap f l end.
Proof. done. Qed.

Lemma omap_fmap_commute {A B C} (f : A → option C) (h : A → option B) (g : B → C)
    (l : list A) :
  (∀ x, f x = g <$> h x) → omap f l = g <$> omap h l.
Proof.
  intros H. induction l as [|x l IH]; [done|].
  rewrite !omap_cons_eq, H. destruct (h x); simpl; by rewrite IH.
Qed.

Lemma NoDup_fst_omap {A B} (h : N * A → option (N * B)) (l : list (N * A)) :
  (∀ x y, h x = Some y → y.1 = x.1) → NoDup l.*1 → NoDup (omap h l).*1.
Proof.
  intros H. induction l as [|x l IH]; [done|].
  rewrite omap_cons_eq, fmap_cons. intros [Hx Hnd]%NoDup_cons.
  destruct (h x) as [y|] eqn:E; [|by apply IH].
  rewrite fmap_cons. apply NoDup_cons. split; [|by apply IH].
  rewrite (H x y E). intros Hin. apply Hx.
  apply list_elem_of_fmap in Hin as (z & Hz & Hin).
  apply list_elem_of_omap in Hin as (w & Hw & Hhw).
  apply list_elem_of_fmap. exists w. split; [|done]. rewrite Hz. by apply H.
Qed.

Lemma flush_event_heap st st1 entry :
  heap st1 = heap st → flush_event st1 entry = flush_event st entry.
Proof. intros H. unfold flush_event. by rewrite H. Qed.

Lemma flush_entries_spec l ps :
  (ps ≤ 2 ^ 16)%N →
  ∀ st,
  NoDup l.*1 →
  (∀ k a, (k, a) ∈ l →
     ∃ f, heap st !! a = Some f ∧ pageId f = k ∧ pageSize f = ps
          ∧ length (data f) = N.to_nat ps ∧ (k < 2 ^ 64)%N) →
  ∃ st',
    flush_entries l st = (Val tt, st')
    ∧ heap st' = heap st
    ∧ bufferMapping st' = bufferMapping st
    ∧ fifoQueue st' = fifoQueue st
    ∧ lruQueue st' = lruQueue st
    ∧ trace st' = trace st ++ omap (flush_event st) l
    ∧ (∀ k a f, (k, a) ∈ l → heap st !! a = Some f → mIsDirty f = true →
                on_disk (disk st') k ps = data f)
    ∧ (∀ q, (q < 2 ^ 64)%N →
            (∀ a f, (q, a) ∈ l → heap st !! a = Some f → mIsDirty f = false) →
            on_disk (disk st') q ps = on_disk (disk st) q ps).
Proof.
  intros Hsmall. induction l as [|[k a] l IH]; intros st Hnd Hl; simpl.
  - exists st. unfold ret. rewrite app_nil_r. repeat split; try done.
    intros ? ? ? ?%elem_of_nil. done.
  - apply NoDup_cons in Hnd as [Hk Hnd].
    destruct (Hl k a) as (f & Hf & Hid & Hps & Hlen & Hk64); [left|].
    unfold bind at 1, load. rewrite Hf.
    assert (Hstep : ∃ st1,
      (if mIsDirty f then writeDisk a else ret tt) st = (Val tt, st1)
      ∧ heap st1 = heap st ∧ bufferMapping st1 = bufferMapping st
      ∧ fifoQueue st1 = fifoQueue st ∧ lruQueue st1 = lruQueue st
      ∧ trace st1 = trace st ++ option_list (flush_event st (k, a))
      ∧ (mIsDirty f = true → on_disk (disk st1) k ps = data f)
      ∧ (∀ q, (q < 2 ^ 64)%N → (q = k → mIsDirty f = false) →
          on_disk (disk st1) q ps = on_disk (disk st) q ps)).
    { unfold flush_event; cbn [snd]. rewrite Hf. destruct (mIsDirty f) eqn:Hd.
      - exists (write_back a f st). split; [by apply writeDisk_eq|].
        do 5 (split; [done|]). split.
        + intros _. rewrite <- Hid, <- Hps. apply on_disk_write_back_same. by rewrite Hps.
        + intros q Hq Hqk. rewrite <- Hps.
          apply on_disk_write_back_other; rewrite ?Hid, ?Hps; try done.
          intros ->. by specialize (Hqk eq_refl).
      - exists st. unfold ret. simpl. rewrite app_nil_r. repeat split; done. }
    destruct Hstep as (st1 & Hrun & Hh1 & Hm1 & Hf1 & Hl1 & Ht1 & Hsame1 & Hother1).
    unfold bind at 1. rewrite Hrun.
    destruct (IH st1 Hnd) as (st' & Hrun' & Hh & Hm & Hfq & Hlq & Ht & Hsame & Hother).
    { intros k' a' Hin. rewrite Hh1. apply Hl. by right. }
    assert (Hk_l : ∀ a' f', (k, a') ∈ l → heap st1 !! a' = Some f' → mIsDirty f' = false).
    { intros a' f' Hin. exfalso. apply Hk. apply list_elem_of_fmap. by exists (k, a'). }
    exists st'. split; [done|].
    split; [congruence|]. split; [congruence|]. split; [congruence|]. split; [congruence|].
    split.
    { rewrite Ht, Ht1, <- app_assoc. f_equal.
      rewrite (omap_ext_all (flush_event st1) (flush_event st))
        by (intros; by apply flush_event_heap).
      by destruct (flush_event st (k, a)). }
    split.
    + intros k' a' f' [[= -> ->]|Hin]%elem_of_cons Hf' Hd'.
      * assert (f' = f) as -> by congruence.
        rewrite (Hother k Hk64 Hk_l). by apply Hsame1.
      * apply (Hsame k' a' f'); [done | by rewrite Hh1 | done].
    + intros q Hq Hclean. rewrite Hother; [apply Hother1; [done|]|done|].
      * intros ->. apply (Hclean a f); [left | done].
      * intros a' f' Hin Hf'. apply (Hclean a' f'); [by right | by rewrite <- Hh1].
Qed.

Lemma sorted_entries (m : gmap N addr) :
  NoDup (merge_sort key_le (map_to_list m)).*1
  ∧ ∀ k a, (k, a) ∈ merge_sort key_le (map_to_list m) ↔ m !! k = Some a.
Proof.
  pose proof (merge_sort_Permutation key_le (map_to_list m)) as Hp. split.
  - rewrite Hp. apply NoDup_fst_map_to_list.
  - intros k a. rewrite Hp. apply elem_of_map_to_list.
Qed.

Lemma destroy_spec st :
  Sound st →
  (bm_pageSize st ≤ 2 ^ 16)%N →
  ∃ st',
    destroy st = (Val tt, st')
    ∧ heap st' = heap st
    ∧ bufferMapping st' = bufferMapping st
    ∧ fifoQueue st' = fifoQueue st
    ∧ lruQueue st' = lruQueue st
    ∧ trace st'
      = trace st ++ omap (flush_event st) (merge_sort key_le (map_to_list (bufferMapping st)))
    ∧ (∀ k a f, bufferMapping st !! k = Some a → heap st !! a = Some f →
                mIsDirty f = true → on_disk (disk st') k (bm_pageSize st) = data f)
    ∧ (∀ q, (q < 2 ^ 64)%N → ¬ resident_dirty st q →
            on_disk (disk st') q (bm_pageSize st) = on_disk (disk st) q (bm_pageSize st)).
Proof.
  intros (HI & [HF HT] & HN) Hsmall.
  destruct (sorted_entries (bufferMapping st)) as [Hnd Hin].
  destruct (flush_entries_spec (merge_sort key_le (map_to_list (bufferMapping st)))
              (bm_pageSize st) Hsmall st Hnd)
    as (st' & Hrun & Hh & Hm & Hfq & Hlq & Ht & Hsame & Hother).
  { intros k a Hka%Hin.
    destruct (lookup_lt_is_Some_2 (heap st) a) as [f Hf]; [by eapply inv_heap|].
    exists f. rewrite Forall_lookup in HF. destruct (HF a f Hf) as [? ?].
    repeat split; try done; [by eapply HT | apply HN; eauto]. }
  exists st'. unfold destroy, bind, get. split; [done|].
  do 5 (split; [done|]). split.
  - intros k a f Hk Hf Hd. apply (Hsame k a f); [by apply Hin | done | done].
  - intros q Hq Hnd'. apply Hother; [done|]. intros a f Hqa%Hin Hf.
    destruct (mIsDirty f) eqn:Hd; [|done]. exfalso. apply Hnd'.
    unfold resident_dirty. by rewrite (proj2 (frame_of_Some st q a f) (conj Hqa Hf)).
Qed.

Lemma flush_entries_trace l :
  ∀ st,
  (∀ k a, (k, a) ∈ l → is_Some (heap st !! a)) →
  ∃ st',
    flush_entries l st = (Val tt, st')
    ∧ heap st' = heap st
    ∧ bufferMapping st' = bufferMapping st
    ∧ fifoQueue st' = fifoQueue st
    ∧ lruQueue st' = lruQueue st
    ∧ trace st' = trace st ++ omap (flush_event st) l.
Proof.
  induction l as [|[k a] l IH]; intros st Hl.
  - exists st. simpl. unfold ret. by rewrite app_nil_r.
  - destruct (Hl k a) as [f Hf]; [left|].
    cbn [flush_entries]. unfold bind at 1, load. cbn [snd]. rewrite Hf.
    rewrite omap_cons_eq. unfold flush_event at 1. cbn [snd]. rewrite Hf.
    destruct (mIsDirty f) eqn:Hd.
    + unfold bind at 1. rewrite (writeDisk_eq a f st Hf).
      destruct (IH (write_back a f st)) as (st' & Hrun & Hh & Hm & Hfq & Hlq & Ht).
      { intros k' a' Hin. apply (Hl k' a'). by right. }
      exists st'. split; [done|]. do 4 (split; [done|]).
      rewrite Ht. unfold write_back at 1, set_disk, set_trace; fields.
      by rewrite <- app_assoc.
    + unfold bind at 1, ret at 1.
      destruct (IH st) as (st' & Hrun & Hh & Hm & Hfq & Hlq & Ht).
      { intros k' a' Hin. apply (Hl k' a'). by right. }
      exists st'. done.
Qed.

Lemma destroy_writes st :
  Inv st →
  ∃ st' written,
    destroy st = (Val tt, st')
    ∧ bufferMapping st' = bufferMapping st
    ∧ fifoQueue st' = fifoQueue st
    ∧ lruQueue st' = lruQueue st
    ∧ trace st' = trace st ++ ((λ paf : N * (addr * BufferFrame),
                                  CallWriteDisk paf.2.1 paf.2.2) <$> written)
    ∧ NoDup written.*1
    ∧ ∀ p a f, (p, (a, f)) ∈ written
               ↔ frame_of st p = Some (a, f) ∧ mIsDirty f = true.
Proof.
  intros HI.
  destruct (sorted_entries (bufferMapping st)) as [Hnd Hin].
  destruct (flush_entries_trace (merge_sort key_le (map_to_list (bufferMapping st))) st)
    as (st' & Hrun & Hh & Hm & Hfq & Hlq & Ht).
  { intros k a Hka%Hin. apply lookup_lt_is_Some_2. by eapply inv_heap. }
  assert (Hdestroy : destroy st = (Val tt, st')) by (by unfold destroy, bind, get).
  clear Hrun. revert Ht Hnd Hin.
  generalize (merge_sort key_le (map_to_list (bufferMapping st))).
  intros l Ht Hnd Hin.
  exists st', (omap (λ ka : N * addr,
                 match heap st !! ka.2 with
                 | Some f => if mIsDirty f then Some (ka.1, (ka.2, f)) else None
                 | None => None
                 end) l).
  do 4 (split; [done|]).
  assert (Hmem : ∀ p a f,
    (p, (a, f)) ∈ omap (λ ka : N * addr,
                 match heap st !! ka.2 with
                 | Some f => if mIsDirty f then Some (ka.1, (ka.2, f)) else None
                 | None => None
                 end) l
    ↔ (p, a) ∈ l ∧ heap st !! a = Some f ∧ mIsDirty f = true).
  { intros p a f. rewrite list_elem_of_omap. split.
    - intros ([k b] & Hkb & Heq). cbn [fst snd] in Heq.
      destruct (heap st !! b) as [g|] eqn:Hg; [|done].
      destruct (mIsDirty g) eqn:Hd; [|done]. by injection Heq as -> -> ->.
    - intros (Hpa & Hf & Hd). exists (p, a). split; [done|]. cbn [fst snd].
      by rewrite Hf, Hd. }
  split; [|split].
  - rewrite Ht. f_equal. apply omap_fmap_commute. intros [k b].
    unfold flush_event. cbn [fst snd]. destruct (heap st !! b) as [g|]; [|done].
    by destruct (mIsDirty g).
  - apply NoDup_fst_omap; [|done]. intros [k b] y. cbn [fst snd].
    destruct (heap st !! b) as [g|]; [|done]. destruct (mIsDirty g); [|done].
    by intros [= <-].
  - intros p a f. rewrite Hmem, Hin, frame_of_Some. tauto.
Qed.

Lemma NoDup_snd_entries (l : list (N * addr)) :
  NoDup l.*1 →
  (∀ k k' a, (k, a) ∈ l → (k', a) ∈ l → k = k') →
  NoDup l.*2.
Proof.
  induction l as [|[k a] l IH]; [constructor|].
  rewrite !fmap_cons. cbn [fst snd]. intros [Hk Hnd]%NoDup_cons Hinj.
  apply NoDup_cons. split.
  - intros Ha. apply list_elem_of_fmap in Ha as ([k' a'] & Heq & Hin).
    cbn [snd] in Heq. subst a'. apply Hk.
    rewrite (Hinj k k' a); [|left|by right].
    apply list_elem_of_fmap. by exists (k', a).
  - apply IH; [done|]. intros k1 k2 b H1 H2. apply (Hinj k1 k2 b); by right.
Qed.

(** X16.  When no frame lock is owned, the destructor completes: it calls
    [writeDisk] once for every resident page whose dirty flag is set and for
    no other frame, and it deletes the frame of every resident page and no
    other frame (the frames of evicted pages stay allocated). *)
Theorem destructor_writes_and_deletes st ms :
  Inv st →
  FrameInv st →
  length ms = length (heap st) →
  all_unowned ms = true →
  ∃ st' ms' written,
    destroy_mx (st, ms) = (Returns tt, (st', ms'))
    ∧ trace st' = trace st ++ ((λ paf : N * (addr * BufferFrame),
                                  CallWriteDisk paf.2.1 paf.2.2) <$> written)
    ∧ NoDup written.*1
    ∧ (∀ p a f, (p, (a, f)) ∈ written
                ↔ frame_of st p = Some (a, f) ∧ mIsDirty f = true)
    ∧ length ms' = length ms
    ∧ (∀ p a, bufferMapping st !! p = Some a → ms' !! a = Some None)
    ∧ (∀ a, (∀ p, bufferMapping st !! p ≠ Some a) → ms' !! a = ms !! a).
Proof.
  intros HI [_ HT] Hlen Hfree.
  destruct (destroy_writes st HI)
    as (st' & written & Hrun & _ & _ & _ & Htr & Hnd & Hmem).
  destruct (sorted_entries (bufferMapping st)) as [Hnd1 Hin].
  destruct (flush_entries_mx_spec (merge_sort key_le (map_to_list (bufferMapping st))) st ms)
    as (st1 & ms' & Hmx & Hbase & Hlen' & Hdel & Hkeep).
  { apply NoDup_snd_entries; [done|]. intros k k' a Hk%Hin Hk'%Hin.
    destruct (lookup_lt_is_Some_2 (heap st) a) as [f Hf]; [by eapply inv_heap|].
    rewrite <- (HT k a f Hk Hf). by apply (HT k' a f). }
  { intros k a Hk%Hin.
    assert (Ha : (a < length (heap st))%nat) by by eapply inv_heap.
    split; [by apply lookup_lt_is_Some_2|].
    apply all_unowned_lookup; [done | lia]. }
  assert (st1 = st') as ->.
  { unfold destroy, bind, get in Hrun. rewrite Hbase in Hrun. by injection Hrun. }
  exists st', ms', written. split; [exact Hmx|]. do 4 (split; [done|]). split.
  - intros p a Hp. apply Hdel. apply list_elem_of_fmap. exists (p, a). split; [done|].
    by apply Hin.
  - intros a Ha. apply Hkeep. intros Hin'.
    apply list_elem_of_fmap in Hin' as ([k b] & Heq & Hkb). cbn [snd] in Heq. subst b.
    apply (Ha k). by apply Hin.
Qed.

(** X17.  After the destructor the segment files hold the bytes of every
    resident page whose dirty flag was set, and the bytes the files held for
    any other page are unchanged (pages of at most 2^16 bytes). *)
Theorem destructor_makes_dirty_pages_durable st :
  Sound st →
  (bm_pageSize st ≤ 2 ^ 16)%N →
  ∃ st',
    destroy st = (Val tt, st')
    ∧ (∀ p a f, frame_of st p = Some (a, f) → mIsDirty f = true →
                on_disk (disk st') p (bm_pageSize st) = data f)
    ∧ (∀ q, (q < 2 ^ 64)%N → ¬ resident_dirty st q →
            on_disk (disk st') q (bm_pageSize st) = on_disk (disk st) q (bm_pageSize st)).
Proof.
  intros HS Hsmall.
  destruct (destroy_spec st HS Hsmall) as (st' & Hrun & _ & _ & _ & _ & _ & Hsame & Hother).
  exists st'. split; [done|]. split; [|done].
  intros p a f [Hp Hf]%frame_of_Some Hd. by apply (Hsame p a f).
Qed.

(** X18.  A call of [fix_page] or [unfix_page] that returns, or throws
    [buffer_full_error], when the frame locks are taken into account, does
    to the frames, the page table, the queues, the files and the log of
    frame calls what the same call does without the locks; the locks decide
    only whether the call returns.  The invariant of the page table and the
    queues holds afterwards, and every frame still has its mutex. *)
Theorem calls_with_locks_agree o st ms st' ms' :
  Inv st →
  Alive (st, ms) →
  step_mx o (st, ms) = Some (st', ms') →
  step o st = Some st' ∧ Inv st' ∧ Alive (st', ms').
Proof.
  intros HI HA Hstep.
  destruct (step_mx_step o st ms _ HI HA Hstep) as [Hbase HA'].
  cbn [fst] in Hbase. split; [done|]. split; [by eapply Inv_step | done].
Qed.

(** X19.  After calls on a new manager that have all returned, fewer than
    2^63 of them, the pin count of every frame is the number of owners of
    its lock; a lock that is owned exclusively has no other owner; the mode
    recorded in a frame whose lock is owned is the mode of the owners; and a
    frame whose pin count is zero has a free lock. *)
Theorem pins_match_lock_owners ops page_size page_count st ms a f :
  run_mx ops (new_BufferManager_mx page_size page_count) = Some (st, ms) →
  Z.of_nat (length ops) < 2 ^ 63 →
  heap st !! a = Some f →
  ∃ m,
    mutex_of ms a = Some m
    ∧ counter f = Z.of_nat (owner_count m)
    ∧ (exclusive_owner m = true → shared_owners m = 0%nat)
    ∧ (owned m = true → mIsExclusive f = exclusive_owner m)
    ∧ (counter f = 0 → m = unowned).
Proof.
  intros Hrun Hlen Hf.
  destruct (reached_frame ops page_size page_count st ms a f Hrun Hlen Hf)
    as (m & Hm & Hc & _ & Hx & Hs).
  exists m. split; [done|]. split; [done|].
  split; [intros Hw; by destruct (Hx Hw)|]. split.
  - unfold owned. destruct m as [[] n]; simpl in *.
    + intros _. by destruct (Hx eq_refl).
    + destruct n; [done|]. intros _. by apply Hs.
  - intros H0. rewrite H0 in Hc.
    destruct m as [[] [|n]]; unfold owner_count in Hc; simpl in Hc; try lia. done.
Qed.

(** * Examples *)

Lemma write_then_read_restores_witness :
  let st := after_actions [Call (Fix 1 true); WriteData 0 abcd] 4 2 in
  ∃ st1 st2,
    writeDisk 0 st = (Val tt, st1)
    ∧ readDisk 0 st1 = (Val tt, st2)
    ∧ data <$> heap st2 !! 0%nat = Some abcd.
Proof.
  intros st.
  assert (Hf : ∃ f, heap st !! 0%nat = Some f ∧ data f = abcd
                    ∧ length (data f) = N.to_nat (pageSize f)).
  { eexists. split; [vm_compute; reflexivity|]. split; reflexivity. }
  clearbody st. destruct Hf as (f & Hf & Hd & Hlen).
  destruct (write_then_read_restores 0 0 f f st Hf Hf Hlen eq_refl eq_refl)
    as (st1 & st2 & Hw & _ & Hr & Hh & _).
  exists st1, st2. split; [exact Hw|]. split; [exact Hr|].
  rewrite Hh, list_lookup_insert_eq by (by eapply lookup_lt_Some). simpl. by rewrite Hd.
Defined.

Lemma resident_frames_match_table_witness :
  let xs := [Call (Fix 1 true); WriteData 0 abcd; Call (Unfix 0 true);
             Call (Fix 2 false); Call (Fix 3 false)] in
  ∃ st f,
    play xs (new_BufferManager 4 2) = Some st
    ∧ bufferMapping st !! 3%N = Some 2%nat
    ∧ heap st !! 2%nat = Some f
    ∧ pageId f = 3%N ∧ pageSize f = 4%N ∧ length (data f) = 4%nat.
Proof.
  intros xs.
  assert (Hok : Forall action_id_ok xs) by each_action.
  assert (Hplay : ∃ st, play xs (new_BufferManager 4 2) = Some st
                        ∧ bufferMapping st !! 3%N = Some 2%nat).
  { eexists. split; [vm_compute; reflexivity | reflexivity]. }
  clearbody xs. destruct Hplay as (st & Hplay & Hm).
  destruct (resident_frames_match_table xs 4 2 st 3 2 Hok Hplay Hm)
    as (f & Hf & Hid & Hps & Hlen & _).
  exists st, f. done.
Defined.

Lemma miss_allocates_new_frame_witness :
  let st := after_actions [Call (Fix 1 true); WriteData 0 abcd; Call (Unfix 0 true);
                           Call (Fix 2 false)] 4 2 in
  (data <$> heap st !! 0%nat = Some abcd ∧ length (heap st) = 2%nat)
  ∧ ∃ st' f',
      fix_page 3 false st = (Val 2%nat, st')
      ∧ bufferMapping st' !! 1%N = None
      ∧ heap st' = heap st ++ [f']
      ∧ pageId f' = 3%N ∧ counter f' = 1
      ∧ data <$> heap st' !! 0%nat = Some abcd.
Proof.
  intros st.
  assert (HS : Sound st) by (apply Sound_after_actions; each_action).
  assert (H0 : data <$> heap st !! 0%nat = Some abcd) by (vm_compute; reflexivity).
  assert (Hlen : length (heap st) = 2%nat) by (vm_compute; reflexivity).
  assert (Hm : bufferMapping st !! 3%N = None) by (vm_compute; reflexivity).
  assert (Hfix : ∃ st', fix_page 3 false st = (Val 2%nat, st')
                        ∧ bufferMapping st' !! 1%N = None).
  { eexists. split; [vm_compute; reflexivity | reflexivity]. }
  clearbody st. destruct Hfix as (st' & Hfix & Hgone).
  split; [done|].
  destruct (miss_allocates_new_frame 3 false st 2%nat st' (proj1 HS) Hm Hfix)
    as (_ & _ & f' & Hheap & Hid & _ & Hc & _).
  exists st', f'. do 5 (split; [done|]).
  rewrite Hheap, lookup_app_l by lia. exact H0.
Defined.

Lemma pinned_page_stays_resident_witness :
  let st := after_actions [Call (Fix 1 true); Call (Unfix 0 true); Call (Fix 2 false)] 4 2 in
  (bufferMapping st !! 2%N = Some 1%nat ∧ pin_count st 2 = Some 1)
  ∧ ∃ st', act (Call (Fix 3 false)) st = Some st'
           ∧ bufferMapping st' !! 2%N = Some 1%nat.
Proof.
  intros st.
  assert (HS : Sound st) by (apply Sound_after_actions; each_action).
  assert (Hm : bufferMapping st !! 2%N = Some 1%nat) by (vm_compute; reflexivity).
  assert (Hp : pin_count st 2 = Some 1) by (vm_compute; reflexivity).
  assert (Hf : ∃ f, heap st !! 1%nat = Some f ∧ counter f = 1).
  { eexists. split; [vm_compute; reflexivity | reflexivity]. }
  assert (Hact : ∃ st', act (Call (Fix 3 false)) st = Some st').
  { eexists. vm_compute. reflexivity. }
  clearbody st. destruct Hf as (f & Hf & Hc). destruct Hact as (st' & Hact).
  split; [done|]. exists st'. split; [exact Hact|].
  apply (pinned_page_stays_resident _ st st' 2 1%nat f (proj1 HS) Hact Hm Hf).
  rewrite Hc. discriminate.
Defined.

Lemma unfix_refreshes_lru_only_witness :
  let st := after_actions [Call (Fix 1 false); Call (Fix 2 false); Call (Fix 1 false);
                           Call (Fix 2 true)] 4 2 in
  lruQueue st = [1; 2]%N
  ∧ ∃ st', unfix_page 0 true st = (Val tt, st')
           ∧ disk st' = disk st
           ∧ last (lruQueue st') = Some 1%N
           ∧ lruQueue st' ≡ₚ [1; 2]%N.
Proof.
  intros st.
  assert (Hl : lruQueue st = [1; 2]%N) by (vm_compute; reflexivity).
  assert (Hf : ∃ f, heap st !! 0%nat = Some f ∧ pageId f = 1%N).
  { eexists. split; [vm_compute; reflexivity | reflexivity]. }
  clearbody st. destruct Hf as (f & Hf & Hid).
  split; [done|].
  destruct (unfix_refreshes_lru_only 0 true f st Hf)
    as (st' & f' & Hun & Hdisk & _ & _ & _ & Hperm & Hlast & _).
  exists st'. split; [exact Hun|]. split; [exact Hdisk|].
  rewrite <- Hl. split; [|exact Hperm].
  rewrite <- Hid. apply Hlast. rewrite Hid, Hl. set_solver.
Defined.

Lemma fix_then_unfix_resident_witness :
  let st := after_actions [Call (Fix 1 true); WriteData 0 abcd; Call (Unfix 0 true);
                           Call (Fix 2 false)] 4 2 in
  (fifoQueue st = [1; 2]%N ∧ pin_count st 1 = Some 0)
  ∧ ∃ st1 st2,
      fix_page 1 false st = (Val 0%nat, st1)
      ∧ unfix_page 0 false st1 = (Val tt, st2)
      ∧ counter <$> heap st2 !! 0%nat = Some 0
      ∧ trace st2 = trace st ++ [CallLockPage 0 false; CallUnlockPage 0 false]
      ∧ last (lruQueue st2) = Some 1%N.
Proof.
  intros st.
  assert (HS : Sound st) by (apply Sound_after_actions; each_action).
  assert (Hq : fifoQueue st = [1; 2]%N) by (vm_compute; reflexivity).
  assert (Hp : pin_count st 1 = Some 0) by (vm_compute; reflexivity).
  assert (Hm : bufferMapping st !! 1%N = Some 0%nat) by (vm_compute; reflexivity).
  assert (Hf : ∃ f, heap st !! 0%nat = Some f ∧ pageId f = 1%N ∧ counter f = 0).
  { eexists. split; [vm_compute; reflexivity|]. split; reflexivity. }
  clearbody st. destruct Hf as (f & Hf & Hid & Hc).
  split; [done|].
  destruct (fix_then_unfix_resident 1 false false 0%nat f st (proj1 HS) Hm Hf Hid)
    as (st1 & st2 & f2 & Hfix & Hun & Hheap & Hc2 & _ & _ & _ & _ & Htr & _ & _ & Hlast & _).
  { rewrite Hc. lia. }
  exists st1, st2. split; [exact Hfix|]. split; [exact Hun|].
  split; [|done].
  rewrite Hheap, list_lookup_insert_eq by (by eapply lookup_lt_Some). simpl.
  by rewrite Hc2, Hc.
Defined.

Lemma fix_then_unfix_miss_witness :
  let st := after_actions [Call (Fix 1 true); Call (Unfix 0 true); Call (Fix 2 false)] 4 2 in
  ∃ st1 st2,
    fix_page 3 true st = (Val 2%nat, st1)
    ∧ unfix_page 2 false st1 = (Val tt, st2)
    ∧ bufferMapping st2 !! 3%N = Some 2%nat
    ∧ counter <$> heap st2 !! 2%nat = Some 0
    ∧ last (fifoQueue st2) = Some 3%N.
Proof.
  intros st.
  assert (HS : Sound st) by (apply Sound_after_actions; each_action).
  assert (Hm : bufferMapping st !! 3%N = None) by (vm_compute; reflexivity).
  assert (Hfix : ∃ st1, fix_page 3 true st = (Val 2%nat, st1)).
  { eexists. vm_compute. reflexivity. }
  clearbody st. destruct Hfix as (st1 & Hfix).
  destruct (fix_then_unfix_miss 3 true false 2%nat st st1 (proj1 HS) Hm Hfix)
    as (st2 & f2 & Hun & Hm2 & Hf2 & Hc2 & _ & _ & _ & Hlast & _).
  exists st1, st2. do 3 (split; [done|]). split; [|done].
  by rewrite Hf2; simpl; rewrite Hc2.
Defined.

Lemma page_table_never_shrinks_witness :
  let xs := [Call (Fix 1 false); Call (Unfix 0 false); Call (Fix 2 false);
             Call (Fix 3 false)] in
  ∃ st', play xs (new_BufferManager 4 2) = Some st'
         ∧ (size (bufferMapping (new_BufferManager 4 2)) ≤ size (bufferMapping st'))%nat.
Proof.
  intros xs.
  assert (Hplay : ∃ st', play xs (new_BufferManager 4 2) = Some st').
  { eexists. vm_compute. reflexivity. }
  clearbody xs. destruct Hplay as (st' & Hplay). exists st'. split; [exact Hplay|].
  apply (page_table_never_shrinks xs _ st' (Inv_new 4 2) Hplay).
Defined.

Lemma buffer_full_exactly_when_witness :
  let st := after_actions [Call (Fix 1 true); Call (Fix 2 false)] 4 2 in
  (fix_page 3 false st).1 = Throw buffer_full_error
  ∧ bufferMapping st !! 3%N = None
  ∧ N.of_nat (size (bufferMapping st)) = pageCount st
  ∧ ∀ q, is_Some (bufferMapping st !! q) → pin_count st q ≠ Some 0.
Proof.
  intros st.
  assert (HS : Sound st) by (apply Sound_after_actions; each_action).
  assert (Hpc : (pageCount st < 2 ^ 31)%N) by (vm_compute; reflexivity).
  assert (Hthrow : (fix_page 3 false st).1 = Throw buffer_full_error)
    by (vm_compute; reflexivity).
  clearbody st. split; [exact Hthrow|].
  by apply (buffer_full_exactly_when 3 false st (proj1 HS) Hpc).
Defined.

Lemma evicted_bytes_come_back_witness :
  let st0 := after_actions [Call (Fix 1 true); WriteData 0 abcd; Call (Unfix 0 true);
                            Call (Fix 2 false); Call (Unfix 1 false)] 4 2 in
  let xs := [Call (Unfix 2 false); Call (Fix 4 true); WriteData 3 [x01; x02; x03; x04];
             Call (Unfix 3 true)] in
  ∃ st1 st2 st3 f,
    step (Fix 3 false) st0 = Some st1
    ∧ bufferMapping st1 !! 1%N = None
    ∧ play xs st1 = Some st2
    ∧ fix_page 1 false st2 = (Val 4%nat, st3)
    ∧ heap st3 !! 4%nat = Some f
    ∧ data f = abcd.
Proof.
  intros st0 xs.
  assert (HS : Sound st0) by (apply Sound_after_actions; each_action).
  assert (Hps : (bm_pageSize st0 ≤ 2 ^ 16)%N) by (vm_compute; discriminate).
  assert (Hv : bufferMapping st0 !! 1%N = Some 0%nat) by (vm_compute; reflexivity).
  assert (Hg : ∃ g, heap st0 !! 0%nat = Some g ∧ data g = abcd).
  { eexists. split; [vm_compute; reflexivity | reflexivity]. }
  assert (Hok : Forall action_id_ok xs) by each_action.
  assert (Hnf : Forall (not_fix 1) xs) by each_action.
  assert (Hrun : ∃ st1 st2 st3,
            step (Fix 3 false) st0 = Some st1
            ∧ bufferMapping st1 !! 1%N = None
            ∧ play xs st1 = Some st2
            ∧ fix_page 1 false st2 = (Val 4%nat, st3)).
  { eexists _, _, _. split; [vm_compute; reflexivity|]. split; [reflexivity|].
    split; [vm_compute; reflexivity|]. vm_compute. reflexivity. }
  clearbody st0 xs.
  destruct Hg as (g & Hg & Hd). destruct Hrun as (st1 & st2 & st3 & Hstep & Hgone & Hplay & Hfix).
  destruct (evicted_bytes_come_back 3 false 1 0%nat g st0 st1 xs st2 false 4%nat st3)
    as (f & Hf & _ & Hdata); try done.
  exists st1, st2, st3, f. do 5 (split; [done|]). congruence.
Defined.

Lemma list_of_three {A} (l : list A) x y z :
  length l = 3%nat → l !! 0%nat = Some x → l !! 1%nat = Some y → l !! 2%nat = Some z →
  l = [x; y; z].
Proof.
  destruct l as [|x' [|y' [|z' [|? ?]]]]; simpl; try done. by intros _ [= ->] [= ->] [= ->].
Qed.

Lemma destructor_writes_and_deletes_witness :
  let st := after_actions [Call (Fix 2 false); Call (Unfix 0 false);
                           Call (Fix 1 true); WriteData 1 abcd; Call (Unfix 1 true);
                           Call (Fix 3 false); Call (Unfix 2 false)] 4 2 in
  let ms := [Some unowned; Some unowned; Some unowned] in
  ∃ st' ms' written f,
    destroy_mx (st, ms) = (Returns tt, (st', ms'))
    ∧ trace st' = trace st ++ ((λ paf : N * (addr * BufferFrame),
                                  CallWriteDisk paf.2.1 paf.2.2) <$> written)
    ∧ (1%N, (1%nat, f)) ∈ written
    ∧ data f = abcd
    ∧ (∀ g, (3%N, (2%nat, g)) ∉ written)
    ∧ ms' = [Some unowned; None; None].
Proof.
  intros st ms.
  assert (HS : Sound st) by (apply Sound_after_actions; each_action).
  assert (Hlen : length ms = length (heap st)) by (vm_compute; reflexivity).
  assert (Hfree : all_unowned ms = true) by reflexivity.
  assert (H1 : ∃ f, frame_of st 1 = Some (1%nat, f) ∧ mIsDirty f = true ∧ data f = abcd).
  { eexists. split; [vm_compute; reflexivity|]. split; reflexivity. }
  assert (H3 : ∃ g, frame_of st 3 = Some (2%nat, g) ∧ mIsDirty g = false).
  { eexists. split; [vm_compute; reflexivity | reflexivity]. }
  assert (Hm1 : bufferMapping st !! 1%N = Some 1%nat) by (vm_compute; reflexivity).
  assert (Hm3 : bufferMapping st !! 3%N = Some 2%nat) by (vm_compute; reflexivity).
  assert (Hl : map_to_list (bufferMapping st) = [(1%N, 1%nat); (3%N, 2%nat)]
               ∨ map_to_list (bufferMapping st) = [(3%N, 2%nat); (1%N, 1%nat)])
    by (vm_compute; auto).
  assert (Hms0 : ms !! 0%nat = Some (Some unowned)) by reflexivity.
  assert (Hl3 : length ms = 3%nat) by reflexivity.
  clearbody st ms. destruct H1 as (f & Hf & Hfd & Hdata). destruct H3 as (g & Hg & Hgd).
  assert (Hm0 : ∀ p, bufferMapping st !! p ≠ Some 0%nat).
  { intros p Hp%elem_of_map_to_list.
    destruct Hl as [Hl|Hl]; rewrite Hl in Hp;
      apply elem_of_cons in Hp as [[= _]|Hp]; try done;
      apply elem_of_cons in Hp as [[= _]|Hp]; try done;
      by apply elem_of_nil in Hp. }
  destruct (destructor_writes_and_deletes st ms (proj1 HS) (proj1 (proj2 HS)) Hlen Hfree)
    as (st' & ms' & written & Hrun & Htr & _ & Hmem & Hlen' & Hdel & Hkeep).
  exists st', ms', written, f. do 2 (split; [done|]).
  split; [by apply Hmem|]. split; [done|].
  split; [intros g' [Hg' Hd']%Hmem; congruence|].
  apply list_of_three.
  - congruence.
  - rewrite (Hkeep 0%nat Hm0). exact Hms0.
  - by apply (Hdel 1%N).
  - by apply (Hdel 3%N).
Defined.

Lemma destructor_makes_dirty_pages_durable_witness :
  let st := after_actions [Call (Fix 1 true); WriteData 0 abcd; Call (Unfix 0 true);
                           Call (Fix 2 false); Call (Unfix 1 false)] 4 2 in
  on_disk (disk st) 1 4 = [x00; x00; x00; x00]
  ∧ ∃ st', destroy st = (Val tt, st') ∧ on_disk (disk st') 1 4 = abcd.
Proof.
  intros st.
  assert (HS : Sound st) by (apply Sound_after_actions; each_action).
  assert (Hps : (bm_pageSize st ≤ 2 ^ 16)%N) by (vm_compute; discriminate).
  assert (Hbm : bm_pageSize st = 4%N) by (vm_compute; reflexivity).
  assert (H0 : on_disk (disk st) 1 4 = [x00; x00; x00; x00]) by (vm_compute; reflexivity).
  assert (H1 : ∃ f, frame_of st 1 = Some (0%nat, f) ∧ mIsDirty f = true ∧ data f = abcd).
  { eexists. split; [vm_compute; reflexivity|]. split; reflexivity. }
  clearbody st. destruct H1 as (f & Hf & Hfd & Hdata).
  split; [done|].
  destruct (destructor_makes_dirty_pages_durable st HS Hps) as (st' & Hrun & Hsame & _).
  exists st'. split; [done|]. rewrite <- Hbm, <- Hdata. by apply (Hsame 1%N 0%nat f).
Defined.

Lemma calls_with_locks_agree_witness :
  let s := after_mx [Fix 1 false; Fix 1 false] 4 1 in
  ∃ st' ms',
    step_mx (Unfix 0 true) (s.1, s.2) = Some (st', ms')
    ∧ step (Unfix 0 true) s.1 = Some st'
    ∧ mutex_of s.2 0 = Some {| exclusive_owner := false; shared_owners := 2 |}
    ∧ mutex_of ms' 0 = Some {| exclusive_owner := false; shared_owners := 1 |}.
Proof.
  intros s.
  destruct (after_mx_sound [Fix 1 false; Fix 1 false] 4 1) as [HI HA]. fold s in HI, HA.
  assert (Hm : mutex_of s.2 0 = Some {| exclusive_owner := false; shared_owners := 2 |})
    by (vm_compute; reflexivity).
  assert (Hstep : ∃ st' ms', step_mx (Unfix 0 true) (s.1, s.2) = Some (st', ms')
                             ∧ mutex_of ms' 0
                               = Some {| exclusive_owner := false; shared_owners := 1 |}).
  { eexists _, _. split; [vm_compute; reflexivity | reflexivity]. }
  clearbody s. destruct Hstep as (st' & ms' & Hstep & Hm').
  assert (HA' : Alive (s.1, s.2)) by by destruct s.
  destruct (calls_with_locks_agree (Unfix 0 true) s.1 s.2 st' ms' HI HA' Hstep) as (Hbase & _ & _).
  exists st', ms'. done.
Defined.

Lemma pins_match_lock_owners_witness :
  let ops := [Fix 1 false; Fix 1 false; Unfix 0 true] in
  let s := after_mx ops 4 1 in
  ∃ f, heap s.1 !! 0%nat = Some f
       ∧ counter f = 1
       ∧ mutex_of s.2 0 = Some {| exclusive_owner := false; shared_owners := 1 |}.
Proof.
  intros ops s.
  assert (Hrun : run_mx ops (new_BufferManager_mx 4 1) = Some (s.1, s.2))
    by (vm_compute; reflexivity).
  assert (Hlen : Z.of_nat (length ops) < 2 ^ 63) by reflexivity.
  assert (Hf : ∃ f, heap s.1 !! 0%nat = Some f) by (eexists; vm_compute; reflexivity).
  assert (Hm : mutex_of s.2 0 = Some {| exclusive_owner := false; shared_owners := 1 |})
    by (vm_compute; reflexivity).
  clearbody s ops. destruct Hf as [f Hf].
  destruct (pins_match_lock_owners ops 4 1 s.1 s.2 0%nat f Hrun Hlen Hf)
    as (m & Hm' & Hc & _).
  exists f. split; [done|]. split; [|done].
  assert (m = {| exclusive_owner := false; shared_owners := 1 |}) as -> by congruence.
  exact Hc.
Defined.
